(** * Manifest normalisation of http-streaming (src/manifest.js)

    A shallow embedding of [parseManifest], [forEachMediaGroup],
    [setupMediaPlaylist], [setupMediaPlaylists], [resolveMediaGroupUris],
    [mainForMedia] and [addPropertiesToMain], and the properties the
    specification states about them. *)

From Stdlib Require Import Ascii String NArith QArith Qcanon.
From stdpp Require Import base option list strings pretty gmap.

Set Default Proof Using "Type".
Open Scope string_scope.

(** * JavaScript numbers

    A JavaScript number is an IEEE double.  The code below only compares
    numbers ([Math.max]), tests them for truthiness and prints them, so a
    number is modelled by its value: [NaN], an infinity, or a rational
    (every finite double is one; [-0] and [+0] are the same value here, which
    none of the three operations can tell apart except in print). *)

Inductive number : Type :=
  | NaN
  | NegInfinity
  | Fin (q : Qc)
  | PosInfinity.

Definition num (n : Z) : number := Fin (Q2Qc (inject_Z n)).

(** [a <= b] on numbers; false as soon as one side is [NaN]. *)
Definition num_leb (a b : number) : bool :=
  match a, b with
  | NaN, _ | _, NaN => false
  | NegInfinity, _ => true
  | _, PosInfinity => true
  | Fin x, Fin y => Qle_bool x y
  | _, _ => false
  end.

(** [Math.max(a, b)]. *)
Definition Math_max (a b : number) : number :=
  match a, b with
  | NaN, _ | _, NaN => NaN
  | _, _ => if num_leb a b then b else a
  end.

(** [ToNumber] of a property that holds a number or is missing
    ([undefined] converts to [NaN]). *)
Definition ToNumber (v : option number) : number := default NaN v.

(** [ToBoolean] of such a property: missing, [NaN] and zero are falsy. *)
Definition truthy_number (v : option number) : bool :=
  match v with
  | None | Some NaN => false
  | Some (Fin q) => negb (Qeq_bool q 0)
  | Some _ => true
  end.

(** [ToBoolean] of a property that holds a string or is missing. *)
Definition truthy (v : option string) : bool :=
  match v with
  | None | Some "" => false
  | Some _ => true
  end.

(** [a || b] on such properties. *)
Definition or_else (a b : option string) : option string :=
  if truthy a then a else b.

(** [ToString] of such a property, as a template literal or a property key
    converts it. *)
Definition ToString (v : option string) : string := default "undefined" v.

(** [ToString] of a natural number used as an array index. *)
Definition index_to_string (i : nat) : string := pretty i.

(** * The parsed manifest ([parseManifest]) *)

Module Manifest.

(** Objects the code only moves or deletes (server control, skip, rendition
    reports, part information, preload hints) keep their attributes as a
    bag. *)
Definition bag : Type := list (string * string).

Record part : Type := Part {
  part_duration : option number;
  part_uri : option string;
}.

Record segment : Type := Segment {
  seg_duration : option number;
  seg_uri : option string;
  seg_parts : option (list part);
  seg_preloadHints : option (list bag);
}.

Record manifest : Type := Manifest {
  preloadSegment : option segment;
  skip : option bag;
  serverControl : option bag;
  renditionReports : option (list bag);
  partInf : option bag;
  partTargetDuration : option number;
  targetDuration : option number;
  segments : option (list segment);
}.

(** [manifest.hasOwnProperty(k)] for the keys the code tests. *)
Definition hasOwnProperty (m : manifest) (k : string) : bool :=
  if String.eqb k "preloadSegment" then bool_decide (is_Some (preloadSegment m))
  else if String.eqb k "skip" then bool_decide (is_Some (skip m))
  else if String.eqb k "serverControl" then bool_decide (is_Some (serverControl m))
  else if String.eqb k "renditionReports" then bool_decide (is_Some (renditionReports m))
  else if String.eqb k "partInf" then bool_decide (is_Some (partInf m))
  else if String.eqb k "partTargetDuration" then bool_decide (is_Some (partTargetDuration m))
  else if String.eqb k "targetDuration" then bool_decide (is_Some (targetDuration m))
  else if String.eqb k "segments" then bool_decide (is_Some (segments m))
  else false.

(** [delete manifest[k]]. *)
Definition delete_key (m : manifest) (k : string) : manifest :=
  let '(Manifest ps sk sc rr pi ptd td sg) := m in
  if String.eqb k "preloadSegment" then Manifest None sk sc rr pi ptd td sg
  else if String.eqb k "skip" then Manifest ps None sc rr pi ptd td sg
  else if String.eqb k "serverControl" then Manifest ps sk None rr pi ptd td sg
  else if String.eqb k "renditionReports" then Manifest ps sk sc None pi ptd td sg
  else if String.eqb k "partInf" then Manifest ps sk sc rr None ptd td sg
  else if String.eqb k "partTargetDuration" then Manifest ps sk sc rr pi None td sg
  else if String.eqb k "targetDuration" then Manifest ps sk sc rr pi ptd None sg
  else if String.eqb k "segments" then Manifest ps sk sc rr pi ptd td None
  else m.

Definition seg_hasOwnProperty (s : segment) (k : string) : bool :=
  if String.eqb k "duration" then bool_decide (is_Some (seg_duration s))
  else if String.eqb k "uri" then bool_decide (is_Some (seg_uri s))
  else if String.eqb k "parts" then bool_decide (is_Some (seg_parts s))
  else if String.eqb k "preloadHints" then bool_decide (is_Some (seg_preloadHints s))
  else false.

Definition seg_delete_key (s : segment) (k : string) : segment :=
  let '(Segment d u p h) := s in
  if String.eqb k "duration" then Segment None u p h
  else if String.eqb k "uri" then Segment d None p h
  else if String.eqb k "parts" then Segment d u None h
  else if String.eqb k "preloadHints" then Segment d u p None
  else s.

Definition set_targetDuration (m : manifest) (n : number) : manifest :=
  let '(Manifest ps sk sc rr pi ptd _ sg) := m in
  Manifest ps sk sc rr pi ptd (Some n) sg.

Definition set_partTargetDuration (m : manifest) (n : number) : manifest :=
  let '(Manifest ps sk sc rr pi _ td sg) := m in
  Manifest ps sk sc rr pi (Some n) td sg.

Definition set_segments (m : manifest) (sg : list segment) : manifest :=
  let '(Manifest ps sk sc rr pi ptd td _) := m in
  Manifest ps sk sc rr pi ptd td (Some sg).

(** The document-level and the per-segment low-latency keys, lines 64-71
    and 79. *)
Definition llhls_keys : list string :=
  ["preloadSegment"; "skip"; "serverControl"; "renditionReports"; "partInf";
   "partTargetDuration"].

Definition llhls_segment_keys : list string := ["parts"; "preloadHints"].

(** Lines 63-86: the body of [if (!llhls)]. *)
Definition strip_segment (s : segment) : segment :=
  foldl (fun s k => if seg_hasOwnProperty s k then seg_delete_key s k else s)
        s llhls_segment_keys.

Definition strip_llhls (m : manifest) : manifest :=
  let m := foldl (fun m k => if hasOwnProperty m k then delete_key m k else m)
                 m llhls_keys in
  match segments m with
  | Some sg => set_segments m (strip_segment <$> sg)
  | None => m
  end.

(** Modelled from the spec: [getLastParts] of src/playlist.js, which is not
    among the sources.  The spec calls the last parts the partial-segment
    records of the segments in the trailing contiguous run of segments that
    carry partial records. *)
Definition carries_parts (s : segment) : bool :=
  match seg_parts s with
  | Some (_ :: _) => true
  | _ => false
  end.

Fixpoint leading_run (sg : list segment) : list segment :=
  match sg with
  | s :: sg' => if carries_parts s then s :: leading_run sg' else []
  | [] => []
  end.

Definition trailing_run (sg : list segment) : list segment :=
  reverse (leading_run (reverse sg)).

Definition getLastParts (m : manifest) : list part :=
  mjoin ((fun s => default [] (seg_parts s)) <$> trailing_run (default [] (segments m))).

(** What one run of the external m3u8-parser leaves behind: its manifest
    and the [warn] and [info] events it triggered, in order. *)
Record parser_run : Type := ParserRun {
  parser_manifest : manifest;
  parser_warn : list string;
  parser_info : list string;
}.

(** The observable outcome of [parseManifest]: the returned manifest, the
    messages handed to [onwarn] and [oninfo], and what went to
    [videojs.log.error]. *)
Record outcome : Type := Outcome {
  returned : manifest;
  warned : list string;
  informed : list string;
  log_error : list string;
}.

Definition part_target_error : string :=
  "LL-HLS manifest has parts but lacks required #EXT-X-PART-INF:PART-TARGET value. See https://datatracker.ietf.org/doc/html/draft-pantos-hls-rfc8216bis-09#section-4.4.3.7. Playback is not guaranteed.".

Section parse.
(** [ToString] of a number, as the template literals of lines 96 and 107
    apply it. *)
Variable Number_toString : number -> string.

Definition target_message (n : number) : string :=
  "manifest has no targetDuration defaulting to " ++ Number_toString n.

Definition part_target_message (n : number) : string :=
  "manifest has no partTargetDuration defaulting to " ++ Number_toString n.

(** Lines 87-99. *)
Definition default_targetDuration (onwarn : bool) (m : manifest)
  : manifest * list string :=
  if negb (truthy_number (targetDuration m)) then
    let targetDuration :=
      match segments m with
      | Some ((_ :: _) as sg) =>
          foldl (fun acc s => Math_max acc (ToNumber (seg_duration s))) (num 0) sg
      | _ => num 10
      end in
    (set_targetDuration m targetDuration,
     if onwarn then [target_message targetDuration] else [])
  else (m, []).

(** Lines 101-111. *)
Definition default_partTargetDuration (onwarn : bool) (m : manifest)
  : manifest * list string * list string :=
  let parts := getLastParts m in
  if bool_decide (parts <> []) && negb (truthy_number (partTargetDuration m)) then
    let partTargetDuration :=
      foldl (fun acc p => Math_max acc (ToNumber (part_duration p))) (num 0) parts in
    (set_partTargetDuration m partTargetDuration,
     if onwarn then [part_target_message partTargetDuration] else [],
     if onwarn then [part_target_error] else [])
  else (m, [], []).

(** [parseManifest], lines 36-114.  [onwarn] and [oninfo] say whether the
    caller passed a handler; the parser's own events reach a handler that
    was passed. *)
Definition parseManifest (onwarn oninfo : bool) (run : parser_run) (llhls : bool)
  : outcome :=
  let manifest := parser_manifest run in
  let manifest := if negb llhls then strip_llhls manifest else manifest in
  let '(manifest, w1) := default_targetDuration onwarn manifest in
  let '(manifest, w2, e) := default_partTargetDuration onwarn manifest in
  {| returned := manifest;
     warned := (if onwarn then parser_warn run else []) ++ w1 ++ w2;
     informed := (if oninfo then parser_info run else []);
     log_error := e |}.
End parse.

(** A printer for examples: integral values in decimal, others as a
    fraction. *)
Definition show_number (n : number) : string :=
  match n with
  | NaN => "NaN"
  | NegInfinity => "-Infinity"
  | PosInfinity => "Infinity"
  | Fin q =>
      if Pos.eqb (Qden q) 1 then pretty (Qnum q)
      else pretty (Qnum q) ++ "/" ++ pretty (Zpos (Qden q))
  end.

(** Sample parser runs. *)
Definition plain_segment (d : Z) : segment :=
  Segment (Some (num d)) (Some "s.ts") None None.

Definition parted_segment (d : Z) (ps : list Z) : segment :=
  Segment (Some (num d)) (Some "s.ts")
          (Some ((fun p => Part (Some (num p)) (Some "p.ts")) <$> ps)) None.

(** [#EXT-X-TARGETDURATION:0] and one segment of four seconds. *)
Definition zero_target_run : parser_run :=
  ParserRun (Manifest None None None None None None (Some (num 0))
                      (Some [plain_segment 4])) [] [].

(** No target duration; segments of 4, 6 and 5 seconds. *)
Definition untargeted_run : parser_run :=
  ParserRun (Manifest None None None None None None None
                      (Some [plain_segment 4; plain_segment 6; plain_segment 5])) [] [].

(** A low-latency playlist without [PART-TARGET]: the last two segments
    carry parts. *)
Definition parted_run : parser_run :=
  ParserRun (Manifest None None (Some [("CAN-BLOCK-RELOAD", "YES")]) None None None
                      (Some (num 4))
                      (Some [plain_segment 4; parted_segment 4 [1; 2]%Z; parted_segment 3 [2; 1]%Z]))
            [] [].

End Manifest.

(** * The main playlist object and its normalisation *)

Module Main.

(** ** Objects

    Playlists and rendition descriptors are JavaScript objects that the code
    shares and mutates: the same playlist is reachable by index, by id and by
    uri, and [Object.assign] copies a rendition descriptor into a playlist.
    They live in a heap and are named by their location. *)

Abbreviation loc := nat (only parsing).

(** The stream attributes the code reads, and the rest as a bag. *)
Record attrs : Type := Attrs {
  AUDIO : option string;
  BANDWIDTH : option number;
  attrs_other : list (string * string);
}.

Definition no_attrs : attrs := Attrs None None [].

Record object : Type := Object {
  uri : option string;
  id : option string;
  resolvedUri : option string;
  attributes : option attrs;
  playlists : option (list loc);
  playlistErrors_ : option number;
  other : list (string * string);
}.

Definition set_uri (o : object) (v : option string) : object :=
  Object v (id o) (resolvedUri o) (attributes o) (playlists o) (playlistErrors_ o) (other o).
Definition set_id (o : object) (v : option string) : object :=
  Object (uri o) v (resolvedUri o) (attributes o) (playlists o) (playlistErrors_ o) (other o).
Definition set_resolvedUri (o : object) (v : option string) : object :=
  Object (uri o) (id o) v (attributes o) (playlists o) (playlistErrors_ o) (other o).
Definition set_attributes (o : object) (v : option attrs) : object :=
  Object (uri o) (id o) (resolvedUri o) v (playlists o) (playlistErrors_ o) (other o).
Definition set_playlists (o : object) (v : option (list loc)) : object :=
  Object (uri o) (id o) (resolvedUri o) (attributes o) v (playlistErrors_ o) (other o).
Definition set_playlistErrors_ (o : object) (v : option number) : object :=
  Object (uri o) (id o) (resolvedUri o) (attributes o) (playlists o) v (other o).

(** ** The playlists array

    [main.playlists] is an array that the code also uses as a dictionary:
    [main.playlists[key] = playlist] with a string key.  JavaScript sends a
    key that is a canonical array index to the elements (growing the array,
    with holes, when the index is past its end), refuses an object as the
    array's [length] (a RangeError), and stores every other key as a named
    property.

    One key names no property of the array itself: an assignment to
    [__proto__] makes the object the prototype of the array, and a read of
    [__proto__] gives the prototype back.  [named] keeps this slot under
    the same key, next to the own properties: [prototype] and [own_named]
    tell them apart.  The code reads [main.playlists] by index and by
    [length] only, both own properties of an array, and never asks which
    keys it has. *)

Record jsarray : Type := JsArray {
  elems : list (option loc);
  named : gmap string loc;
}.

Definition digit_of (c : ascii) : option N :=
  let n := N_of_ascii c in
  if ((48 <=? n) && (n <=? 57))%N then Some (n - 48)%N else None.

Fixpoint digits_value (s : string) (acc : N) : option N :=
  match s with
  | EmptyString => Some acc
  | String c s' =>
      match digit_of c with
      | Some d => digits_value s' (10 * acc + d)%N
      | None => None
      end
  end.

(** The array index a property key denotes, if it is one: a decimal numeral
    without a leading zero, below [2^32 - 1]. *)
Definition array_index (k : string) : option nat :=
  match k with
  | EmptyString => None
  | String "0"%char EmptyString => Some 0
  | String "0"%char _ => None
  | _ =>
      match digits_value k 0 with
      | Some n => if (n <? 4294967295)%N then Some (N.to_nat n) else None
      | None => None
      end
  end.

(** [a[n] = l] on the elements. *)
Definition write_index (n : nat) (l : loc) (es : list (option loc)) : list (option loc) :=
  if decide (n < length es) then <[n := Some l]> es
  else es ++ replicate (n - length es) None ++ [Some l].

(** [a[k] = l]; [None] is the RangeError. *)
Definition assign (k : string) (l : loc) (a : jsarray) : option jsarray :=
  if String.eqb k "length" then None
  else match array_index k with
       | Some n => Some (JsArray (write_index n l (elems a)) (named a))
       | None => Some (JsArray (elems a) (<[k := l]> (named a)))
       end.

(** [a[i]] for a number [i], and [a[k]] for a string key, when the result is
    a playlist: an element, a named property, or the prototype when the key
    is [__proto__].  A key that is none of these is looked up in the
    prototype, where it finds no playlist: no property of a playlist is a
    playlist. *)
Definition at_index (a : jsarray) (i : nat) : option loc := mjoin (elems a !! i).

Definition at_key (a : jsarray) (k : string) : option loc :=
  match array_index k with
  | Some n => at_index a n
  | None => named a !! k
  end.

(** The playlist an assignment to [__proto__] made the prototype of the
    array, and the named properties that are the array's own. *)
Definition prototype (a : jsarray) : option loc := named a !! "__proto__".

Definition own_named (a : jsarray) : gmap string loc := delete "__proto__" (named a).

(** ** The main object *)

Definition labels : Type := list (string * loc).
Definition groups : Type := list (string * labels).

(** [mediaGroups] maps a media type to its groups, a group key to its
    labels, a label key to a rendition descriptor.  Each level lists its
    keys in the order [for ... in] enumerates them. *)
Record main : Type := MainObject {
  main_uri : option string;
  main_resolvedUri : option string;
  main_playlists : jsarray;
  mediaGroups : option (list (string * groups));
}.

Definition set_main_uri (m : main) (v : option string) : main :=
  MainObject v (main_resolvedUri m) (main_playlists m) (mediaGroups m).
Definition set_main_playlists (m : main) (a : jsarray) : main :=
  MainObject (main_uri m) (main_resolvedUri m) a (mediaGroups m).

Fixpoint property {A : Type} (k : string) (o : list (string * A)) : option A :=
  match o with
  | (k', v) :: o' => if String.eqb k k' then Some v else property k o'
  | [] => None
  end.

(** ** State and effects

    The heap, the main object under normalisation, and what was sent to
    [videojs.log.warn]. *)
Record state : Type := State {
  heap : list object;
  doc : main;
  console : list string;
}.

(** A computation reads and writes the state and may throw ([None]): a
    TypeError on a property of [undefined], or the RangeError of [assign]. *)
Definition M (A : Type) : Type := state -> option (A * state).

Definition ret {A : Type} (a : A) : M A := fun s => Some (a, s).

Definition bind {A B : Type} (c : M A) (k : A -> M B) : M B :=
  fun s => match c s with
           | Some (a, s') => k a s'
           | None => None
           end.

Definition throw {A : Type} : M A := fun _ => None.

Declare Scope js_scope.
Delimit Scope js_scope with js.
Notation "x <- c ;; k" := (bind c (fun x => k))
  (at level 100, c at next level, right associativity) : js_scope.
Notation "c ;; k" := (bind c (fun _ => k))
  (at level 100, right associativity) : js_scope.
Open Scope js_scope.

Definition get_main : M main := fun s => Some (doc s, s).
Definition put_main (m : main) : M unit :=
  fun s => Some (tt, State (heap s) m (console s)).

(** Reading an object through its reference. *)
Definition load (l : loc) : M object :=
  fun s => match heap s !! l with
           | Some o => Some (o, s)
           | None => None
           end.

(** Writing an object in place. *)
Definition store (l : loc) (o : object) : M unit :=
  fun s => if decide (l < length (heap s))
           then Some (tt, State (<[l := o]> (heap s)) (doc s) (console s))
           else None.

(** A new object. *)
Definition alloc (o : object) : M loc :=
  fun s => Some (length (heap s), State (heap s ++ [o]) (doc s) (console s)).

Definition log_warn (msg : string) : M unit :=
  fun s => Some (tt, State (heap s) (doc s) (console s ++ [msg])).

(** [main.playlists[i]] where a property of the result is read next: a hole
    or an index past the end gives [undefined], and the read throws. *)
Definition playlist_at (i : nat) : M loc :=
  fun s => match at_index (main_playlists (doc s)) i with
           | Some l => Some (l, s)
           | None => None
           end.

(** [main.playlists[k] = l]. *)
Definition register (k : string) (l : loc) : M unit :=
  fun s => match assign k l (main_playlists (doc s)) with
           | Some a => Some (tt, State (heap s) (set_main_playlists (doc s) a) (console s))
           | None => None
           end.

Fixpoint for_each {A : Type} (f : A -> M unit) (l : list A) : M unit :=
  match l with
  | [] => ret tt
  | x :: l' => f x ;; for_each f l'
  end.

(** [array.forEach((x, i) => ...)], the index counted from [i]. *)
Fixpoint for_each_from {A : Type} (f : A -> nat -> M unit) (i : nat) (l : list A) : M unit :=
  match l with
  | [] => ret tt
  | x :: l' => f x i ;; for_each_from f (S i) l'
  end.

(** ** The source functions *)

(** [createPlaylistID], lines 9-11. *)
Definition createPlaylistID (index : nat) (uri : option string) : string :=
  index_to_string index ++ "-" ++ ToString uri.

(** [groupID], lines 14-16: the default group id, which ignores the
    playlist it is given. *)
Definition groupID (type group label : string) (playlist : object) : string :=
  "placeholder-uri-" ++ type ++ "-" ++ group ++ "-" ++ label.

(** [forEachMediaGroup], lines 125-141. *)
Definition forEachMediaGroup (callback : loc -> string -> string -> string -> M unit)
  : M unit :=
  main <- get_main ;;
  match mediaGroups main with
  | None => ret tt
  | Some mg =>
      for_each (fun mediaType =>
        match property mediaType mg with
        | None => ret tt
        | Some gs =>
            for_each (fun '(groupKey, ls) =>
              for_each (fun '(labelKey, mediaProperties) =>
                callback mediaProperties mediaType groupKey labelKey) ls) gs
        end) ["AUDIO"; "SUBTITLES"]
  end.

(** [setupMediaPlaylist], lines 157-176: what it does to the playlist
    object, and the function itself. *)
Definition media_playlist (uri' : option string) (id' : string) (o : object) : object :=
  let o := set_id o (Some id') in
  let o := set_playlistErrors_ o (Some (num 0)) in
  let o := if truthy uri' then set_uri o uri' else o in
  set_attributes o (Some (default no_attrs (attributes o))).

Definition setupMediaPlaylist (playlist : loc) (uri' : option string) (id' : string)
  : M unit :=
  o <- load playlist ;;
  store playlist (media_playlist uri' id' o).

Definition bandwidth_warning : string :=
  "Invalid playlist STREAM-INF detected. Missing BANDWIDTH attribute.".

Section normalize.
(** [resolveUrl] of src/resolve-url.js, the base+relative resolver. *)
Variable resolveUrl : option string -> option string -> string.
(** [isAudioOnly] of src/playlist.js, a predicate over the main object. *)
Variable isAudioOnly : list object -> main -> bool.
(** [window.location.href]. *)
Variable location_href : string.

(** The body of the loop of [setupMediaPlaylists], lines 190-207. *)
Definition setup_at (i : nat) : M unit :=
  playlist <- playlist_at i ;;
  o <- load playlist ;;
  setupMediaPlaylist playlist None (createPlaylistID i (uri o)) ;;
  main <- get_main ;;
  o <- load playlist ;;
  store playlist (set_resolvedUri o (Some (resolveUrl (main_uri main) (uri o)))) ;;
  o <- load playlist ;;
  register (ToString (id o)) playlist ;;
  register (ToString (uri o)) playlist ;;
  o <- load playlist ;;
  match attributes o with
  | None => throw
  | Some a =>
      if negb (truthy_number (BANDWIDTH a)) then log_warn bandwidth_warning
      else ret tt
  end.

(** [while (i--)], the counter read once from the length. *)
Fixpoint setup_down (i : nat) : M unit :=
  match i with
  | 0 => ret tt
  | S j => setup_at j ;; setup_down j
  end.

(** [setupMediaPlaylists], lines 186-209. *)
Definition setupMediaPlaylists : M unit :=
  main <- get_main ;;
  setup_down (length (elems (main_playlists main))).

(** [resolveMediaGroupUris], lines 217-223. *)
Definition resolveMediaGroupUris : M unit :=
  forEachMediaGroup (fun properties _ _ _ =>
    o <- load properties ;;
    if truthy (uri o) then
      main <- get_main ;;
      store properties
        (set_resolvedUri o (Some (resolveUrl (main_uri main) (uri o))))
    else ret tt).

(** [mainForMedia], lines 236-263.  The playlist entry is a new object;
    [media] itself is not used.  [main.playlists[0]] is read again before
    each assignment, as the source does; the array literal has this element,
    so only the two assignments can throw. *)
Definition mainForMedia (media : loc) (uri' : string) : M main :=
  let id' := createPlaylistID 0 (Some uri') in
  p <- alloc (Object (Some uri') (Some id') (Some uri') (Some no_attrs) None None []) ;;
  let main :=
    MainObject (Some location_href) (Some location_href)
      (JsArray [Some p] ∅)
      (Some [("AUDIO", []); ("VIDEO", []); ("CLOSED-CAPTIONS", []); ("SUBTITLES", [])]) in
  match at_index (main_playlists main) 0 with
  | None => throw
  | Some p0 =>
      match assign id' p0 (main_playlists main) with
      | None => throw
      | Some a =>
          let main := set_main_playlists main a in
          match at_index (main_playlists main) 0 with
          | None => throw
          | Some p0 =>
              match assign uri' p0 (main_playlists main) with
              | None => throw
              | Some a => ret (set_main_playlists main a)
              end
          end
      end
  end.

(** Lines 279-288: a placeholder uri for the top-level playlist at [i]
    that has none. *)
Definition phony_at (i : nat) : M unit :=
  p <- playlist_at i ;;
  o <- load p ;;
  if negb (truthy (uri o)) then
    store p (set_uri o (Some ("placeholder-uri-" ++ index_to_string i)))
  else ret tt.

(** Lines 298-304: is some top-level playlist in the audio group
    [groupKey]?  The loop reads every element up to the first match. *)
Fixpoint in_main_playlists (groupKey : string) (es : list (option loc)) : M bool :=
  match es with
  | [] => ret false
  | e :: es' =>
      match e with
      | None => throw
      | Some p =>
          o <- load p ;;
          if match attributes o with
             | Some a => truthy (AUDIO a) && bool_decide (AUDIO a = Some groupKey)
             | None => false
             end
          then ret true
          else in_main_playlists groupKey es'
      end
  end.

(** Lines 293-308: returns [true] when the callback returns early. *)
Definition add_playlists (audioOnlyMain : bool) (properties : loc)
    (mediaType groupKey : string) : M bool :=
  o <- load properties ;;
  match playlists o with
  | Some (_ :: _) => ret false
  | _ =>
      found <-
        (if audioOnlyMain && String.eqb mediaType "AUDIO" && negb (truthy (uri o))
         then main <- get_main ;;
              in_main_playlists groupKey (elems (main_playlists main))
         else ret false) ;;
      if found : bool then ret true
      else
        p <- alloc o ;;
        store properties (set_playlists o (Some [p])) ;;
        ret false
  end.

(** Lines 311-332: what the callback of [properties.playlists.forEach]
    does to the sub-playlist [p] at index [i], [base] being [main.uri]. *)
Definition sub_playlist (createGroupID : string -> string -> string -> object -> string)
    (mediaType groupKey labelKey : string) (base : option string) (i : nat)
    (p : object) : object :=
  let groupId := createGroupID mediaType groupKey labelKey p in
  let id' := createPlaylistID i (Some groupId) in
  let p :=
    if truthy (uri p) then
      set_resolvedUri p (or_else (resolvedUri p) (Some (resolveUrl base (uri p))))
    else
      let p := set_uri p (Some (if decide (i = 0) then groupId else id')) in
      set_resolvedUri p (uri p) in
  let p := set_id p (or_else (id p) (Some id')) in
  set_attributes p (Some (default no_attrs (attributes p))).

(** Lines 310-337: the callback itself. *)
Definition setup_sub (createGroupID : string -> string -> string -> object -> string)
    (mediaType groupKey labelKey : string) (p : loc) (i : nat) : M unit :=
  o <- load p ;;
  main <- get_main ;;
  let o := sub_playlist createGroupID mediaType groupKey labelKey (main_uri main) i o in
  store p o ;;
  register (ToString (id o)) p ;;
  register (ToString (uri o)) p.

(** Lines 291-339: the callback of [forEachMediaGroup]. *)
Definition add_group (createGroupID : string -> string -> string -> object -> string)
    (audioOnlyMain : bool) (properties : loc) (mediaType groupKey labelKey : string)
  : M unit :=
  skipped <- add_playlists audioOnlyMain properties mediaType groupKey ;;
  if skipped : bool then ret tt
  else
    o <- load properties ;;
    for_each_from (setup_sub createGroupID mediaType groupKey labelKey) 0
      (default [] (playlists o)).

(** Lines 277-288. *)
Definition add_placeholders (uri' : string) : M unit :=
  main <- get_main ;;
  put_main (set_main_uri main (Some uri')) ;;
  main <- get_main ;;
  for_each phony_at (seq 0 (length (elems (main_playlists main)))).

(** [isAudioOnly(main)]. *)
Definition audio_only : M bool := fun s => Some (isAudioOnly (heap s) (doc s), s).

(** [addPropertiesToMain], lines 276-343; [createGroupID] is [None] when
    the caller leaves the argument out. *)
Definition addPropertiesToMain (uri' : string)
    (createGroupID : option (string -> string -> string -> object -> string))
  : M unit :=
  let createGroupID := default groupID createGroupID in
  add_placeholders uri' ;;
  audioOnlyMain <- audio_only ;;
  forEachMediaGroup (add_group createGroupID audioOnlyMain) ;;
  setupMediaPlaylists ;;
  resolveMediaGroupUris.
End normalize.

End Main.

(** * Sample documents *)

Module Samples.
Import Main.
#[local] Open Scope list_scope.

(** A stand-in for [resolveUrl] that joins base and reference with a slash. *)
Definition join_url (base rel : option string) : string :=
  (ToString base ++ "/" ++ ToString rel)%string.

Definition always (b : bool) (h : list object) (m : main) : bool := b.

Definition bare : object := Object None None None None None None [].

Definition playlist_with_uri (u : string) : object :=
  Object (Some u) None None None None None [].

Definition in_audio_group (g : string) (o : object) : object :=
  set_attributes o (Some (Attrs (Some g) (Some (num 1)) [])).

Definition empty_state : state :=
  State [] (MainObject None None (JsArray [] ∅) None) [].

(** A main playlist with two variants, the second without a uri; an audio
    group with a rendition that has no uri and one that has; a subtitles
    group whose rendition lists two playlists, the second with an id and a
    uri of its own. *)
Definition variants_heap : list object :=
  [ in_audio_group "aud" (playlist_with_uri "video.m3u8");
    in_audio_group "aud" bare;
    bare;
    playlist_with_uri "fr.m3u8";
    set_playlists bare (Some [5; 6]);
    bare;
    set_id (playlist_with_uri "sub2.m3u8") (Some "own-id") ].

Definition variants_groups : list (string * groups) :=
  [ ("AUDIO", [("aud", [("en", 2); ("fr", 3)])]);
    ("SUBTITLES", [("subs", [("en", 4)])]) ].

Definition variants : state :=
  State variants_heap
        (MainObject None None (JsArray [Some 0; Some 1] ∅) (Some variants_groups)) [].

(** Two variants with the same uri. *)
Definition twins : state :=
  State [playlist_with_uri "a.m3u8"; playlist_with_uri "a.m3u8"]
        (MainObject (Some "http://x") None (JsArray [Some 0; Some 1] ∅) None) [].

(** An audio group whose key is the empty string, referenced by the only
    variant. *)
Definition unnamed_group : state :=
  State [in_audio_group "" (playlist_with_uri "a.m3u8"); bare]
        (MainObject None None (JsArray [Some 0] ∅)
           (Some [("AUDIO", [("", [("en", 1)])])])) [].

(** A variant that comes with an id. *)
Definition preassigned : state :=
  State [set_id (playlist_with_uri "a.m3u8") (Some "custom")]
        (MainObject None None (JsArray [Some 0] ∅) None) [].


End Samples.

(** * More sample documents *)

Module MoreSamples.
Import Main.
#[local] Open Scope list_scope.

(** A callback for [forEachMediaGroup] that logs what it is called with. *)
Definition log_call (properties : loc) (mediaType groupKey labelKey : string) : M unit :=
  log_warn (mediaType ++ "/" ++ groupKey ++ "/" ++ labelKey)%string.

(** A playlists array with a hole at index 1. *)
Definition holed : state :=
  State [Samples.playlist_with_uri "a.m3u8"]
        (MainObject None None (JsArray [Some 0; None] ∅) None) [].

(** A variant and an audio rendition with the same uri. *)
Definition shared_uri : state :=
  State [Samples.playlist_with_uri "a.m3u8"; Samples.playlist_with_uri "a.m3u8"]
        (MainObject None None (JsArray [Some 0] ∅)
           (Some [("AUDIO", [("aud", [("en", 1)])])])) [].

(** An audio-only document in which the nested playlist of one rendition
    has the uri ["0"], and a second rendition of the same group has neither
    a uri nor nested playlists. *)
Definition displaced : state :=
  State [ Samples.in_audio_group "aud" (Samples.playlist_with_uri "v.m3u8");
          set_playlists Samples.bare (Some [2]);
          Samples.playlist_with_uri "0";
          Samples.bare ]
        (MainObject None None (JsArray [Some 0] ∅)
           (Some [("AUDIO", [("aud", [("a", 1); ("b", 3)])])])) [].

(** A nested playlist that comes with the uri ["0"], an id and a
    resolvedUri. *)
Definition numeric_uri : state :=
  State [ Samples.playlist_with_uri "v.m3u8";
          set_playlists Samples.bare (Some [2]);
          Object (Some "0") (Some "own-id") (Some "http://cdn/0") None None None [] ]
        (MainObject None None (JsArray [Some 0] ∅)
           (Some [("AUDIO", [("aud", [("a", 1)])])])) [].

(** No target duration, and a second segment without a duration. *)
Definition undated_run : Manifest.parser_run :=
  Manifest.ParserRun
    (Manifest.Manifest None None None None None None None
       (Some [Manifest.plain_segment 4; Manifest.Segment None (Some "s.ts") None None]))
    [] [].

End MoreSamples.

(** * Cues of a text track (src/text-tracks.js)

    [removeCuesFromTrack] and [removeDuplicateCuesFromTrack] read the
    live cue list of a track by index, from the last cue down, and remove
    cues through [track.removeCue], the method of the text track
    interface of the browser.  A track is modelled by its cue list.  A cue
    object is in the list of its track once, so [track.removeCue(cue)]
    with the cue just read at index [i] leaves the list without its
    element at [i], and the cues after it move down by one. *)

Module TextTracks.
#[local] Open Scope list_scope.

Record cue : Type := Cue {
  startTime : number;
  endTime : number;
  text : option string;
}.

(** A track object; [cues] is [None] when the property is null. *)
Record track : Type := Track {
  cues : option (list cue);
}.

(** [a >= b] on numbers. *)
Definition num_geb (a b : number) : bool := num_leb b a.

(** The test of line 363. *)
Definition within (start end' : number) (c : cue) : bool :=
  num_geb (startTime c) start && num_leb (endTime c) end'.

(** Lines 357-366, [while (i--)]: [None] is the TypeError of reading a
    property of [track.cues[i]] when there is no such element. *)
Fixpoint remove_down (start end' : number) (i : nat) (cs : list cue)
  : option (list cue) :=
  match i with
  | 0 => Some cs
  | S j =>
      match cs !! j with
      | None => None
      | Some c =>
          remove_down start end' j (if within start end' c then delete j cs else cs)
      end
  end.

(** [removeCuesFromTrack], lines 345-367: the track as the call leaves it;
    the outer [None] is an exception. *)
Definition removeCuesFromTrack (start end' : number) (t : option track)
  : option (option track) :=
  match t with
  | None => Some None
  | Some t' =>
      match cues t' with
      | None => Some t
      | Some cs =>
          match remove_down start end' (length cs) cs with
          | Some cs' => Some (Some (Track (Some cs')))
          | None => None
          end
      end
  end.

Section keys.
(** [ToString] of a number, as the template literal of line 387 applies
    it. *)
Variable Number_toString : number -> string.

(** Line 387. *)
Definition cueKey (c : cue) : string :=
  (Number_toString (startTime c) ++ "-" ++ Number_toString (endTime c) ++ "-"
   ++ ToString (text c))%string.

(** Lines 385-394: [seen] holds the keys of [uniqueCues].  The object
    starts as [{}]; a key has two dashes at least, so it is none of the
    property names an empty object inherits, and [uniqueCues[cueKey]] is
    truthy exactly for the keys stored, each with a cue object. *)
Fixpoint dedup_down (i : nat) (cs : list cue) (seen : gset string)
  : option (list cue) :=
  match i with
  | 0 => Some cs
  | S j =>
      match cs !! j with
      | None => None
      | Some c =>
          if decide (cueKey c ∈ seen) then dedup_down j (delete j cs) seen
          else dedup_down j cs ({[cueKey c]} ∪ seen)
      end
  end.

(** [removeDuplicateCuesFromTrack], lines 376-395.  Line 377 reads
    [track.cues] without a test of [track]: no track is a TypeError. *)
Definition removeDuplicateCuesFromTrack (t : option track) : option (option track) :=
  match t with
  | None => None
  | Some t' =>
      match cues t' with
      | None => Some t
      | Some cs =>
          match dedup_down (length cs) cs ∅ with
          | Some cs' => Some (Some (Track (Some cs')))
          | None => None
          end
      end
  end.
End keys.

End TextTracks.

(** * Properties of [parseManifest] *)

Module ManifestProps.
Import Manifest.

#[local] Arguments Math_max : simpl never.
#[local] Arguments num : simpl never.
#[local] Arguments num_leb : simpl never.

(** ** [Math.max] over numbers *)

Definition is_number (n : number) : Prop := n <> NaN.

Lemma num_leb_refl n : is_number n -> num_leb n n = true.
Proof.
  destruct n; unfold is_number, num_leb; try done.
  intros _. apply Qle_bool_iff, Qle_refl.
Qed.

Lemma num_leb_trans a b c :
  num_leb a b = true -> num_leb b c = true -> num_leb a c = true.
Proof.
  destruct a, b, c; unfold num_leb; try done.
  rewrite !Qle_bool_iff. apply Qle_trans.
Qed.

Lemma num_leb_total a b :
  is_number a -> is_number b -> num_leb a b = false -> num_leb b a = true.
Proof.
  destruct a, b; unfold is_number, num_leb; try done.
  intros _ _ Hab. apply Qle_bool_iff, Qlt_le_weak, Qnot_le_lt.
  intros Hle. apply Qle_bool_iff in Hle. congruence.
Qed.

Lemma num_leb_is_number_r a b : num_leb a b = true -> is_number b.
Proof. by destruct a, b. Qed.

Lemma Math_max_cases a b :
  is_number a -> is_number b ->
  (Math_max a b = b /\ num_leb a b = true) \/
  (Math_max a b = a /\ num_leb b a = true).
Proof.
  intros Ha Hb. unfold Math_max.
  destruct (num_leb a b) eqn:E.
  - left. by destruct a, b.
  - right. split; [by destruct a, b | by apply num_leb_total].
Qed.

(** [xs.reduce((acc, x) => Math.max(acc, x), a)] over numbers none of which
    is [NaN]: the result bounds [a] and every element, and is one of them. *)
Lemma foldl_max_bound (xs : list number) (a : number) :
  is_number a -> Forall is_number xs ->
  let r := foldl Math_max a xs in
  is_number r /\ num_leb a r = true /\
  Forall (fun x => num_leb x r = true) xs /\ (r = a \/ r ∈ xs).
Proof.
  revert a. induction xs as [|x xs IH]; intros a Ha Hxs; simpl.
  - split; [done|]. split; [by apply num_leb_refl|]. split; [constructor | by left].
  - inversion Hxs as [|? ? Hx Hxs']; subst.
    destruct (Math_max_cases a x Ha Hx) as [[-> Hle]|[-> Hle]].
    + destruct (IH x Hx Hxs') as (Hr & Hxr & Hall & Hin).
      split; [done|]. split; [by eapply num_leb_trans|].
      split; [by constructor|].
      right. destruct Hin as [->|Hin]; [left | by right].
    + destruct (IH a Ha Hxs') as (Hr & Har & Hall & Hin).
      split; [done|]. split; [done|].
      split; [constructor; [by eapply num_leb_trans | done]|].
      destruct Hin as [->|Hin]; [by left | right; by right].
Qed.

(** A number [d] is the maximum of a non-empty list. *)
Definition is_maximum (xs : list number) (d : number) : Prop :=
  d ∈ xs /\ Forall (fun x => num_leb x d = true) xs.

(** Starting the reduction at 0 gives the maximum of a non-empty list of
    non-negative numbers. *)
Lemma foldl_max_from_zero (xs : list number) :
  xs <> [] -> Forall (fun x => num_leb (num 0) x = true) xs ->
  is_maximum xs (foldl Math_max (num 0) xs).
Proof.
  intros Hne Hpos.
  assert (Hnum : Forall is_number xs).
  { eapply Forall_impl; [exact Hpos|]. intros x. apply num_leb_is_number_r. }
  destruct xs as [|x xs]; [done|]. simpl.
  inversion Hpos as [|? ? Hx Hpos']; subst.
  inversion Hnum as [|? ? Hnx Hnum']; subst.
  assert (Hmax : Math_max (num 0) x = x).
  { unfold Math_max. rewrite Hx. by destruct x. }
  rewrite Hmax.
  destruct (foldl_max_bound xs x Hnx Hnum') as (Hr & Hxr & Hall & Hin).
  split.
  - destruct Hin as [->|Hin]; [left | by right].
  - by constructor.
Qed.

Lemma foldl_max_fmap {A : Type} (f : A -> number) (l : list A) (a : number) :
  foldl (fun acc x => Math_max acc (f x)) a l = foldl Math_max a (f <$> l).
Proof. revert a. induction l as [|x l IH]; intros a; simpl; [done | apply IH]. Qed.

(** ** The defaulting pass *)

Definition durations (sg : list segment) : list number :=
  (fun s => ToNumber (seg_duration s)) <$> sg.

Definition part_durations (ps : list part) : list number :=
  (fun p => ToNumber (part_duration p)) <$> ps.

Lemma strip_llhls_targetDuration m : targetDuration (strip_llhls m) = targetDuration m.
Proof.
  destruct m as [ps sk sc rr pi ptd td sg].
  destruct ps, sk, sc, rr, pi, ptd, sg; reflexivity.
Qed.

Lemma strip_llhls_segments m :
  segments (strip_llhls m) = fmap (M:=list) strip_segment <$> segments m.
Proof.
  destruct m as [ps sk sc rr pi ptd td sg].
  destruct ps, sk, sc, rr, pi, ptd, sg; reflexivity.
Qed.

Lemma strip_llhls_fields m :
  let m' := strip_llhls m in
  preloadSegment m' = None /\ skip m' = None /\ serverControl m' = None /\
  renditionReports m' = None /\ partInf m' = None /\ partTargetDuration m' = None.
Proof.
  destruct m as [ps sk sc rr pi ptd td sg].
  destruct ps, sk, sc, rr, pi, ptd, sg; vm_compute; done.
Qed.

Lemma strip_segment_fields s :
  seg_parts (strip_segment s) = None /\ seg_preloadHints (strip_segment s) = None /\
  seg_duration (strip_segment s) = seg_duration s /\ seg_uri (strip_segment s) = seg_uri s.
Proof. destruct s as [d u [p|] [h|]]; done. Qed.

Lemma durations_strip sg : durations (strip_segment <$> sg) = durations sg.
Proof.
  unfold durations. rewrite <- list_fmap_compose. apply list_fmap_ext.
  intros _ s _. simpl. by destruct (strip_segment_fields s) as (_ & _ & -> & _).
Qed.

Lemma leading_run_carries sg : Forall (fun s => carries_parts s = true) (leading_run sg).
Proof.
  induction sg as [|s sg IH]; simpl; [constructor|].
  destruct (carries_parts s) eqn:E; by constructor.
Qed.

Lemma leading_run_sublist sg s : s ∈ leading_run sg -> s ∈ sg.
Proof.
  induction sg as [|s' sg IH]; simpl; [done|].
  destruct (carries_parts s'); [|by inversion 1].
  rewrite !elem_of_cons. intros [->|H]; [by left | right; by apply IH].
Qed.

(** Without partial-segment records on any segment there are no last
    parts. *)
Lemma getLastParts_none m :
  (forall sg s, segments m = Some sg -> s ∈ sg -> seg_parts s = None) ->
  getLastParts m = [].
Proof.
  intros H. unfold getLastParts, trailing_run.
  destruct (leading_run (reverse (default [] (segments m)))) as [|s l] eqn:E.
  { done. }
  exfalso.
  assert (Hs : s ∈ leading_run (reverse (default [] (segments m)))).
  { rewrite E. by left. }
  pose proof (leading_run_carries (reverse (default [] (segments m)))) as Hc.
  rewrite Forall_forall in Hc. specialize (Hc s Hs).
  apply leading_run_sublist in Hs. rewrite elem_of_reverse in Hs.
  destruct (segments m) as [sg|] eqn:Esg; simpl in Hs; [|by inversion Hs].
  unfold carries_parts in Hc. by rewrite (H sg s eq_refl Hs) in Hc.
Qed.

Lemma set_targetDuration_fields m n :
  let m' := set_targetDuration m n in
  targetDuration m' = Some n /\ segments m' = segments m /\
  partTargetDuration m' = partTargetDuration m /\
  preloadSegment m' = preloadSegment m /\ skip m' = skip m /\
  serverControl m' = serverControl m /\ renditionReports m' = renditionReports m /\
  partInf m' = partInf m.
Proof. by destruct m. Qed.

Lemma set_partTargetDuration_fields m n :
  let m' := set_partTargetDuration m n in
  partTargetDuration m' = Some n /\ segments m' = segments m /\
  targetDuration m' = targetDuration m.
Proof. by destruct m. Qed.

Lemma getLastParts_segments m m' : segments m = segments m' -> getLastParts m = getLastParts m'.
Proof. unfold getLastParts. by intros ->. Qed.

Section parse.
Variable Number_toString : number -> string.

(** The value line 88-93 computes. *)
Definition computed_targetDuration (m : manifest) : number :=
  match segments m with
  | Some ((_ :: _) as sg) => foldl Math_max (num 0) (durations sg)
  | _ => num 10
  end.

Lemma default_targetDuration_falsy onwarn m :
  truthy_number (targetDuration m) = false ->
  default_targetDuration Number_toString onwarn m =
    (set_targetDuration m (computed_targetDuration m),
     if onwarn then [target_message Number_toString (computed_targetDuration m)] else []).
Proof.
  intros H. unfold default_targetDuration, computed_targetDuration. rewrite H. simpl.
  destruct (segments m) as [[|s sg]|]; try done.
  unfold durations. by rewrite <- foldl_max_fmap.
Qed.

Lemma default_targetDuration_truthy onwarn m :
  truthy_number (targetDuration m) = true ->
  default_targetDuration Number_toString onwarn m = (m, []).
Proof. intros H. unfold default_targetDuration. by rewrite H. Qed.

Lemma default_targetDuration_segments onwarn m :
  segments (fst (default_targetDuration Number_toString onwarn m)) = segments m /\
  partTargetDuration (fst (default_targetDuration Number_toString onwarn m))
    = partTargetDuration m.
Proof.
  destruct (truthy_number (targetDuration m)) eqn:E.
  - by rewrite default_targetDuration_truthy.
  - rewrite default_targetDuration_falsy by done. simpl.
    by destruct (set_targetDuration_fields m (computed_targetDuration m))
      as (_ & -> & -> & _).
Qed.

(** The two warnings differ whatever value they state. *)
Lemma part_target_message_ne d d' :
  part_target_message Number_toString d <> target_message Number_toString d'.
Proof.
  unfold part_target_message, target_message. intros H.
  repeat (injection H as Hc H; try discriminate Hc).
Qed.

Lemma computed_targetDuration_strip m :
  computed_targetDuration (strip_llhls m) = computed_targetDuration m.
Proof.
  unfold computed_targetDuration. rewrite strip_llhls_segments.
  destruct (segments m) as [[|s sg]|]; try done.
  change (fmap (M:=list) strip_segment <$> Some (s :: sg))
    with (Some (strip_segment s :: (strip_segment <$> sg))).
  cbv beta iota.
  by rewrite <- (durations_strip (s :: sg)).
Qed.

Lemma default_partTargetDuration_spec onwarn m :
  let r := default_partTargetDuration Number_toString onwarn m in
  targetDuration (fst (fst r)) = targetDuration m /\
  segments (fst (fst r)) = segments m /\
  (snd (fst r) = [] \/
   exists x, snd (fst r) = [part_target_message Number_toString x]) /\
  (onwarn = false -> snd (fst r) = []).
Proof.
  unfold default_partTargetDuration.
  destruct (bool_decide (getLastParts m <> []) &&
            negb (truthy_number (partTargetDuration m))); cbn [fst snd].
  - destruct (set_partTargetDuration_fields m
      (foldl (fun acc p => Math_max acc (ToNumber (part_duration p))) (num 0)
             (getLastParts m))) as (_ & -> & ->).
    split; [done|]. split; [done|].
    destruct onwarn; (split; [|done]); [right; eauto | by left].
  - split; [done|]. split; [done|]. split; [by left | done].
Qed.

Lemma parseManifest_unfold onwarn oninfo run llhls :
  parseManifest Number_toString onwarn oninfo run llhls =
    let m1 := if negb llhls then strip_llhls (parser_manifest run)
              else parser_manifest run in
    let r1 := default_targetDuration Number_toString onwarn m1 in
    let r2 := default_partTargetDuration Number_toString onwarn (fst r1) in
    Outcome (fst (fst r2))
            ((if onwarn then parser_warn run else []) ++ snd r1 ++ snd (fst r2))%list
            (if oninfo then parser_info run else [])
            (snd r2).
Proof.
  unfold parseManifest. cbv zeta.
  destruct (default_targetDuration _ _ _) as [m2 w1]. cbn [fst snd].
  by destruct (default_partTargetDuration _ _ _) as [[m3 w2] e].
Qed.

Lemma no_target_message_in (w : list string) :
  (w = [] \/ exists x, w = [part_target_message Number_toString x]) ->
  forall d, target_message Number_toString d ∉ w.
Proof.
  intros [->|[x ->]] d; [by inversion 1|].
  rewrite list_elem_of_singleton. intros Heq. symmetry in Heq.
  by apply part_target_message_ne in Heq.
Qed.

Definition nonnegative (xs : list number) : Prop :=
  Forall (fun x => num_leb (num 0) x = true) xs.

(** C2 (amended).  A document whose [targetDuration] is truthy keeps it and
    gets no warning about it.  Otherwise, absent, zero or [NaN],
    [targetDuration] becomes 10 when there is no segment, else the
    reduction of [Math.max] over the segment durations from 0, which is the
    maximum segment duration when every segment has a non-negative numeric
    duration; a handler passed as [onwarn] receives, after the parser's own
    warnings, exactly one warning stating that value, and no handler means
    no warning. *)
Theorem parseManifest_targetDuration onwarn oninfo run llhls :
  let m := parser_manifest run in
  let out := parseManifest Number_toString onwarn oninfo run llhls in
  (truthy_number (targetDuration m) = true ->
     targetDuration (returned out) = targetDuration m /\
     exists rest, warned out = ((if onwarn then parser_warn run else []) ++ rest)%list /\
                  forall d, target_message Number_toString d ∉ rest) /\
  (truthy_number (targetDuration m) = false ->
     let d := computed_targetDuration m in
     targetDuration (returned out) = Some d /\
     (segments m = None \/ segments m = Some [] -> d = num 10) /\
     (forall sg, segments m = Some sg -> sg <> [] -> nonnegative (durations sg) ->
                 is_maximum (durations sg) d) /\
     exists rest,
       warned out = (if onwarn
                     then (parser_warn run ++ target_message Number_toString d :: rest)%list
                     else []) /\
       forall d', target_message Number_toString d' ∉ rest).
Proof.
  intros m out. subst out. rewrite parseManifest_unfold. cbv zeta. fold m.
  set (m1 := if negb llhls then strip_llhls m else m).
  assert (Htd : targetDuration m1 = targetDuration m).
  { subst m1. destruct llhls; [done | apply strip_llhls_targetDuration]. }
  assert (Hcomp : computed_targetDuration m1 = computed_targetDuration m).
  { subst m1. destruct llhls; [done | apply computed_targetDuration_strip]. }
  cbn [returned warned].
  split; intros Ht.
  - rewrite default_targetDuration_truthy by by rewrite Htd. cbn [fst snd].
    destruct (default_partTargetDuration_spec onwarn m1) as (-> & _ & Hw & _).
    split; [done|].
    eexists. split; [reflexivity|]. by apply no_target_message_in.
  - rewrite default_targetDuration_falsy by by rewrite Htd.
    rewrite Hcomp. cbn [fst snd].
    destruct (default_partTargetDuration_spec onwarn
                (set_targetDuration m1 (computed_targetDuration m)))
      as (-> & _ & Hw & Hoff).
    destruct (set_targetDuration_fields m1 (computed_targetDuration m)) as (-> & _).
    split; [done|].
    split.
    { unfold computed_targetDuration. by intros [->| ->]. }
    split.
    { intros sg Hsg Hne Hpos. unfold computed_targetDuration. rewrite Hsg.
      destruct sg as [|s sg]; [done|].
      apply foldl_max_from_zero; [done | exact Hpos]. }
    destruct onwarn.
    + eexists. split; [reflexivity|]. by apply no_target_message_in.
    + exists []. split; [by rewrite Hoff | intros d'; by inversion 1].
Qed.

(** C3.  With [llhls] false the returned manifest has none of the
    document-level low-latency fields, and none of its segments carries
    parts or preload hints, whatever the parser produced. *)
Theorem parseManifest_strips_llhls onwarn oninfo run :
  let m := returned (parseManifest Number_toString onwarn oninfo run false) in
  preloadSegment m = None /\ skip m = None /\ serverControl m = None /\
  renditionReports m = None /\ partInf m = None /\ partTargetDuration m = None /\
  forall sg s, segments m = Some sg -> s ∈ sg ->
               seg_parts s = None /\ seg_preloadHints s = None.
Proof.
  rewrite parseManifest_unfold. cbv zeta. cbn [negb returned].
  set (m1 := strip_llhls (parser_manifest run)).
  assert (Hseg : forall sg s, segments m1 = Some sg -> s ∈ sg ->
                              seg_parts s = None /\ seg_preloadHints s = None).
  { intros sg s Hsg Hs. subst m1. rewrite strip_llhls_segments in Hsg.
    destruct (segments (parser_manifest run)) as [sg0|]; [|done].
    injection Hsg as <-.
    apply list_elem_of_fmap in Hs as (s0 & -> & _).
    by destruct (strip_segment_fields s0) as (-> & -> & _). }
  destruct (strip_llhls_fields (parser_manifest run)) as (H1 & H2 & H3 & H4 & H5 & H6).
  fold m1 in H1, H2, H3, H4, H5, H6.
  set (r1 := default_targetDuration Number_toString onwarn m1).
  assert (Hr1 : segments (fst r1) = segments m1 /\ partTargetDuration (fst r1) = None /\
            preloadSegment (fst r1) = None /\ skip (fst r1) = None /\
            serverControl (fst r1) = None /\
            renditionReports (fst r1) = None /\ partInf (fst r1) = None).
  { subst r1. destruct (truthy_number (targetDuration m1)) eqn:E.
    - by rewrite default_targetDuration_truthy by done.
    - rewrite default_targetDuration_falsy by done. cbn [fst].
      by destruct (set_targetDuration_fields m1 (computed_targetDuration m1))
        as (_ & -> & -> & -> & -> & -> & -> & ->). }
  destruct r1 as [m2 w1]. cbn [fst] in *.
  destruct Hr1 as (Hsg2 & G6 & G1 & G2 & G3 & G4 & G5).
  unfold default_partTargetDuration.
  rewrite (getLastParts_none m2).
  2:{ intros sg s Hsg Hs. rewrite Hsg2 in Hsg. by destruct (Hseg sg s Hsg Hs). }
  rewrite bool_decide_eq_false_2 by (intros H; by apply H).
  cbn [andb fst]. rewrite Hsg2. done.
Qed.

(** C4 (amended).  With [llhls] true, a document that has last parts and
    whose [partTargetDuration] is absent, zero or [NaN] gets, as
    [partTargetDuration], the reduction of [Math.max] over the durations of
    the last parts from 0 - their maximum when all are non-negative
    numbers; a handler passed as [onwarn] receives a warning stating that
    value as its last message and the non-compliance error is logged; with
    no handler neither is emitted.  The manifest is returned in every
    case. *)
Theorem parseManifest_partTargetDuration onwarn oninfo run :
  let m := parser_manifest run in
  let out := parseManifest Number_toString onwarn oninfo run true in
  getLastParts m <> [] -> truthy_number (partTargetDuration m) = false ->
  let ds := part_durations (getLastParts m) in
  let d := foldl Math_max (num 0) ds in
  partTargetDuration (returned out) = Some d /\
  (nonnegative ds -> is_maximum ds d) /\
  (exists before,
     warned out = if onwarn
                  then (before ++ [part_target_message Number_toString d])%list
                  else []) /\
  log_error out = if onwarn then [part_target_error] else [].
Proof.
  intros m out Hparts Hfalsy ds d. subst out.
  rewrite parseManifest_unfold. cbv zeta. fold m. cbn [negb returned warned log_error].
  pose proof (default_targetDuration_segments onwarn m) as [Hsg Hptd].
  assert (Hw1 : onwarn = false ->
                snd (default_targetDuration Number_toString onwarn m) = []).
  { intros ->. unfold default_targetDuration.
    by destruct (negb (truthy_number (targetDuration m))). }
  destruct (default_targetDuration Number_toString onwarn m) as [m2 w1].
  cbn [fst snd] in *.
  unfold default_partTargetDuration.
  rewrite (getLastParts_segments m2 m Hsg), Hptd, Hfalsy.
  rewrite bool_decide_eq_true_2 by done. cbn [andb negb fst snd].
  rewrite foldl_max_fmap. fold (part_durations (getLastParts m)). fold ds. fold d.
  destruct (set_partTargetDuration_fields m2 d) as (-> & _).
  split; [done|].
  split.
  { intros Hpos. apply foldl_max_from_zero; [|exact Hpos].
    subst ds. unfold part_durations. by destruct (getLastParts m). }
  split; [|done].
  destruct onwarn.
  - exists (parser_warn run ++ w1)%list. by rewrite <- app_assoc.
  - exists []. by rewrite Hw1.
Qed.
End parse.

(** C2, as stated, fails when the document carries the explicit value 0:
    [#EXT-X-TARGETDURATION:0] is overridden by the segment maximum. *)
Lemma explicit_zero_targetDuration_overridden :
  targetDuration (parser_manifest zero_target_run) = Some (num 0) /\
  targetDuration (returned (parseManifest show_number true false zero_target_run true))
    = Some (num 4) /\
  warned (parseManifest show_number true false zero_target_run true)
    = ["manifest has no targetDuration defaulting to 4"].
Proof. vm_compute. done. Qed.

(** The defaulting pass on segments of 4, 6 and 5 seconds. *)
Lemma parseManifest_targetDuration_witness :
  targetDuration (returned (parseManifest show_number true false untargeted_run true))
    = Some (num 6) /\
  warned (parseManifest show_number true false untargeted_run true)
    = ["manifest has no targetDuration defaulting to 6"].
Proof.
  destruct (parseManifest_targetDuration show_number true false untargeted_run true)
    as [_ H].
  destruct (H eq_refl) as (Htd & _ & _ & rest & Hw & _).
  split; [exact Htd | vm_compute; done].
Defined.

(** C4, as stated, fails with [llhls] false: the parts are removed before the
    last parts are looked up, and no [partTargetDuration] is assigned. *)
Lemma partTargetDuration_not_assigned_without_llhls :
  getLastParts (parser_manifest parted_run) <> [] /\
  partTargetDuration (parser_manifest parted_run) = None /\
  partTargetDuration
    (returned (parseManifest show_number true false parted_run false)) = None /\
  log_error (parseManifest show_number true false parted_run false) = [].
Proof. vm_compute. done. Qed.

Lemma parseManifest_partTargetDuration_witness :
  partTargetDuration (returned (parseManifest show_number true false parted_run true))
    = Some (num 2) /\
  log_error (parseManifest show_number true false parted_run true) = [part_target_error].
Proof.
  assert (H1 : getLastParts (parser_manifest parted_run) <> []) by (vm_compute; done).
  assert (H2 : truthy_number (partTargetDuration (parser_manifest parted_run)) = false)
    by reflexivity.
  destruct (parseManifest_partTargetDuration show_number true false parted_run H1 H2)
    as (Hd & _ & _ & He).
  split; [exact Hd | exact He].
Defined.

End ManifestProps.

(** * Properties of the normalisation passes *)
Module MainProps.
Import Main.
#[local] Open Scope list_scope.

(** ** Property keys *)

Fixpoint has_char (c : ascii) (s : string) : bool :=
  match s with
  | EmptyString => false
  | String c' s' => Ascii.eqb c c' || has_char c s'
  end.

Definition dash : ascii := "-"%char.

(** A key that is stored as a named property: neither an array index nor
    [length]. *)
Definition safe_key (k : string) : Prop := k <> "length" /\ array_index k = None.

Lemma has_char_app c (a b : string) :
  has_char c (a ++ b)%string = has_char c a || has_char c b.
Proof.
  induction a as [|c' a IH]; [done|].
  change (String c' a ++ b)%string with (String c' (a ++ b)%string). cbn [has_char].
  by rewrite IH, orb_assoc.
Qed.

Lemma digits_value_no_dash s acc :
  has_char dash s = true -> digits_value s acc = None.
Proof.
  revert acc. induction s as [|c s IH]; intros acc; cbn [has_char digits_value]; [done|].
  destruct (Ascii.eqb dash c) eqn:E; cbn [orb].
  - apply Ascii.eqb_eq in E. subst c. intros _. reflexivity.
  - intros H. destruct (digit_of c); [by apply IH | done].
Qed.

Lemma dashed_safe k : has_char dash k = true -> safe_key k.
Proof.
  intros H. split.
  - intros ->. done.
  - destruct k as [|c k]; [done|].
    unfold array_index.
    rewrite (digits_value_no_dash _ _ H).
    destruct c as [[] [] [] [] [] [] [] []]; try done; destruct k; try done.
Qed.

Lemma createPlaylistID_safe i u : safe_key (createPlaylistID i u).
Proof.
  apply dashed_safe. unfold createPlaylistID.
  rewrite has_char_app. apply orb_true_iff. by right.
Qed.

Lemma phony_uri_safe i : safe_key ("placeholder-uri-" ++ index_to_string i)%string.
Proof. apply dashed_safe. rewrite has_char_app. done. Qed.

Lemma groupID_safe t g l o : safe_key (groupID t g l o).
Proof. apply dashed_safe. unfold groupID. rewrite has_char_app. done. Qed.

Lemma assign_safe k l a :
  safe_key k -> assign k l a = Some (JsArray (elems a) (<[k := l]> (named a))).
Proof.
  intros [Hlen Hidx]. unfold assign. rewrite Hidx.
  destruct (String.eqb k "length") eqn:E; [|done].
  by apply String.eqb_eq in E.
Qed.

Lemma at_key_safe k a : safe_key k -> at_key a k = named a !! k.
Proof. intros [_ Hidx]. unfold at_key. by rewrite Hidx. Qed.

(** An assignment to [__proto__] replaces the prototype and gives the array
    no property of its own; an assignment to another named key leaves the
    prototype. *)
Lemma assign_proto l a :
  exists a', assign "__proto__" l a = Some a' /\
             prototype a' = Some l /\ at_key a' "__proto__" = Some l /\
             own_named a' = own_named a /\ elems a' = elems a.
Proof.
  eexists. split; [reflexivity|]. unfold prototype, own_named, at_key. simpl.
  rewrite lookup_insert_eq. split; [done|]. split; [done|]. split; [|done].
  apply delete_insert_eq.
Qed.

Lemma assign_own k l a :
  safe_key k -> k <> "__proto__" ->
  exists a', assign k l a = Some a' /\
             prototype a' = prototype a /\ own_named a' = <[k := l]> (own_named a).
Proof.
  intros Hk Hne. eexists. split; [by apply assign_safe|].
  unfold prototype, own_named. simpl. split.
  - by rewrite lookup_insert_ne.
  - by rewrite delete_insert_ne.
Qed.

(** ** States *)

(** The elements and the named properties of [main.playlists]. *)
Definition elems_of (s : state) : list (option loc) := elems (main_playlists (doc s)).
Definition named_of (s : state) : gmap string loc := named (main_playlists (doc s)).

Definition with_heap (h : list object) (s : state) : state :=
  State h (doc s) (console s).

Definition with_named (nm : gmap string loc) (s : state) : state :=
  State (heap s) (set_main_playlists (doc s) (JsArray (elems_of s) nm)) (console s).

(** Registering a list of entries, in order. *)
Definition register_all (ws : list (string * loc)) (nm : gmap string loc)
  : gmap string loc :=
  foldl (fun nm w => <[w.1 := w.2]> nm) nm ws.

(** The two keys a playlist is registered under. *)
Definition keys_of (o : object) : list string := [ToString (id o); ToString (uri o)].

Definition entries_of (h : list object) (l : loc) : list (string * loc) :=
  match h !! l with
  | Some o => (fun k => (k, l)) <$> keys_of o
  | None => []
  end.

Definition safe_object (o : object) : Prop :=
  safe_key (ToString (id o)) /\ safe_key (ToString (uri o)).

Lemma register_all_app ws1 ws2 nm :
  register_all (ws1 ++ ws2) nm = register_all ws2 (register_all ws1 nm).
Proof. apply foldl_app. Qed.

Lemma register_all_union ws nm :
  register_all ws nm = list_to_map (reverse ws) ∪ nm.
Proof.
  induction ws as [|[k l] ws IH] using rev_ind.
  - simpl. by rewrite (left_id_L ∅ (∪)).
  - rewrite register_all_app, reverse_snoc. simpl.
    rewrite IH. by rewrite insert_union_l.
Qed.

(** Registering the same entries a second time changes nothing. *)
Lemma register_all_twice ws nm :
  register_all ws (register_all ws nm) = register_all ws nm.
Proof.
  rewrite !register_all_union, (assoc_L (∪)). f_equal. apply (idemp_L (∪)).
Qed.

Lemma register_all_lookup_None ws nm k :
  k ∉ ws.*1 -> register_all ws nm !! k = nm !! k.
Proof.
  revert nm. induction ws as [|[k' l] ws IH]; intros nm Hk; simpl; [done|].
  rewrite fmap_cons, not_elem_of_cons in Hk. destruct Hk as [Hne Hk].
  rewrite IH by done. by rewrite lookup_insert_ne.
Qed.

(** A key all of whose entries name the same playlist refers to it. *)
Lemma register_all_lookup ws nm k l :
  k ∈ ws.*1 -> (forall l', (k, l') ∈ ws -> l' = l) ->
  register_all ws nm !! k = Some l.
Proof.
  revert nm. induction ws as [|[k' l'] ws IH]; intros nm Hk Hall; simpl.
  { by inversion Hk. }
  destruct (decide (k ∈ ws.*1)) as [Hin|Hnin].
  - apply IH; [done|]. intros l'' H. apply Hall. by right.
  - rewrite register_all_lookup_None by done.
    rewrite fmap_cons, elem_of_cons in Hk. destruct Hk as [->|Hk]; [|done].
    simpl. rewrite lookup_insert_eq. f_equal. apply Hall. by left.
Qed.

(** Whatever a key refers to afterwards was registered or was there
    before. *)
Lemma register_all_lookup_Some ws nm k l :
  register_all ws nm !! k = Some l -> (k, l) ∈ ws \/ nm !! k = Some l.
Proof.
  revert nm. induction ws as [|[k' l'] ws IH]; intros nm H; simpl in *; [by right|].
  destruct (IH _ H) as [Hin|Hnm]; [left; by right|].
  destruct (decide (k' = k)) as [->|Hne].
  - rewrite lookup_insert_eq in Hnm. injection Hnm as ->. left. by left.
  - rewrite lookup_insert_ne in Hnm by done. by right.
Qed.

(** ** Running the primitives *)

Lemma bind_run {A B : Type} (c : M A) (k : A -> M B) s a s' :
  c s = Some (a, s') -> bind c k s = k a s'.
Proof. unfold bind. by intros ->. Qed.

Lemma bind_fail {A B : Type} (c : M A) (k : A -> M B) s :
  c s = None -> bind c k s = None.
Proof. unfold bind. by intros ->. Qed.

Lemma bind_assoc {A B C : Type} (c : M A) (k : A -> M B) (k' : B -> M C) s :
  bind (bind c k) k' s = bind c (fun a => bind (k a) k') s.
Proof. unfold bind. by destruct (c s) as [[a s']|]. Qed.

Lemma load_fail s l : heap s !! l = None -> load l s = None.
Proof. unfold load. by intros ->. Qed.

Tactic Notation "run" uconstr(H) := rewrite !(bind_run _ _ _ _ _ H).
Tactic Notation "run_fail" uconstr(H) := rewrite !(bind_fail _ _ _ H).

Lemma load_run s l o : heap s !! l = Some o -> load l s = Some (o, s).
Proof. unfold load. by intros ->. Qed.

Lemma store_run s l o :
  l < length (heap s) -> store l o s = Some (tt, with_heap (<[l := o]> (heap s)) s).
Proof. intros H. unfold store. by rewrite decide_True. Qed.

Lemma store_same s l o : heap s !! l = Some o -> store l o s = Some (tt, s).
Proof.
  intros H. rewrite store_run by by eapply lookup_lt_Some.
  unfold with_heap. rewrite list_insert_id by done. by destruct s.
Qed.

Lemma register_run s k l :
  safe_key k -> register k l s = Some (tt, with_named (<[k := l]> (named_of s)) s).
Proof. intros H. unfold register. rewrite (assign_safe _ _ _ H). reflexivity. Qed.

Lemma playlist_at_run s i l :
  elems_of s !! i = Some (Some l) -> playlist_at i s = Some (l, s).
Proof. unfold playlist_at, at_index, elems_of. by intros ->. Qed.

Lemma get_main_run s : get_main s = Some (doc s, s).
Proof. done. Qed.

Lemma for_each_app {A : Type} (f : A -> M unit) l1 l2 s :
  for_each f (l1 ++ l2) s = (for_each f l1 ;; for_each f l2) s.
Proof.
  revert s. induction l1 as [|x l1 IH]; intros s; simpl; [done|].
  unfold bind in *. destruct (f x s) as [[[] s']|]; [|done].
  by rewrite IH.
Qed.

Lemma for_each_ext {A : Type} (f g : A -> M unit) l s :
  (forall x s, f x s = g x s) -> for_each f l s = for_each g l s.
Proof.
  intros H. revert s. induction l as [|x l IH]; intros s; simpl; [done|].
  unfold bind. rewrite H. destruct (g x s) as [[[] s']|]; [apply IH | done].
Qed.

Lemma for_each_from_imap {A : Type} (f : A -> nat -> M unit) i l s :
  for_each_from f i l s = for_each (fun x => f x.2 x.1) (imap (fun j x => (i + j, x)) l) s.
Proof.
  revert i s. induction l as [|x l IH]; intros i s; simpl; [done|].
  rewrite Nat.add_0_r. unfold bind. destruct (f x i s) as [[[] s']|]; [|done].
  rewrite IH. apply (f_equal (fun l => for_each _ l s')).
  apply imap_ext. intros j y _. simpl. f_equal. lia.
Qed.

(** ** Touching one object

    Every loop body of the normalisation reads one object, rewrites it,
    possibly registers it under its two keys and possibly warns.  [touch]
    is that shape; the loop bodies are instances of it. *)

Record touch_spec : Type := Touch {
  t_loc : loc;
  t_fun : object -> object;
  t_reg : bool;
  t_warn : object -> option string;
}.

Definition silent : object -> option string := fun _ => None.

Definition touch (t : touch_spec) : M unit :=
  o <- load (t_loc t) ;;
  store (t_loc t) (t_fun t o) ;;
  (if t_reg t
   then register (ToString (id (t_fun t o))) (t_loc t) ;;
        register (ToString (uri (t_fun t o))) (t_loc t)
   else ret tt) ;;
  match t_warn t (t_fun t o) with
  | Some m => log_warn m
  | None => ret tt
  end.

Definition entries (l : loc) (o : object) : list (string * loc) :=
  (fun k => (k, l)) <$> keys_of o.

Definition touched (t : touch_spec) (s : state) : state :=
  match heap s !! t_loc t with
  | None => s
  | Some o =>
      State (<[t_loc t := t_fun t o]> (heap s))
            (if t_reg t
             then set_main_playlists (doc s)
                    (JsArray (elems_of s)
                             (register_all (entries (t_loc t) (t_fun t o)) (named_of s)))
             else doc s)
            (match t_warn t (t_fun t o) with
             | Some m => console s ++ [m]
             | None => console s
             end)
  end.

(** The rewriting keeps the nested playlists and keeps the keys safe. *)
Definition benign (t : touch_spec) : Prop :=
  (forall o, playlists (t_fun t o) = playlists o) /\
  (forall o, safe_object o -> safe_object (t_fun t o)).

Lemma touch_run t s :
  t_loc t < length (heap s) -> benign t -> Forall safe_object (heap s) ->
  touch t s = Some (tt, touched t s).
Proof.
  intros Hlt [_ Hsafe] Hall. unfold touch, touched.
  destruct (lookup_lt_is_Some_2 _ _ Hlt) as [o Ho]. rewrite Ho.
  rewrite (bind_run _ _ _ _ _ (load_run _ _ _ Ho)).
  rewrite (bind_run _ _ _ _ _ (store_run _ _ _ Hlt)).
  assert (Hso : safe_object (t_fun t o)).
  { apply Hsafe. rewrite Forall_forall in Hall. apply Hall.
    by eapply list_elem_of_lookup_2. }
  destruct Hso as [Hid Huri].
  destruct (t_reg t).
  - unfold bind at 1. unfold bind at 1.
    rewrite (register_run _ _ _ Hid). cbv beta iota.
    rewrite (register_run _ _ _ Huri). cbv beta iota.
    destruct (t_warn t (t_fun t o)); reflexivity.
  - destruct (t_warn t (t_fun t o)); reflexivity.
Qed.

Lemma touched_length t s : length (heap (touched t s)) = length (heap s).
Proof.
  unfold touched. destruct (heap s !! t_loc t); [|done]. simpl. apply length_insert.
Qed.

Lemma touched_elems t s : elems_of (touched t s) = elems_of s.
Proof. unfold touched. destruct (heap s !! t_loc t); [|done]. by destruct (t_reg t). Qed.

Lemma touched_main_uri t s : main_uri (doc (touched t s)) = main_uri (doc s).
Proof. unfold touched. destruct (heap s !! t_loc t); [|done]. by destruct (t_reg t). Qed.

Lemma touched_mediaGroups t s : mediaGroups (doc (touched t s)) = mediaGroups (doc s).
Proof. unfold touched. destruct (heap s !! t_loc t); [|done]. by destruct (t_reg t). Qed.

Lemma touched_lookup t s l :
  heap (touched t s) !! l =
    if decide (l = t_loc t) then t_fun t <$> heap s !! l else heap s !! l.
Proof.
  unfold touched. case_decide as E.
  - subst l. destruct (heap s !! t_loc t) as [o|] eqn:Ho; [|by rewrite Ho].
    simpl. rewrite list_lookup_insert_eq; [done | by eapply lookup_lt_Some].
  - destruct (heap s !! t_loc t) as [o|] eqn:Ho; [|done].
    simpl. by rewrite list_lookup_insert_ne.
Qed.

Lemma touched_named t s :
  named_of (touched t s) =
    match heap s !! t_loc t with
    | Some o => if t_reg t then register_all (entries (t_loc t) (t_fun t o)) (named_of s)
                else named_of s
    | None => named_of s
    end.
Proof. unfold touched. destruct (heap s !! t_loc t); [|done]. by destruct (t_reg t). Qed.

(** ** The invariant of a run: every key is safe and every reference
    points into the heap. *)

(** One call of the callback of [forEachMediaGroup]: the rendition
    descriptor with its media type, group key and label key. *)
Record visit : Type := Visit {
  v_props : loc;
  v_type : string;
  v_group : string;
  v_label : string;
}.

(** The rendition descriptors in the order [forEachMediaGroup] calls back
    on them. *)
Definition visits (m : main) : list visit :=
  match mediaGroups m with
  | None => []
  | Some mg =>
      mediaType ← ["AUDIO"; "SUBTITLES"];
      match property mediaType mg with
      | None => []
      | Some gs =>
          g ← gs; l ← g.2; [Visit l.2 mediaType g.1 l.1]
      end
  end.

(** The nested playlists of an object, none when it has no [playlists]. *)
Definition refs_of (o : object) : list loc := default [] (playlists o).

(** A document the passes run on without throwing: the id and the uri of
    every object are stored as named properties when used as keys; nested
    playlists, the elements of [main.playlists] (none of them a hole) and
    the rendition descriptors are objects of the heap. *)
Record ok (s : state) : Prop := Ok {
  ok_safe : Forall safe_object (heap s);
  ok_closed : Forall (fun o => Forall (fun p => p < length (heap s)) (refs_of o)) (heap s);
  ok_tops : Forall (fun e => exists l, e = Some l /\ l < length (heap s)) (elems_of s);
  ok_leaves : Forall (fun v => v_props v < length (heap s)) (visits (doc s));
}.

Lemma touched_visits t s : visits (doc (touched t s)) = visits (doc s).
Proof. unfold visits. by rewrite touched_mediaGroups. Qed.

Lemma touched_ok t s : benign t -> ok s -> ok (touched t s).
Proof.
  intros [Hpl Hsafe] [H1 H2 H3 H4].
  split; rewrite ?touched_length, ?touched_elems, ?touched_visits; try done.
  - unfold touched. destruct (heap s !! t_loc t) as [o|] eqn:Ho; [|done]. simpl.
    apply Forall_insert; [done|]. apply Hsafe.
    rewrite Forall_forall in H1. apply H1. by eapply list_elem_of_lookup_2.
  - unfold touched. destruct (heap s !! t_loc t) as [o|] eqn:Ho; [|done]. simpl.
    apply Forall_insert; [done|]. unfold refs_of. rewrite Hpl.
    rewrite Forall_forall in H2. apply H2. by eapply list_elem_of_lookup_2.
Qed.

Definition touched_all (ts : list touch_spec) (s : state) : state :=
  foldl (fun s t => touched t s) s ts.

Lemma touched_all_ok ts s : Forall benign ts -> ok s -> ok (touched_all ts s).
Proof.
  revert s. induction ts as [|t ts IH]; intros s Hb Hok; simpl; [done|].
  inversion Hb; subst. apply IH; [done|]. by apply touched_ok.
Qed.

Lemma touched_all_length ts s : length (heap (touched_all ts s)) = length (heap s).
Proof.
  revert s. induction ts as [|t ts IH]; intros s; simpl; [done|].
  by rewrite IH, touched_length.
Qed.

Lemma touched_all_elems ts s : elems_of (touched_all ts s) = elems_of s.
Proof.
  revert s. induction ts as [|t ts IH]; intros s; simpl; [done|].
  by rewrite IH, touched_elems.
Qed.

Lemma touched_all_main_uri ts s : main_uri (doc (touched_all ts s)) = main_uri (doc s).
Proof.
  revert s. induction ts as [|t ts IH]; intros s; simpl; [done|].
  by rewrite IH, touched_main_uri.
Qed.

Lemma touched_all_mediaGroups ts s :
  mediaGroups (doc (touched_all ts s)) = mediaGroups (doc s).
Proof.
  revert s. induction ts as [|t ts IH]; intros s; simpl; [done|].
  by rewrite IH, touched_mediaGroups.
Qed.

(** Objects no touch names stay as they are. *)
Lemma touched_all_frame ts s l :
  l ∉ t_loc <$> ts -> heap (touched_all ts s) !! l = heap s !! l.
Proof.
  revert s. induction ts as [|t ts IH]; intros s Hl; simpl; [done|].
  rewrite fmap_cons, not_elem_of_cons in Hl. destruct Hl as [Hne Hl].
  rewrite IH by done. rewrite touched_lookup. by rewrite decide_False.
Qed.

(** With every object touched at most once, each is rewritten by its own
    touch. *)
Lemma touched_all_lookup ts s t :
  NoDup (t_loc <$> ts) -> t ∈ ts ->
  heap (touched_all ts s) !! t_loc t = t_fun t <$> heap s !! t_loc t.
Proof.
  revert s. induction ts as [|t' ts IH]; intros s Hnd Ht; simpl; [by inversion Ht|].
  rewrite fmap_cons in Hnd. apply NoDup_cons in Hnd as [Hnin Hnd].
  apply elem_of_cons in Ht as [->|Ht].
  - rewrite touched_all_frame by done. rewrite touched_lookup. by rewrite decide_True.
  - rewrite IH by done. rewrite touched_lookup. rewrite decide_False; [done|].
    intros Heq. apply Hnin. rewrite <- Heq. by apply list_elem_of_fmap_2.
Qed.

(** What a list of touches registers, read off the heap they leave. *)
Definition registered (h : list object) (ts : list touch_spec) : list (string * loc) :=
  t ← ts; if t_reg t then entries_of h (t_loc t) else [].

Lemma registered_cons h t ts :
  registered h (t :: ts) =
    (if t_reg t then entries_of h (t_loc t) else []) ++ registered h ts.
Proof. done. Qed.

Lemma entries_of_lookup h l o : h !! l = Some o -> entries_of h l = entries l o.
Proof. unfold entries_of. by intros ->. Qed.

Lemma touched_all_named ts s :
  NoDup (t_loc <$> ts) -> Forall (fun t => t_loc t < length (heap s)) ts ->
  named_of (touched_all ts s) =
    register_all (registered (heap (touched_all ts s)) ts) (named_of s).
Proof.
  revert s. induction ts as [|t ts IH]; intros s Hnd Hv; [done|].
  change (touched_all (t :: ts) s) with (touched_all ts (touched t s)).
  rewrite fmap_cons in Hnd. apply NoDup_cons in Hnd as [Hnin Hnd].
  inversion Hv as [|? ? Hlt Hv']; subst.
  rewrite IH; [|done|].
  2:{ eapply Forall_impl; [eassumption|]. intros t'. by rewrite touched_length. }
  rewrite registered_cons, register_all_app. f_equal.
  rewrite touched_named.
  destruct (lookup_lt_is_Some_2 _ _ Hlt) as [o Ho]. rewrite Ho.
  destruct (t_reg t); [|done].
  rewrite (entries_of_lookup _ _ (t_fun t o)); [done|].
  rewrite touched_all_frame by done. rewrite touched_lookup, decide_True by done.
  by rewrite Ho.
Qed.

Lemma bind_ret_tt (c : M unit) s : (c ;; ret tt) s = c s.
Proof. unfold bind. by destruct (c s) as [[[] s']|]. Qed.

Lemma for_each_bind {A B : Type} (f : B -> M unit) (g : A -> list B) l s :
  for_each f (l ≫= g) s = for_each (fun x => for_each f (g x)) l s.
Proof.
  revert s. induction l as [|x l IH]; intros s; [done|].
  rewrite bind_cons, for_each_app. cbn [for_each].
  unfold bind. destruct (for_each f (g x) s) as [[[] s']|]; [apply IH | done].
Qed.

Lemma for_each_singleton {A : Type} (f : A -> M unit) x s : for_each f [x] s = f x s.
Proof. apply bind_ret_tt. Qed.

(** [forEachMediaGroup] calls back on the visits, in order. *)
Lemma forEachMediaGroup_visits (callback : loc -> string -> string -> string -> M unit) s :
  forEachMediaGroup callback s =
    for_each (fun v => callback (v_props v) (v_type v) (v_group v) (v_label v))
             (visits (doc s)) s.
Proof.
  unfold forEachMediaGroup, visits.
  rewrite (bind_run _ _ _ _ _ (get_main_run s)).
  destruct (mediaGroups (doc s)) as [mg|]; [|done].
  rewrite for_each_bind. apply for_each_ext. intros mediaType s1.
  destruct (property mediaType mg) as [gs|]; [|done].
  rewrite for_each_bind. apply for_each_ext. intros [g ls] s2.
  rewrite for_each_bind. apply for_each_ext. intros [lab l] s3.
  by rewrite for_each_singleton.
Qed.

(** ** The loop bodies as touches *)

(** The top-level playlists, in the order of [main.playlists]. *)
Definition top_locs (s : state) : list loc := omap (fun e => e) (elems_of s).

Lemma ok_elems s : ok s -> elems_of s = Some <$> top_locs s.
Proof.
  intros Hok. pose proof (ok_tops _ Hok) as H. unfold top_locs.
  induction (elems_of s) as [|e es IH]; [done|].
  inversion H as [|? ? (l & -> & _) H']; subst. simpl. f_equal. by apply IH.
Qed.

Lemma ok_top_lookup s i l :
  ok s -> top_locs s !! i = Some l -> elems_of s !! i = Some (Some l) /\ l < length (heap s).
Proof.
  intros Hok Hl. pose proof (ok_tops _ Hok) as H.
  rewrite (ok_elems _ Hok) in H |- *.
  rewrite list_lookup_fmap, Hl. split; [done|].
  rewrite Forall_forall in H.
  destruct (H (Some l)) as (l' & [= <-] & Hlt); [|done].
  apply list_elem_of_fmap_2. by eapply list_elem_of_lookup_2.
Qed.

Lemma ok_top_length s : ok s -> length (elems_of s) = length (top_locs s).
Proof. intros Hok. by rewrite (ok_elems _ Hok), length_fmap. Qed.

Section steps.
Variable resolveUrl : option string -> option string -> string.
Variable createGroupID : string -> string -> string -> object -> string.
Hypothesis createGroupID_safe : forall t g l o, safe_key (createGroupID t g l o).

(** Lines 280-287 on the playlist object. *)
Definition phony (i : nat) (o : object) : object :=
  if negb (truthy (uri o))
  then set_uri o (Some ("placeholder-uri-" ++ index_to_string i)%string)
  else o.

(** Lines 192-196 on the playlist object. *)
Definition top_setup (base : option string) (i : nat) (o : object) : object :=
  let o := media_playlist None (createPlaylistID i (uri o)) o in
  set_resolvedUri o (Some (resolveUrl base (uri o))).

(** Lines 205-207. *)
Definition bandwidth_check (o : object) : option string :=
  match attributes o with
  | Some a => if negb (truthy_number (BANDWIDTH a)) then Some bandwidth_warning else None
  | None => None
  end.

(** Lines 219-221 on the rendition descriptor. *)
Definition resolved (base : option string) (o : object) : object :=
  if truthy (uri o) then set_resolvedUri o (Some (resolveUrl base (uri o))) else o.

Definition sub_of (v : visit) (base : option string) (j : nat) : object -> object :=
  sub_playlist resolveUrl createGroupID (v_type v) (v_group v) (v_label v) base j.

Definition phony_touch (i : nat) (l : loc) : touch_spec := Touch l (phony i) false silent.
Definition top_touch (base : option string) (i : nat) (l : loc) : touch_spec :=
  Touch l (top_setup base i) true bandwidth_check.
Definition sub_touch (v : visit) (base : option string) (j : nat) (p : loc) : touch_spec :=
  Touch p (sub_of v base j) true silent.
Definition leaf_touch (base : option string) (v : visit) : touch_spec :=
  Touch (v_props v) (resolved base) false silent.

Lemma phony_benign i l : benign (phony_touch i l).
Proof.
  split; intros o; simpl; unfold phony; destruct (truthy (uri o)); simpl; try done.
  intros [Hid _]. split; [done | apply phony_uri_safe].
Qed.

Lemma top_benign base i l : benign (top_touch base i l).
Proof.
  split; intros o; simpl; [done|].
  intros [_ Huri]. split; [apply createPlaylistID_safe | done].
Qed.

Lemma sub_benign v base j p : benign (sub_touch v base j p).
Proof using createGroupID_safe.
  split; intros o; simpl; unfold sub_of, sub_playlist.
  - by destruct (truthy (uri o)).
  - intros [Hid Huri]. split.
    + simpl. unfold or_else.
      destruct (truthy (uri o)); simpl; destruct (truthy (id o));
        first [done | apply createPlaylistID_safe].
    + destruct (truthy (uri o)); simpl; [done|].
      case_decide; [apply createGroupID_safe | apply createPlaylistID_safe].
Qed.

Lemma leaf_benign base v : benign (leaf_touch base v).
Proof.
  split; intros o; simpl; unfold resolved; by destruct (truthy (uri o)).
Qed.

Lemma phony_at_touch s i l :
  elems_of s !! i = Some (Some l) ->
  phony_at i s = touch (phony_touch i l) s.
Proof.
  intros He. unfold phony_at, touch.
  run (playlist_at_run _ _ _ He). cbn [phony_touch t_loc t_fun t_reg t_warn silent].
  destruct (heap s !! l) as [o|] eqn:Ho.
  - run (load_run _ _ _ Ho). unfold phony.
    pose proof (lookup_lt_Some _ _ _ Ho) as Hlt.
    destruct (negb (truthy (uri o))).
    + run (store_run _ _ _ Hlt). by rewrite (store_run _ _ _ Hlt).
    + by run (store_same _ _ _ Ho).
  - by run_fail (load_fail _ _ Ho).
Qed.

Lemma setup_sub_touch v p i s :
  setup_sub resolveUrl createGroupID (v_type v) (v_group v) (v_label v) p i s =
    touch (sub_touch v (main_uri (doc s)) i p) s.
Proof.
  unfold setup_sub, touch. cbn [sub_touch t_loc t_fun t_reg t_warn silent].
  destruct (heap s !! p) as [o|] eqn:Ho.
  - run (load_run _ _ _ Ho). run (get_main_run s).
    pose proof (lookup_lt_Some _ _ _ Ho) as Hlt.
    run (store_run _ _ _ Hlt). rewrite bind_assoc.
    fold (sub_of v (main_uri (doc s)) i o).
    destruct (register (ToString (id (sub_of v (main_uri (doc s)) i o))) p
                (with_heap (<[p := sub_of v (main_uri (doc s)) i o]> (heap s)) s))
      as [[[] s2]|] eqn:E2.
    + run E2. rewrite bind_ret_tt. done.
    + by run_fail E2.
  - by run_fail (load_fail _ _ Ho).
Qed.

Lemma resolve_touch v s :
  (o <- load (v_props v) ;;
   if truthy (uri o) then
     main <- get_main ;;
     store (v_props v) (set_resolvedUri o (Some (resolveUrl (main_uri main) (uri o))))
   else ret tt) s = touch (leaf_touch (main_uri (doc s)) v) s.
Proof.
  unfold touch. cbn [leaf_touch t_loc t_fun t_reg t_warn silent].
  destruct (heap s !! v_props v) as [o|] eqn:Ho.
  - run (load_run _ _ _ Ho). unfold resolved.
    pose proof (lookup_lt_Some _ _ _ Ho) as Hlt.
    destruct (truthy (uri o)).
    + run (get_main_run s). run (store_run _ _ _ Hlt). by rewrite (store_run _ _ _ Hlt).
    + by run (store_same _ _ _ Ho).
  - by run_fail (load_fail _ _ Ho).
Qed.

Lemma register_heap k l s s' : register k l s = Some (tt, s') -> heap s' = heap s.
Proof.
  unfold register. destruct (assign k l (main_playlists (doc s))); [|done].
  by intros [= <-].
Qed.

Lemma setup_at_touch s i l :
  elems_of s !! i = Some (Some l) -> l < length (heap s) ->
  setup_at resolveUrl i s = touch (top_touch (main_uri (doc s)) i l) s.
Proof.
  intros He Hlt. unfold setup_at, touch, setupMediaPlaylist.
  run (playlist_at_run _ _ _ He). cbn [top_touch t_loc t_fun t_reg t_warn].
  destruct (lookup_lt_is_Some_2 _ _ Hlt) as [o Ho].
  run (load_run _ _ _ Ho). rewrite bind_assoc. run (load_run _ _ _ Ho).
  run (store_run _ _ _ Hlt).
  set (o1 := media_playlist None (createPlaylistID i (uri o)) o).
  set (s1 := with_heap (<[l := o1]> (heap s)) s).
  run (get_main_run s1).
  assert (Ho1 : heap s1 !! l = Some o1).
  { subst s1. simpl. by apply list_lookup_insert_eq. }
  assert (Hlt1 : l < length (heap s1)).
  { subst s1. simpl. by rewrite length_insert. }
  run (load_run _ _ _ Ho1). run (store_run _ _ _ Hlt1).
  set (o2 := set_resolvedUri o1 (Some (resolveUrl (main_uri (doc s1)) (uri o1)))).
  assert (Heq : with_heap (<[l := o2]> (heap s1)) s1 = with_heap (<[l := o2]> (heap s)) s).
  { subst s1. unfold with_heap. simpl. by rewrite list_insert_insert_eq. }
  rewrite Heq. clear Heq.
  change (top_setup (main_uri (doc s)) i o) with o2.
  set (s2 := with_heap (<[l := o2]> (heap s)) s).
  assert (Ho2 : heap s2 !! l = Some o2).
  { subst s2. simpl. by apply list_lookup_insert_eq. }
  run (load_run _ _ _ Ho2). rewrite bind_assoc.
  destruct (register (ToString (id o2)) l s2) as [[[] s3]|] eqn:E3.
  2:{ by run_fail E3. }
  run E3.
  destruct (register (ToString (uri o2)) l s3) as [[[] s4]|] eqn:E4.
  2:{ by run_fail E4. }
  run E4.
  assert (Ho4 : heap s4 !! l = Some o2).
  { by rewrite (register_heap _ _ _ _ E4), (register_heap _ _ _ _ E3). }
  run (load_run _ _ _ Ho4).
  unfold bandwidth_check. subst o2 o1. simpl.
  by destruct (negb (truthy_number _)).
Qed.
End steps.

(** ** The loops as lists of touches *)

Definition indexed {A : Type} (l : list A) : list (nat * A) := imap (fun j x => (j, x)) l.

Lemma indexed_fst {A : Type} (l : list A) : (indexed l).*1 = seq 0 (length l).
Proof.
  unfold indexed. rewrite fmap_imap. apply list_eq. intros i.
  rewrite list_lookup_imap. destruct (l !! i) as [x|] eqn:E; simpl.
  - symmetry. apply lookup_seq. split; [done|]. by eapply lookup_lt_Some.
  - symmetry. apply lookup_seq_ge. by apply lookup_ge_None.
Qed.

Lemma indexed_snd {A : Type} (l : list A) : (indexed l).*2 = l.
Proof.
  unfold indexed. rewrite fmap_imap. apply list_eq. intros i.
  rewrite list_lookup_imap. by destruct (l !! i).
Qed.

Lemma elem_of_indexed {A : Type} (l : list A) j x : (j, x) ∈ indexed l <-> l !! j = Some x.
Proof.
  unfold indexed. rewrite elem_of_lookup_imap. split.
  - intros (i & y & [= -> ->] & H). done.
  - intros H. by exists j, x.
Qed.

Lemma for_each_fmap {A B : Type} (f : B -> M unit) (g : A -> B) l s :
  for_each f (g <$> l) s = for_each (fun x => f (g x)) l s.
Proof.
  revert s. induction l as [|x l IH]; intros s; [done|].
  cbn [fmap list_fmap for_each]. unfold bind.
  destruct (f (g x) s) as [[[] s']|]; [apply IH | done].
Qed.

(** Two states that differ in the heap's contents, the named properties and
    the console only. *)
Definition same_frame (s s' : state) : Prop :=
  elems_of s' = elems_of s /\ main_uri (doc s') = main_uri (doc s) /\
  mediaGroups (doc s') = mediaGroups (doc s) /\ length (heap s') = length (heap s).

Lemma same_frame_touched t s s' : same_frame s s' -> same_frame s (touched t s').
Proof.
  intros (H1 & H2 & H3 & H4).
  unfold same_frame.
  by rewrite touched_elems, touched_main_uri, touched_mediaGroups, touched_length.
Qed.

Lemma same_frame_touched_all ts s : same_frame s (touched_all ts s).
Proof.
  unfold same_frame.
  by rewrite touched_all_elems, touched_all_main_uri, touched_all_mediaGroups,
             touched_all_length.
Qed.

(** A loop whose body is a touch at every state of the same frame runs as
    the list of its touches. *)
Lemma for_each_touches {A : Type} (f : A -> M unit) (spec : A -> touch_spec) xs s :
  (forall x s', x ∈ xs -> same_frame s s' -> f x s' = touch (spec x) s') ->
  Forall (fun x => benign (spec x)) xs ->
  Forall (fun x => t_loc (spec x) < length (heap s)) xs ->
  ok s ->
  for_each f xs s = Some (tt, touched_all (spec <$> xs) s).
Proof.
  intros Hf Hb Hv Hok.
  assert (Hgen : forall s', same_frame s s' -> ok s' ->
            for_each f xs s' = Some (tt, touched_all (spec <$> xs) s')).
  { clear Hok. induction xs as [|x xs IH]; intros s' Hs' Hok'; [done|].
    inversion Hb; subst. inversion Hv; subst.
    cbn [for_each fmap list_fmap].
    rewrite (bind_run _ _ _ tt (touched (spec x) s')).
    - apply IH; try done.
      + intros y s'' Hy. apply Hf. by right.
      + by apply same_frame_touched.
      + by apply touched_ok.
    - rewrite Hf; [|by left|done].
      apply touch_run; [|done|by apply ok_safe].
      destruct Hs' as (_ & _ & _ & ->). done. }
  by apply Hgen.
Qed.

Section loops.
Variable resolveUrl : option string -> option string -> string.
Variable createGroupID : string -> string -> string -> object -> string.
Hypothesis createGroupID_safe : forall t g l o, safe_key (createGroupID t g l o).

Definition phony_touches (tops : list loc) : list touch_spec :=
  (fun x => phony_touch x.1 x.2) <$> indexed tops.

Definition top_touches (base : option string) (tops : list loc) : list touch_spec :=
  (fun x => top_touch resolveUrl base x.1 x.2) <$> reverse (indexed tops).

Definition sub_touches (v : visit) (base : option string) (ps : list loc)
  : list touch_spec :=
  (fun x => sub_touch resolveUrl createGroupID v base x.1 x.2) <$> indexed ps.

Definition leaf_touches (base : option string) (vs : list visit) : list touch_spec :=
  leaf_touch resolveUrl base <$> vs.

Lemma phony_touches_locs tops : t_loc <$> phony_touches tops = tops.
Proof. unfold phony_touches. rewrite <- list_fmap_compose. apply indexed_snd. Qed.

Lemma top_touches_locs base tops : t_loc <$> top_touches base tops = reverse tops.
Proof.
  unfold top_touches. rewrite <- list_fmap_compose, fmap_reverse. f_equal.
  apply indexed_snd.
Qed.

Lemma sub_touches_locs v base ps : t_loc <$> sub_touches v base ps = ps.
Proof. unfold sub_touches. rewrite <- list_fmap_compose. apply indexed_snd. Qed.

Lemma leaf_touches_locs base vs : t_loc <$> leaf_touches base vs = v_props <$> vs.
Proof. unfold leaf_touches. by rewrite <- list_fmap_compose. Qed.

Definition with_uri (base : string) (s : state) : state :=
  State (heap s) (set_main_uri (doc s) (Some base)) (console s).

Lemma with_uri_ok base s : ok s -> ok (with_uri base s).
Proof. by intros [H1 H2 H3 H4]. Qed.

Lemma same_frame_tops s s' : same_frame s s' -> top_locs s' = top_locs s.
Proof. intros (H & _). unfold top_locs. by rewrite H. Qed.

(** Lines 277-288. *)
Lemma add_placeholders_run base s :
  ok s ->
  add_placeholders base s =
    Some (tt, touched_all (phony_touches (top_locs s)) (with_uri base s)).
Proof.
  intros Hok. unfold add_placeholders.
  run (get_main_run s).
  rewrite (bind_run _ _ _ tt (with_uri base s)) by done.
  run (get_main_run (with_uri base s)).
  pose proof (with_uri_ok base s Hok) as Hok'.
  change (elems (main_playlists (doc (with_uri base s)))) with (elems_of s).
  rewrite (ok_top_length _ Hok), <- indexed_fst, for_each_fmap.
  unfold phony_touches.
  apply for_each_touches; try done.
  - intros [i l] s' Hx Hs'. apply elem_of_indexed in Hx.
    destruct (ok_top_lookup _ _ _ Hok Hx) as [He _].
    apply phony_at_touch. destruct Hs' as (-> & _). done.
  - apply Forall_forall. intros x _. apply phony_benign.
  - apply Forall_forall. intros [i l] Hx. apply elem_of_indexed in Hx.
    by destruct (ok_top_lookup _ _ _ Hok Hx).
Qed.

Lemma setup_down_for_each n s :
  setup_down resolveUrl n s = for_each (setup_at resolveUrl) (reverse (seq 0 n)) s.
Proof.
  revert s. induction n as [|n IH]; intros s; [done|].
  rewrite seq_S, reverse_snoc. change (0 + n) with n.
  cbn [setup_down for_each]. unfold bind.
  destruct (setup_at resolveUrl n s) as [[[] s']|]; [apply IH | done].
Qed.

(** [setupMediaPlaylists], lines 186-209. *)
Lemma setupMediaPlaylists_run s :
  ok s ->
  setupMediaPlaylists resolveUrl s =
    Some (tt, touched_all (top_touches (main_uri (doc s)) (top_locs s)) s).
Proof.
  intros Hok. unfold setupMediaPlaylists.
  run (get_main_run s). rewrite setup_down_for_each.
  change (elems (main_playlists (doc s))) with (elems_of s).
  rewrite (ok_top_length _ Hok), <- indexed_fst, <- fmap_reverse, for_each_fmap.
  unfold top_touches.
  apply for_each_touches; try done.
  - intros [i l] s' Hx Hs'. rewrite elem_of_reverse in Hx. apply elem_of_indexed in Hx.
    destruct (ok_top_lookup _ _ _ Hok Hx) as [He Hlt].
    destruct Hs' as (He' & Hu' & _ & Hl'). cbn [fst snd]. rewrite <- Hu'.
    apply setup_at_touch; [by rewrite He' | by rewrite Hl'].
  - apply Forall_forall. intros x _. apply top_benign.
  - apply Forall_forall. intros [i l] Hx.
    rewrite elem_of_reverse in Hx. apply elem_of_indexed in Hx.
    by destruct (ok_top_lookup _ _ _ Hok Hx).
Qed.

(** [resolveMediaGroupUris], lines 217-223. *)
Lemma resolveMediaGroupUris_run s :
  ok s ->
  resolveMediaGroupUris resolveUrl s =
    Some (tt, touched_all (leaf_touches (main_uri (doc s)) (visits (doc s))) s).
Proof.
  intros Hok. unfold resolveMediaGroupUris. rewrite forEachMediaGroup_visits.
  unfold leaf_touches.
  apply for_each_touches; try done.
  - intros v s' _ (_ & Hu & _). rewrite <- Hu. apply resolve_touch.
  - apply Forall_forall. intros x _. apply leaf_benign.
  - apply (ok_leaves _ Hok).
Qed.

(** Lines 310-337, the loop over the nested playlists [ps] of a rendition. *)
Lemma sub_loop_run v ps s :
  ok s -> Forall (fun p => p < length (heap s)) ps ->
  for_each_from
    (setup_sub resolveUrl createGroupID (v_type v) (v_group v) (v_label v)) 0 ps s =
    Some (tt, touched_all (sub_touches v (main_uri (doc s)) ps) s).
Proof using createGroupID_safe.
  intros Hok Hps. rewrite for_each_from_imap. unfold sub_touches.
  change (imap (fun j x => (0 + j, x)) ps) with (indexed ps).
  apply for_each_touches; try done.
  - intros [j p] s' _ (_ & Hu & _). cbn [fst snd]. rewrite <- Hu.
    apply setup_sub_touch.
  - apply Forall_forall. intros x _. by apply sub_benign.
  - apply Forall_forall. intros [j p] Hx. apply elem_of_indexed in Hx.
    rewrite Forall_forall in Hps. apply Hps. by eapply list_elem_of_lookup_2.
Qed.
End loops.

(** ** One rendition descriptor (lines 291-339) *)

(** The test of line 301 on the top-level playlist [o] for the group key
    [g]. *)
Definition audio_match (g : string) (o : object) : bool :=
  match attributes o with
  | Some a => truthy (AUDIO a) && bool_decide (AUDIO a = Some g)
  | None => false
  end.

(** Lines 298-304 as a test: some top-level playlist is in audio group [g]. *)
Definition in_group (h : list object) (es : list (option loc)) (g : string) : bool :=
  existsb (fun e => match e with
                    | Some p => match h !! p with
                                | Some o => audio_match g o
                                | None => false
                                end
                    | None => false
                    end) es.

(** The test of line 293, negated: [playlists] is a non-empty array. *)
Definition populated (o : object) : bool :=
  match playlists o with
  | Some (_ :: _) => true
  | _ => false
  end.

(** The condition under which the callback returns at line 302. *)
Definition suppressed (audioOnly : bool) (v : visit) (s : state) (o : object) : bool :=
  audioOnly && String.eqb (v_type v) "AUDIO" && negb (truthy (uri o)) &&
  in_group (heap s) (elems_of s) (v_group v).

(** Line 307: a copy of the descriptor becomes its only nested playlist. *)
Definition linked (l : loc) (o : object) (s : state) : state :=
  with_heap (<[l := set_playlists o (Some [length (heap s)])]> (heap s ++ [o])) s.

Lemma refs_of_populated o : populated o = false -> refs_of o = [].
Proof. unfold populated, refs_of. by destruct (playlists o) as [[|]|]. Qed.

Lemma linked_ok l o s : ok s -> heap s !! l = Some o -> ok (linked l o s).
Proof.
  intros [H1 H2 H3 H4] Ho. pose proof (lookup_lt_Some _ _ _ Ho) as Hlt.
  assert (Hso : safe_object o).
  { rewrite Forall_forall in H1. apply H1. by eapply list_elem_of_lookup_2. }
  assert (Hco : Forall (fun p => p < length (heap s)) (refs_of o)).
  { rewrite Forall_forall in H2. apply H2. by eapply list_elem_of_lookup_2. }
  split; unfold linked; simpl.
  - apply Forall_insert; [|done]. apply Forall_app. split; [done|]. by constructor.
  - rewrite length_insert, length_app. simpl.
    apply Forall_insert.
    + apply Forall_app. split.
      * eapply Forall_impl; [exact H2|]. intros o' Ho'. simpl in Ho'.
        eapply Forall_impl; [exact Ho'|]. intros p Hp. simpl in Hp. lia.
      * constructor; [|done]. eapply Forall_impl; [exact Hco|]. intros p Hp.
        simpl in Hp. lia.
    + unfold refs_of. simpl. constructor; [lia | done].
  - rewrite length_insert, length_app. simpl.
    eapply Forall_impl; [exact H3|]. intros e (l' & -> & Hl'). exists l'. split; [done | lia].
  - rewrite length_insert, length_app. simpl.
    eapply Forall_impl; [exact H4|]. intros v' Hv'. simpl in Hv'. lia.
Qed.

Section visit.
Variable resolveUrl : option string -> option string -> string.
Variable createGroupID : string -> string -> string -> object -> string.
Hypothesis createGroupID_safe : forall t g l o, safe_key (createGroupID t g l o).

Definition visited (audioOnly : bool) (v : visit) (s : state) : state :=
  match heap s !! v_props v with
  | None => s
  | Some o =>
      if populated o then
        touched_all (sub_touches resolveUrl createGroupID v (main_uri (doc s)) (refs_of o)) s
      else if suppressed audioOnly v s o then s
      else
        touched_all
          (sub_touches resolveUrl createGroupID v (main_uri (doc s)) [length (heap s)])
          (linked (v_props v) o s)
  end.

Lemma in_main_playlists_run s g es :
  Forall (fun e => exists l, e = Some l /\ l < length (heap s)) es ->
  in_main_playlists g es s = Some (in_group (heap s) es g, s).
Proof.
  induction es as [|e es IH]; intros H; [done|].
  inversion H as [|? ? (l & -> & Hlt) H']; subst.
  destruct (lookup_lt_is_Some_2 _ _ Hlt) as [o Ho].
  cbn [in_main_playlists in_group existsb]. rewrite Ho.
  run (load_run _ _ _ Ho). fold (audio_match g o).
  destruct (audio_match g o); [done|]. by apply IH.
Qed.

Lemma link_run l o s :
  heap s !! l = Some o ->
  (p <- alloc o ;; store l (set_playlists o (Some [p])) ;; ret false) s =
    Some (false, linked l o s).
Proof.
  intros Ho.
  rewrite (bind_run _ _ _ (length (heap s)) (with_heap (heap s ++ [o]) s)) by done.
  rewrite (bind_run _ _ _ tt (linked l o s)); [done|].
  apply store_run. simpl. rewrite length_app.
  pose proof (lookup_lt_Some _ _ _ Ho). lia.
Qed.

Lemma add_playlists_run audioOnly v s o :
  ok s -> heap s !! v_props v = Some o ->
  add_playlists audioOnly (v_props v) (v_type v) (v_group v) s =
    Some (if populated o then (false, s)
          else if suppressed audioOnly v s o then (true, s)
          else (false, linked (v_props v) o s)).
Proof.
  intros Hok Ho. unfold add_playlists. run (load_run _ _ _ Ho).
  unfold populated, suppressed.
  assert (Hgen :
    (found <-
       (if audioOnly && String.eqb (v_type v) "AUDIO" && negb (truthy (uri o))
        then main <- get_main ;;
             in_main_playlists (v_group v) (elems (main_playlists main))
        else ret false) ;;
     if found : bool then ret true
     else p <- alloc o ;; store (v_props v) (set_playlists o (Some [p])) ;; ret false) s
    = Some (if audioOnly && String.eqb (v_type v) "AUDIO" && negb (truthy (uri o)) &&
               in_group (heap s) (elems_of s) (v_group v)
            then (true, s) else (false, linked (v_props v) o s))).
  { destruct (audioOnly && String.eqb (v_type v) "AUDIO" && negb (truthy (uri o))).
    - rewrite bind_assoc. run (get_main_run s).
      run (in_main_playlists_run s (v_group v) _ (ok_tops _ Hok)).
      cbn [andb]. fold (elems_of s).
      destruct (in_group (heap s) (elems_of s) (v_group v)); [done|].
      by apply link_run.
    - cbn [andb]. rewrite (bind_run _ _ _ false s) by done. by apply link_run. }
  destruct (playlists o) as [[|p ps]|] eqn:Hp; done.
Qed.

Lemma linked_lookup_self l o s :
  heap s !! l = Some o ->
  heap (linked l o s) !! l = Some (set_playlists o (Some [length (heap s)])).
Proof.
  intros Ho. unfold linked. simpl. apply list_lookup_insert_eq.
  rewrite length_app. pose proof (lookup_lt_Some _ _ _ Ho). lia.
Qed.

(** The callback of [forEachMediaGroup] in [addPropertiesToMain]. *)
Lemma add_group_run audioOnly v s :
  ok s -> v_props v < length (heap s) ->
  add_group resolveUrl createGroupID audioOnly (v_props v) (v_type v) (v_group v)
            (v_label v) s = Some (tt, visited audioOnly v s).
Proof using createGroupID_safe.
  intros Hok Hlt. unfold add_group, visited.
  destruct (lookup_lt_is_Some_2 _ _ Hlt) as [o Ho]. rewrite Ho.
  pose proof (add_playlists_run audioOnly v s o Hok Ho) as Hrun.
  destruct (populated o) eqn:Hpop.
  - run Hrun. run (load_run _ _ _ Ho).
    apply sub_loop_run; [done..|].
    pose proof (ok_closed _ Hok) as Hc. rewrite Forall_forall in Hc.
    apply Hc. by eapply list_elem_of_lookup_2.
  - destruct (suppressed audioOnly v s o).
    + by run Hrun.
    + run Hrun. run (load_run _ _ _ (linked_lookup_self _ _ _ Ho)).
      change (default [] (playlists (set_playlists o (Some [length (heap s)]))))
        with [length (heap s)].
      change (main_uri (doc s)) with (main_uri (doc (linked (v_props v) o s))).
      apply sub_loop_run; [done|by apply linked_ok|].
      constructor; [|done]. unfold linked. simpl.
      rewrite length_insert, length_app. simpl. lia.
Qed.

Lemma visited_ok audioOnly v s : ok s -> ok (visited audioOnly v s).
Proof using createGroupID_safe.
  intros Hok. unfold visited.
  destruct (heap s !! v_props v) as [o|] eqn:Ho; [|done].
  destruct (populated o).
  - apply touched_all_ok; [|done]. apply Forall_forall.
    intros t Ht. apply list_elem_of_fmap in Ht as (x & -> & _). by apply sub_benign.
  - destruct (suppressed audioOnly v s o); [done|].
    apply touched_all_ok; [|by apply linked_ok]. apply Forall_forall.
    intros t Ht. apply list_elem_of_fmap in Ht as (x & -> & _). by apply sub_benign.
Qed.

Lemma visited_frame audioOnly v s :
  elems_of (visited audioOnly v s) = elems_of s /\
  main_uri (doc (visited audioOnly v s)) = main_uri (doc s) /\
  mediaGroups (doc (visited audioOnly v s)) = mediaGroups (doc s) /\
  length (heap s) <= length (heap (visited audioOnly v s)).
Proof.
  unfold visited.
  destruct (heap s !! v_props v) as [o|] eqn:Ho; [|done].
  destruct (populated o).
  - by rewrite touched_all_elems, touched_all_main_uri, touched_all_mediaGroups,
               touched_all_length.
  - destruct (suppressed audioOnly v s o); [done|].
    rewrite touched_all_elems, touched_all_main_uri, touched_all_mediaGroups,
            touched_all_length.
    unfold linked. simpl. rewrite length_insert, length_app. simpl.
    repeat split; lia.
Qed.

Definition visited_all (audioOnly : bool) (vs : list visit) (s : state) : state :=
  foldl (fun s v => visited audioOnly v s) s vs.

Lemma visited_all_ok audioOnly vs s : ok s -> ok (visited_all audioOnly vs s).
Proof using createGroupID_safe.
  revert s. induction vs as [|v vs IH]; intros s Hok; [done|].
  apply IH. by apply visited_ok.
Qed.

Lemma visited_all_frame audioOnly vs s :
  elems_of (visited_all audioOnly vs s) = elems_of s /\
  main_uri (doc (visited_all audioOnly vs s)) = main_uri (doc s) /\
  mediaGroups (doc (visited_all audioOnly vs s)) = mediaGroups (doc s) /\
  length (heap s) <= length (heap (visited_all audioOnly vs s)).
Proof.
  revert s. induction vs as [|v vs IH]; intros s; [done|].
  cbn [visited_all foldl]. fold (visited_all audioOnly vs (visited audioOnly v s)).
  destruct (IH (visited audioOnly v s)) as (-> & -> & -> & Hlen).
  destruct (visited_frame audioOnly v s) as (-> & -> & -> & Hlen').
  repeat split; lia.
Qed.

Lemma for_each_visits audioOnly vs s :
  ok s -> Forall (fun v => v_props v < length (heap s)) vs ->
  for_each (fun v => add_group resolveUrl createGroupID audioOnly (v_props v) (v_type v)
                               (v_group v) (v_label v)) vs s =
    Some (tt, visited_all audioOnly vs s).
Proof using createGroupID_safe.
  revert s. induction vs as [|v vs IH]; intros s Hok Hv; [done|].
  inversion Hv; subst. cbn [for_each].
  run (add_group_run audioOnly v s Hok ltac:(done)).
  apply IH; [by apply visited_ok|].
  eapply Forall_impl; [eassumption|]. intros v' Hv'. simpl in Hv'.
  destruct (visited_frame audioOnly v s) as (_ & _ & _ & Hlen). lia.
Qed.

(** The whole of [addPropertiesToMain] as a function of the state. *)
Definition normalized (isAudioOnly : list object -> main -> bool) (base : string)
    (s : state) : state :=
  let s1 := touched_all (phony_touches (top_locs s)) (with_uri base s) in
  let s2 := visited_all (isAudioOnly (heap s1) (doc s1)) (visits (doc s1)) s1 in
  let s3 := touched_all (top_touches resolveUrl (main_uri (doc s2)) (top_locs s2)) s2 in
  touched_all (leaf_touches resolveUrl (main_uri (doc s3)) (visits (doc s3))) s3.
End visit.

Section run.
Variable resolveUrl : option string -> option string -> string.
Variable isAudioOnly : list object -> main -> bool.

Definition safe_ids (createGroupID : string -> string -> string -> object -> string)
  : Prop :=
  forall t g l o, safe_key (createGroupID t g l o).

Lemma groupID_safe_ids : safe_ids groupID.
Proof. intros t g l o. apply groupID_safe. Qed.

(** [addPropertiesToMain] returns, and its effect is [normalized], on
    every state whose keys are safe and whose references point into the
    heap. *)
Lemma addPropertiesToMain_run base createGroupID s :
  safe_ids (default groupID createGroupID) -> ok s ->
  addPropertiesToMain resolveUrl isAudioOnly base createGroupID s =
    Some (tt, normalized resolveUrl (default groupID createGroupID) isAudioOnly base s).
Proof.
  intros Hcg Hok. unfold addPropertiesToMain, normalized. cbv zeta.
  run (add_placeholders_run base s Hok).
  set (s1 := touched_all (phony_touches (top_locs s)) (with_uri base s)).
  assert (Hok1 : ok s1).
  { apply touched_all_ok; [|by apply with_uri_ok]. apply Forall_forall.
    intros t Ht. apply list_elem_of_fmap in Ht as (x & -> & _). apply phony_benign. }
  rewrite (bind_run _ _ _ (isAudioOnly (heap s1) (doc s1)) s1) by done.
  assert (Hg : forEachMediaGroup
                 (add_group resolveUrl (default groupID createGroupID)
                            (isAudioOnly (heap s1) (doc s1))) s1 =
               Some (tt, visited_all resolveUrl (default groupID createGroupID)
                           (isAudioOnly (heap s1) (doc s1)) (visits (doc s1)) s1)).
  { rewrite forEachMediaGroup_visits.
    apply for_each_visits; [done..|]. apply (ok_leaves _ Hok1). }
  run Hg.
  set (s2 := visited_all resolveUrl _ _ _ s1).
  assert (Hok2 : ok s2) by by apply visited_all_ok.
  run (setupMediaPlaylists_run resolveUrl s2 Hok2).
  set (s3 := touched_all _ s2).
  assert (Hok3 : ok s3).
  { apply touched_all_ok; [|done]. apply Forall_forall.
    intros t Ht. apply list_elem_of_fmap in Ht as (x & -> & _). apply top_benign. }
  by rewrite (resolveMediaGroupUris_run resolveUrl s3 Hok3).
Qed.
End run.

(** ** Documents without sharing

    A parsed document is a tree: no object is at once a top-level playlist,
    a rendition descriptor or a nested playlist, and none is listed twice. *)

(** The rendition descriptors, and the nested playlists of one and of all
    of them. *)
Definition leaf_locs (s : state) : list loc := v_props <$> visits (doc s).

Definition nested (h : list object) (l : loc) : list loc :=
  match h !! l with
  | Some o => refs_of o
  | None => []
  end.

Definition nested_locs (s : state) : list loc := leaf_locs s ≫= nested (heap s).

Definition tree_shaped (s : state) : Prop :=
  NoDup (top_locs s ++ leaf_locs s ++ nested_locs s).

(** What the nested playlists of a rendition are registered under. *)
Definition leaf_entries (h : list object) (l : loc) : list (string * loc) :=
  nested h l ≫= entries_of h.

Lemma nested_lookup h l o : h !! l = Some o -> nested h l = refs_of o.
Proof. unfold nested. by intros ->. Qed.

Lemma nested_ext h h' l : h' !! l = h !! l -> nested h' l = nested h l.
Proof. unfold nested. by intros ->. Qed.

Lemma entries_of_ext h h' l : h' !! l = h !! l -> entries_of h' l = entries_of h l.
Proof. unfold entries_of. by intros ->. Qed.

Lemma leaf_entries_ext h h' l :
  h' !! l = h !! l -> (forall p, p ∈ nested h l -> h' !! p = h !! p) ->
  leaf_entries h' l = leaf_entries h l.
Proof.
  intros Hl Hp. unfold leaf_entries. rewrite (nested_ext _ _ _ Hl).
  induction (nested h l) as [|p ps IH]; [done|].
  rewrite !bind_cons. f_equal.
  - apply entries_of_ext, Hp. by left.
  - apply IH. intros q Hq. apply Hp. by right.
Qed.

Lemma in_group_ext h h' es g :
  (forall l, Some l ∈ es -> h' !! l = h !! l) -> in_group h' es g = in_group h es g.
Proof.
  intros H. unfold in_group. induction es as [|e es IH]; [done|].
  cbn [existsb]. rewrite IH by (intros l Hl; apply H; by right).
  destruct e as [l|]; [|done]. rewrite H by by left. done.
Qed.

Lemma touched_all_nested ts s l :
  Forall benign ts -> nested (heap (touched_all ts s)) l = nested (heap s) l.
Proof.
  revert s. induction ts as [|t ts IH]; intros s Hb; [done|].
  inversion Hb as [|? ? [Hpl _] Hb']; subst.
  cbn [touched_all foldl]. fold (touched_all ts (touched t s)). rewrite IH by done.
  unfold nested. rewrite touched_lookup. case_decide as E; [|done].
  subst l. destruct (heap s !! t_loc t); [|done]. simpl. unfold refs_of. by rewrite Hpl.
Qed.

Lemma registered_all_reg h ts :
  Forall (fun t => t_reg t = true) ts -> registered h ts = (t_loc <$> ts) ≫= entries_of h.
Proof.
  induction ts as [|t ts IH]; intros H; [done|].
  inversion H as [|? ? Ht H']; subst.
  rewrite registered_cons, fmap_cons, bind_cons, Ht. f_equal. by apply IH.
Qed.


Lemma elem_of_top_locs s l : l ∈ top_locs s <-> Some l ∈ elems_of s.
Proof. unfold top_locs. rewrite list_elem_of_omap. split; [by intros ([x|] & H & [= ->]) | eauto]. Qed.

Section shape.
Variable resolveUrl : option string -> option string -> string.
Variable createGroupID : string -> string -> string -> object -> string.
Hypothesis createGroupID_safe : forall t g l o, safe_key (createGroupID t g l o).

#[local] Abbreviation sub_of := (sub_of resolveUrl createGroupID).
#[local] Abbreviation sub_touches := (sub_touches resolveUrl createGroupID).
#[local] Abbreviation visited := (visited resolveUrl createGroupID).
#[local] Abbreviation visited_all := (visited_all resolveUrl createGroupID).

Lemma sub_touches_reg v base ps : Forall (fun t => t_reg t = true) (sub_touches v base ps).
Proof.
  apply Forall_forall. intros t Ht. by apply list_elem_of_fmap in Ht as (x & -> & _).
Qed.

Lemma sub_touches_elem v base ps j p :
  ps !! j = Some p -> sub_touch resolveUrl createGroupID v base j p ∈ sub_touches v base ps.
Proof.
  intros H. apply list_elem_of_fmap. exists (j, p).
  split; [done | by apply elem_of_indexed].
Qed.

(** What one visit does, when the nested playlists of the rendition are
    distinct objects, other than the rendition itself. *)
Lemma visited_facts audioOnly v s o :
  ok s -> heap s !! v_props v = Some o ->
  NoDup (refs_of o) -> v_props v ∉ refs_of o ->
  let s' := visited audioOnly v s in
  let base := main_uri (doc s) in
  (forall x, x < length (heap s) -> x <> v_props v -> x ∉ refs_of o ->
             heap s' !! x = heap s !! x) /\
  (if populated o then
     heap s' !! v_props v = Some o /\
     forall j p, refs_of o !! j = Some p -> heap s' !! p = sub_of v base j <$> heap s !! p
   else if suppressed audioOnly v s o then s' = s
   else
     heap s' !! v_props v = Some (set_playlists o (Some [length (heap s)])) /\
     heap s' !! length (heap s) = Some (sub_of v base 0 o) /\
     length (heap s') = S (length (heap s))) /\
  named_of s' = register_all (leaf_entries (heap s') (v_props v)) (named_of s).
Proof using createGroupID_safe.
  intros Hok Ho Hnd Hnin s' base. subst s' base. unfold visited. rewrite Ho.
  set (base := main_uri (doc s)).
  pose proof (lookup_lt_Some _ _ _ Ho) as Hlt.
  assert (Hvalid : Forall (fun p => p < length (heap s)) (refs_of o)).
  { pose proof (ok_closed _ Hok) as Hc. rewrite Forall_forall in Hc.
    apply Hc. by eapply list_elem_of_lookup_2. }
  destruct (populated o) eqn:Hpop.
  - (* the rendition already has nested playlists *)
    assert (Hself : heap (touched_all (sub_touches v base (refs_of o)) s) !! v_props v
                    = Some o).
    { rewrite touched_all_frame; [done|]. by rewrite sub_touches_locs. }
    split; [|split; [split|]].
    + intros x _ _ Hx. rewrite touched_all_frame; [done|]. by rewrite sub_touches_locs.
    + done.
    + intros j p Hp.
      apply (touched_all_lookup _ s (sub_touch resolveUrl createGroupID v base j p)).
      * by rewrite sub_touches_locs.
      * by apply sub_touches_elem.
    + rewrite touched_all_named.
      * rewrite registered_all_reg by apply sub_touches_reg.
        rewrite sub_touches_locs. unfold leaf_entries.
        by rewrite (nested_lookup _ _ _ Hself).
      * by rewrite sub_touches_locs.
      * apply Forall_forall. intros t Ht.
        apply list_elem_of_fmap in Ht as ([j p] & -> & Hx). apply elem_of_indexed in Hx.
        rewrite Forall_forall in Hvalid. apply Hvalid. by eapply list_elem_of_lookup_2.
  - destruct (suppressed audioOnly v s o) eqn:Hsup.
    + (* the callback returned early *)
      split; [done|]. split; [done|].
      unfold leaf_entries. rewrite (nested_lookup _ _ _ Ho).
      by rewrite (refs_of_populated _ Hpop).
    + (* a copy of the rendition becomes its nested playlist *)
      set (p := length (heap s)).
      set (s1 := linked (v_props v) o s).
      assert (Hlen1 : length (heap s1) = S p).
      { subst s1. unfold linked. simpl. rewrite length_insert, length_app. simpl. lia. }
      assert (Hp1 : heap s1 !! p = Some o).
      { subst s1. unfold linked. simpl. rewrite list_lookup_insert_ne by lia.
        rewrite lookup_app_r by done. by rewrite Nat.sub_diag. }
      assert (Hself1 : heap s1 !! v_props v = Some (set_playlists o (Some [p]))).
      { by apply linked_lookup_self. }
      assert (Hframe1 : forall x, x < p -> x <> v_props v -> heap s1 !! x = heap s !! x).
      { intros x Hx Hne. subst s1. unfold linked. simpl.
        rewrite list_lookup_insert_ne by done. by rewrite lookup_app_l. }
      change (main_uri (doc s1)) with base.
      assert (Hlocs : t_loc <$> sub_touches v base [p] = [p]) by apply sub_touches_locs.
      assert (Hself : heap (touched_all (sub_touches v base [p]) s1) !! v_props v
                      = Some (set_playlists o (Some [p]))).
      { rewrite touched_all_frame; [done|]. rewrite Hlocs.
        rewrite list_elem_of_singleton. lia. }
      split; [|split; [split; [|split]|]].
      * intros x Hx Hne _. rewrite touched_all_frame.
        -- by apply Hframe1.
        -- rewrite Hlocs, list_elem_of_singleton. lia.
      * done.
      * rewrite (touched_all_lookup _ s1 (sub_touch resolveUrl createGroupID v base 0 p)).
        -- cbn [sub_touch t_loc t_fun]. by rewrite Hp1.
        -- rewrite Hlocs. apply NoDup_singleton.
        -- by apply sub_touches_elem.
      * by rewrite touched_all_length.
      * rewrite touched_all_named.
        -- rewrite registered_all_reg by apply sub_touches_reg.
           rewrite Hlocs. unfold leaf_entries.
           by rewrite (nested_lookup _ _ _ Hself).
        -- rewrite Hlocs. apply NoDup_singleton.
        -- apply Forall_forall. intros t Ht.
           apply (list_elem_of_fmap_2 t_loc) in Ht. rewrite Hlocs in Ht.
           apply list_elem_of_singleton in Ht. rewrite Ht, Hlen1. lia.
Qed.
End shape.

(** ** All rendition descriptors *)

Definition footprint (h : list object) (ls : list loc) : list loc := ls ++ (ls ≫= nested h).

Lemma list_bind_ext {A B : Type} (f g : A -> list B) (l : list A) :
  (forall x, x ∈ l -> f x = g x) -> l ≫= f = l ≫= g.
Proof.
  induction l as [|x l IH]; intros H; [done|].
  rewrite !bind_cons. f_equal.
  - apply H. by left.
  - apply IH. intros y Hy. apply H. by right.
Qed.

Lemma nested_valid s l p : ok s -> p ∈ nested (heap s) l -> p < length (heap s).
Proof.
  intros Hok. unfold nested. destruct (heap s !! l) as [o|] eqn:Ho; [|by inversion 1].
  pose proof (ok_closed _ Hok) as Hc. rewrite Forall_forall in Hc.
  specialize (Hc o (list_elem_of_lookup_2 _ _ _ Ho)). rewrite Forall_forall in Hc. apply Hc.
Qed.

Lemma footprint_valid s ls x :
  ok s -> Forall (fun l => l < length (heap s)) ls -> x ∈ footprint (heap s) ls ->
  x < length (heap s).
Proof.
  intros Hok Hls. unfold footprint. rewrite elem_of_app, list_elem_of_bind.
  intros [Hx|(l & Hx & Hl)].
  - rewrite Forall_forall in Hls. by apply Hls.
  - by eapply nested_valid.
Qed.

Lemma footprint_cons h l ls :
  NoDup (footprint h (l :: ls)) ->
  NoDup (nested h l) /\ (l ∉ nested h l) /\ (l ∉ footprint h ls) /\
  (forall p, p ∈ nested h l -> p ∉ footprint h ls) /\ NoDup (footprint h ls).
Proof.
  unfold footprint. rewrite bind_cons.
  intros H. apply NoDup_app in H as (Hls & Hdis & Hn).
  apply NoDup_cons in Hls as [Hl Hls].
  apply NoDup_app in Hn as (Hnl & Hdis' & Hrest).
  split; [done|]. split.
  { intros Hin. apply (Hdis l); [by left|]. apply elem_of_app. by left. }
  split.
  { rewrite elem_of_app. intros [Hin|Hin]; [done|].
    apply (Hdis l); [by left|]. apply elem_of_app. by right. }
  split.
  { intros p Hp. rewrite elem_of_app. intros [Hin|Hin].
    - apply (Hdis p); [by right|]. apply elem_of_app. by left.
    - by apply (Hdis' p). }
  apply NoDup_app. split; [done|]. split; [|done].
  intros x Hx Hin. apply (Hdis x); [by right|]. apply elem_of_app. by right.
Qed.

Lemma footprint_ext h h' ls :
  (forall l, l ∈ ls -> h' !! l = h !! l) -> footprint h' ls = footprint h ls.
Proof.
  intros H. unfold footprint. f_equal. apply list_bind_ext.
  intros l Hl. by apply nested_ext, H.
Qed.

Section group.
Variable resolveUrl : option string -> option string -> string.
Variable createGroupID : string -> string -> string -> object -> string.
Hypothesis createGroupID_safe : forall t g l o, safe_key (createGroupID t g l o).

#[local] Abbreviation sub_of := (sub_of resolveUrl createGroupID).
#[local] Abbreviation visited := (visited resolveUrl createGroupID).
#[local] Abbreviation visited_all := (visited_all resolveUrl createGroupID).

(** What a visit leaves at a rendition [v] whose object was [o], in terms
    of the state [s] before all visits and the state [s'] after them. *)
Definition visit_outcome (audioOnly : bool) (s s' : state) (v : visit) (o : object)
  : Prop :=
  if populated o then
    heap s' !! v_props v = Some o /\
    forall j p, refs_of o !! j = Some p ->
                heap s' !! p = sub_of v (main_uri (doc s)) j <$> heap s !! p
  else if suppressed audioOnly v s o then heap s' !! v_props v = Some o
  else exists p, length (heap s) <= p /\
                 heap s' !! v_props v = Some (set_playlists o (Some [p])) /\
                 heap s' !! p = Some (sub_of v (main_uri (doc s)) 0 o).

Lemma visited_nested audioOnly v s o p :
  ok s -> heap s !! v_props v = Some o -> NoDup (refs_of o) -> v_props v ∉ refs_of o ->
  p ∈ nested (heap (visited audioOnly v s)) (v_props v) ->
  p ∈ refs_of o \/ p = length (heap s).
Proof using createGroupID_safe.
  intros Hok Ho Hnd Hnin.
  destruct (visited_facts resolveUrl createGroupID createGroupID_safe audioOnly v s o
              Hok Ho Hnd Hnin) as (_ & Hcase & _).
  destruct (populated o).
  - destruct Hcase as [Hself _]. rewrite (nested_lookup _ _ _ Hself). by left.
  - destruct (suppressed audioOnly v s o).
    + rewrite Hcase, (nested_lookup _ _ _ Ho). by left.
    + destruct Hcase as (Hself & _). rewrite (nested_lookup _ _ _ Hself).
      unfold refs_of. simpl. rewrite list_elem_of_singleton. by right.
Qed.

Lemma visited_all_facts audioOnly vs s :
  ok s -> Forall (fun v => v_props v < length (heap s)) vs ->
  NoDup (footprint (heap s) (v_props <$> vs)) ->
  (forall x, x ∈ top_locs s -> x ∉ footprint (heap s) (v_props <$> vs)) ->
  let s' := visited_all audioOnly vs s in
  (forall x, x < length (heap s) -> x ∉ footprint (heap s) (v_props <$> vs) ->
             heap s' !! x = heap s !! x) /\
  (forall v o, v ∈ vs -> heap s !! v_props v = Some o ->
               visit_outcome audioOnly s s' v o) /\
  named_of s' =
    register_all ((v_props <$> vs) ≫= leaf_entries (heap s')) (named_of s).
Proof using createGroupID_safe.
  revert s. induction vs as [|v vs IH]; intros s Hok Hvalid Hnd Htops s'.
  { subst s'. split; [done|]. split; [|done]. intros v o Hv. by inversion Hv. }
  subst s'. cbn [visited_all foldl].
  change (foldl (fun s v => visited audioOnly v s) (visited audioOnly v s) vs)
    with (visited_all audioOnly vs (visited audioOnly v s)).
  set (s1 := visited audioOnly v s).
  set (s' := visited_all audioOnly vs s1).
  rewrite !fmap_cons in Hnd, Htops |- *.
  inversion Hvalid as [|? ? Hlt Hvalid']; subst.
  destruct (lookup_lt_is_Some_2 _ _ Hlt) as [o Ho].
  destruct (footprint_cons _ _ _ Hnd) as (Hnd_o & Hself_o & Hl_fp & Ho_fp & Hnd').
  rewrite (nested_lookup _ _ _ Ho) in Hnd_o, Hself_o, Ho_fp.
  destruct (visited_facts resolveUrl createGroupID createGroupID_safe audioOnly v s o
              Hok Ho Hnd_o Hself_o) as (V1 & V2 & V4).
  fold s1 in V1, V2, V4.
  pose proof (visited_ok resolveUrl createGroupID createGroupID_safe audioOnly v s Hok)
    as Hok1.
  fold s1 in Hok1.
  destruct (visited_frame resolveUrl createGroupID audioOnly v s)
    as (He1 & Hu1 & Hm1 & Hlen1).
  fold s1 in He1, Hu1, Hm1, Hlen1.
  assert (Hls_valid : Forall (fun l => l < length (heap s)) (v_props <$> vs)).
  { by apply Forall_fmap. }
  (* the remaining renditions and their nested playlists are untouched *)
  assert (Hfp_valid : forall x, x ∈ footprint (heap s) (v_props <$> vs) ->
                                x < length (heap s)).
  { intros x. by apply footprint_valid. }
  assert (Hkeep : forall x, x ∈ footprint (heap s) (v_props <$> vs) ->
                            heap s1 !! x = heap s !! x).
  { intros x Hx. apply V1; [by apply Hfp_valid | |].
    - intros ->. done.
    - intros Hin. by apply (Ho_fp x). }
  assert (Hfp1 : footprint (heap s1) (v_props <$> vs) = footprint (heap s) (v_props <$> vs)).
  { apply footprint_ext. intros l Hl. apply Hkeep. unfold footprint.
    apply elem_of_app. by left. }
  assert (Htop_keep : forall x, x ∈ top_locs s -> heap s1 !! x = heap s !! x).
  { intros x Hx. pose proof (Htops x Hx) as Hnin.
    apply V1.
    - apply elem_of_top_locs in Hx. pose proof (ok_tops _ Hok) as Ht.
      rewrite Forall_forall in Ht. destruct (Ht _ Hx) as (l' & [= <-] & Hl'). done.
    - intros ->. apply Hnin. unfold footprint. apply elem_of_app. left. by left.
    - intros Hin. apply Hnin. unfold footprint. apply elem_of_app. right.
      rewrite bind_cons, (nested_lookup _ _ _ Ho). apply elem_of_app. by left. }
  assert (Htops1 : top_locs s1 = top_locs s).
  { unfold top_locs. by rewrite He1. }
  destruct (IH s1) as (G1 & G2 & G3).
  { done. }
  { eapply Forall_impl; [exact Hvalid'|]. intros v' Hv'. simpl in Hv'. lia. }
  { by rewrite Hfp1. }
  { rewrite Htops1, Hfp1. intros x Hx Hin. apply (Htops x Hx).
    unfold footprint in *. rewrite bind_cons.
    apply elem_of_app in Hin as [Hin|Hin]; apply elem_of_app.
    - left. by right.
    - right. apply elem_of_app. by right. }
  fold s' in G1, G2, G3.
  (* what the first visit wrote is not touched by the later ones *)
  assert (Hlate : forall x, x < length (heap s1) ->
                            x ∉ footprint (heap s) (v_props <$> vs) ->
                            heap s' !! x = heap s1 !! x).
  { intros x Hx Hnin. apply G1; [done | by rewrite Hfp1]. }
  assert (Hfresh : length (heap s) ∉ footprint (heap s) (v_props <$> vs)).
  { intros Hin. apply Hfp_valid in Hin. lia. }
  split; [|split].
  - (* frame *)
    intros x Hx Hnin.
    assert (x <> v_props v) as Hne.
    { intros ->. apply Hnin. unfold footprint. apply elem_of_app. left. by left. }
    assert (x ∉ refs_of o) as Hno.
    { intros Hin. apply Hnin. unfold footprint. apply elem_of_app. right.
      rewrite bind_cons, (nested_lookup _ _ _ Ho). apply elem_of_app. by left. }
    assert (x ∉ footprint (heap s) (v_props <$> vs)) as Hnf.
    { intros Hin. apply Hnin. unfold footprint in *. rewrite bind_cons.
      apply elem_of_app in Hin as [Hin|Hin]; apply elem_of_app.
      - left. by right.
      - right. apply elem_of_app. by right. }
    rewrite Hlate by (done || lia). by apply V1.
  - (* outcome of each visit *)
    intros v0 o0 Hv0 Ho0. apply elem_of_cons in Hv0 as [->|Hv0].
    + assert (o0 = o) as -> by congruence.
      unfold visit_outcome. destruct (populated o) eqn:Hpop.
      * destruct V2 as [Hself Hsub]. split.
        -- rewrite Hlate; [done | lia | done].
        -- intros j p Hp. rewrite <- (Hsub j p Hp).
           assert (p ∈ refs_of o) as Hin by by eapply list_elem_of_lookup_2.
           apply Hlate; [|by apply Ho_fp].
           pose proof (ok_closed _ Hok) as Hc. rewrite Forall_forall in Hc.
           specialize (Hc o (list_elem_of_lookup_2 _ _ _ Ho)).
           rewrite Forall_forall in Hc. specialize (Hc p Hin). simpl in Hc. lia.
      * destruct (suppressed audioOnly v s o) eqn:Hsup.
        -- rewrite Hlate; [by rewrite V2 | lia | done].
        -- destruct V2 as (Hself & Hcopy & Hlen).
           exists (length (heap s)). split; [done|]. split.
           ++ rewrite Hlate; [done | lia | done].
           ++ rewrite Hlate; [done | lia | done].
    + assert (Hin0 : v_props v0 ∈ footprint (heap s) (v_props <$> vs)).
      { unfold footprint. apply elem_of_app. left. by apply list_elem_of_fmap_2. }
      assert (Ho1 : heap s1 !! v_props v0 = Some o0) by by rewrite Hkeep.
      specialize (G2 v0 o0 Hv0 Ho1). unfold visit_outcome in *.
      rewrite Hu1 in G2.
      assert (Hsup : suppressed audioOnly v0 s1 o0 = suppressed audioOnly v0 s o0).
      { unfold suppressed. f_equal. rewrite He1. apply in_group_ext.
        intros l Hl. apply Htop_keep. by apply elem_of_top_locs. }
      rewrite Hsup in G2.
      destruct (populated o0).
      * destruct G2 as [Hself Hsub]. split; [done|].
        intros j p Hp. rewrite (Hsub j p Hp). f_equal. apply Hkeep.
        unfold footprint. apply elem_of_app. right. apply list_elem_of_bind.
        exists (v_props v0). split; [|by apply list_elem_of_fmap_2].
        rewrite (nested_lookup _ _ _ Ho0). by eapply list_elem_of_lookup_2.
      * destruct (suppressed audioOnly v0 s o0); [done|].
        destruct G2 as (p & Hp & Hself & Hcopy). exists p. split; [lia | done].
  - (* named properties *)
    rewrite G3, V4, bind_cons, register_all_app. do 2 f_equal.
    symmetry. apply leaf_entries_ext.
    + apply Hlate; [lia | done].
    + intros p Hp.
      pose proof (nested_valid _ _ _ Hok1 Hp) as Hp1.
      apply Hlate; [done|].
      destruct (visited_nested audioOnly v s o p Hok Ho Hnd_o Hself_o Hp) as [Hin| ->].
      * by apply Ho_fp.
      * done.
Qed.
End group.

(** ** The normalised document *)

Lemma tree_shaped_parts s :
  tree_shaped s ->
  NoDup (top_locs s) /\ NoDup (footprint (heap s) (leaf_locs s)) /\
  (forall x, x ∈ top_locs s -> x ∉ footprint (heap s) (leaf_locs s)).
Proof.
  unfold tree_shaped, footprint, nested_locs. intros H.
  apply NoDup_app in H as (H1 & H2 & H3). done.
Qed.


Lemma dashed_truthy (k : string) : has_char dash k = true -> truthy (Some k) = true.
Proof. by destruct k. Qed.

Lemma createPlaylistID_truthy i u : truthy (Some (createPlaylistID i u)) = true.
Proof.
  apply dashed_truthy. unfold createPlaylistID.
  rewrite has_char_app. apply orb_true_iff. by right.
Qed.

Section objects.
Variable resolveUrl : option string -> option string -> string.
Variable createGroupID : string -> string -> string -> object -> string.

#[local] Abbreviation sub := (sub_of resolveUrl createGroupID).
#[local] Abbreviation setup := (top_setup resolveUrl).
#[local] Abbreviation resolve := (resolved resolveUrl).

Lemma phony_truthy i o : truthy (uri (phony i o)) = true.
Proof. unfold phony. by destruct (truthy (uri o)) eqn:E. Qed.


Lemma phony_audio_match g i o : audio_match g (phony i o) = audio_match g o.
Proof. unfold phony. by destruct (truthy (uri o)). Qed.

Lemma top_setup_uri base i o : uri (setup base i o) = uri o.
Proof. done. Qed.

Lemma top_setup_id base i o : id (setup base i o) = Some (createPlaylistID i (uri o)).
Proof. done. Qed.

Lemma top_setup_settled base i o : setup base i (setup base i o) = setup base i o.
Proof. unfold top_setup, media_playlist. simpl. by destruct (attributes o). Qed.


Lemma resolved_settled base o : resolve base (resolve base o) = resolve base o.
Proof.
  unfold resolved. destruct (truthy (uri o)) eqn:E; simpl; by rewrite E.
Qed.

Lemma resolved_refs base o : refs_of (resolve base o) = refs_of o.
Proof. unfold resolved. by destruct (truthy (uri o)). Qed.

Lemma resolved_falsy base o : truthy (uri o) = false -> resolve base o = o.
Proof. unfold resolved. by intros ->. Qed.

Lemma resolved_populated base o : populated (resolve base o) = populated o.
Proof. unfold resolved. by destruct (truthy (uri o)). Qed.

Lemma sub_of_id_truthy v base j o : truthy (id (sub v base j o)) = true.
Proof.
  unfold sub_of, sub_playlist, or_else.
  destruct (truthy (uri o)); simpl; destruct (truthy (id o)) eqn:E;
    first [done | apply createPlaylistID_truthy].
Qed.

(** An id the sub-playlist already has is kept (line 328). *)
Lemma sub_of_id_kept v base j o : truthy (id o) = true -> id (sub v base j o) = id o.
Proof.
  intros H. unfold sub_of, sub_playlist, or_else.
  destruct (truthy (uri o)); simpl; by rewrite H.
Qed.




Lemma sub_of_uri_kept v base j o : truthy (uri o) = true -> uri (sub v base j o) = uri o.
Proof. intros H. unfold sub_of, sub_playlist. by rewrite H. Qed.

Lemma sub_of_resolvedUri v base j o :
  resolvedUri (sub v base j o) =
    if truthy (uri o)
    then or_else (resolvedUri o) (Some (resolveUrl base (uri o)))
    else uri (sub v base j o).
Proof. unfold sub_of, sub_playlist. by destruct (truthy (uri o)). Qed.

(** Lines 316-326 for a sub-playlist without a uri of its own. *)
Lemma sub_of_uri_placeholder v base j o :
  truthy (uri o) = false ->
  uri (sub v base j o) =
    Some (if decide (j = 0)
          then createGroupID (v_type v) (v_group v) (v_label v) o
          else createPlaylistID j
                 (Some (createGroupID (v_type v) (v_group v) (v_label v) o))).
Proof. intros H. unfold sub_of, sub_playlist. by rewrite H. Qed.

Lemma sub_of_attributes v base j o :
  attributes (sub v base j o) = Some (default no_attrs (attributes o)).
Proof. unfold sub_of, sub_playlist. by destruct (truthy (uri o)). Qed.


End objects.

Lemma touched_all_named_none ts s :
  Forall (fun t => t_reg t = false) ts -> named_of (touched_all ts s) = named_of s.
Proof.
  revert s. induction ts as [|t ts IH]; intros s H; [done|].
  inversion H as [|? ? Ht H']; subst.
  cbn [touched_all foldl]. fold (touched_all ts (touched t s)).
  rewrite IH by done. rewrite touched_named. rewrite Ht. by destruct (heap s !! t_loc t).
Qed.

Lemma NoDup_reverse {A : Type} (l : list A) : NoDup l -> NoDup (reverse l).
Proof. by rewrite reverse_Permutation. Qed.

Lemma in_group_match h h' es g :
  (forall l, Some l ∈ es -> audio_match g <$> h' !! l = audio_match g <$> h !! l) ->
  in_group h' es g = in_group h es g.
Proof.
  intros H. unfold in_group. induction es as [|e es IH]; [done|].
  cbn [existsb]. rewrite IH by (intros l Hl; apply H; by right).
  destruct e as [l|]; [|done].
  assert (Hl : audio_match g <$> h' !! l = audio_match g <$> h !! l).
  { apply H. by left. }
  destruct (h' !! l), (h !! l); simpl in Hl; simplify_eq; try done.
  by rewrite Hl.
Qed.

(** The states between the four passes of [addPropertiesToMain]. *)
Definition prepared (base : string) (s : state) : state :=
  touched_all (phony_touches (top_locs s)) (with_uri base s).

Section phases.
Variable resolveUrl : option string -> option string -> string.
Variable createGroupID : string -> string -> string -> object -> string.
Hypothesis createGroupID_safe : forall t g l o, safe_key (createGroupID t g l o).

#[local] Abbreviation sub := (sub_of resolveUrl createGroupID).
#[local] Abbreviation setup := (top_setup resolveUrl).
#[local] Abbreviation resolve := (resolved resolveUrl).

Lemma phony_touches_benign tops : Forall benign (phony_touches tops).
Proof.
  apply Forall_forall. intros t Ht.
  apply list_elem_of_fmap in Ht as (x & -> & _). apply phony_benign.
Qed.

Lemma top_touches_benign base tops : Forall benign (top_touches resolveUrl base tops).
Proof.
  apply Forall_forall. intros t Ht.
  apply list_elem_of_fmap in Ht as (x & -> & _). apply top_benign.
Qed.

Lemma leaf_touches_benign base vs : Forall benign (leaf_touches resolveUrl base vs).
Proof.
  apply Forall_forall. intros t Ht.
  apply list_elem_of_fmap in Ht as (x & -> & _). apply leaf_benign.
Qed.

(** Lines 277-288. *)
Lemma prepared_facts base s :
  ok s -> NoDup (top_locs s) ->
  let s1 := prepared base s in
  ok s1 /\ elems_of s1 = elems_of s /\ main_uri (doc s1) = Some base /\
  mediaGroups (doc s1) = mediaGroups (doc s) /\ length (heap s1) = length (heap s) /\
  named_of s1 = named_of s /\
  (forall i l, top_locs s !! i = Some l -> heap s1 !! l = phony i <$> heap s !! l) /\
  (forall x, x ∉ top_locs s -> heap s1 !! x = heap s !! x) /\
  (forall l, nested (heap s1) l = nested (heap s) l).
Proof.
  intros Hok Hnd s1. subst s1. unfold prepared.
  split. { apply touched_all_ok; [apply phony_touches_benign | by apply with_uri_ok]. }
  rewrite touched_all_elems, touched_all_main_uri, touched_all_mediaGroups,
          touched_all_length.
  do 4 (split; [done|]).
  split.
  { rewrite touched_all_named_none; [done|]. apply Forall_forall. intros t Ht.
    by apply list_elem_of_fmap in Ht as (x & -> & _). }
  split.
  { intros i l Hl.
    apply (touched_all_lookup _ (with_uri base s) (phony_touch i l)).
    - by rewrite phony_touches_locs.
    - apply list_elem_of_fmap. exists (i, l). split; [done | by apply elem_of_indexed]. }
  split.
  { intros x Hx. rewrite touched_all_frame; [done|]. by rewrite phony_touches_locs. }
  intros l. apply (touched_all_nested _ (with_uri base s)), phony_touches_benign.
Qed.

(** Lines 186-209. *)
Lemma set_up_facts s :
  ok s -> NoDup (top_locs s) ->
  let base := main_uri (doc s) in
  let s' := touched_all (top_touches resolveUrl base (top_locs s)) s in
  ok s' /\ same_frame s s' /\
  (forall i l, top_locs s !! i = Some l -> heap s' !! l = setup base i <$> heap s !! l) /\
  (forall x, x ∉ top_locs s -> heap s' !! x = heap s !! x) /\
  (forall l, nested (heap s') l = nested (heap s) l) /\
  named_of s' = register_all (reverse (top_locs s) ≫= entries_of (heap s')) (named_of s).
Proof.
  intros Hok Hnd base s'. subst s'.
  split. { apply touched_all_ok; [apply top_touches_benign | done]. }
  split. { apply same_frame_touched_all. }
  split.
  { intros i l Hl.
    apply (touched_all_lookup _ s (top_touch resolveUrl base i l)).
    - rewrite top_touches_locs. by apply NoDup_reverse.
    - apply list_elem_of_fmap. exists (i, l). split; [done|].
      rewrite elem_of_reverse. by apply elem_of_indexed. }
  split.
  { intros x Hx. rewrite touched_all_frame; [done|].
    rewrite top_touches_locs. by rewrite elem_of_reverse. }
  split.
  { intros l. apply touched_all_nested, top_touches_benign. }
  rewrite touched_all_named.
  - rewrite registered_all_reg.
    + by rewrite top_touches_locs.
    + apply Forall_forall. intros t Ht.
      by apply list_elem_of_fmap in Ht as (x & -> & _).
  - rewrite top_touches_locs. by apply NoDup_reverse.
  - apply Forall_forall. intros t Ht.
    apply list_elem_of_fmap in Ht as ([i l] & -> & Hx).
    rewrite elem_of_reverse in Hx. apply elem_of_indexed in Hx.
    by destruct (ok_top_lookup _ _ _ Hok Hx).
Qed.

(** Lines 217-223. *)
Lemma resolved_facts s :
  ok s -> NoDup (leaf_locs s) ->
  let base := main_uri (doc s) in
  let s' := touched_all (leaf_touches resolveUrl base (visits (doc s))) s in
  ok s' /\ same_frame s s' /\
  (forall l, l ∈ leaf_locs s -> heap s' !! l = resolve base <$> heap s !! l) /\
  (forall x, x ∉ leaf_locs s -> heap s' !! x = heap s !! x) /\
  (forall l, nested (heap s') l = nested (heap s) l) /\
  named_of s' = named_of s.
Proof.
  intros Hok Hnd base s'. subst s'.
  split. { apply touched_all_ok; [apply leaf_touches_benign | done]. }
  split. { apply same_frame_touched_all. }
  split.
  { intros l Hl. apply list_elem_of_fmap in Hl as (v & -> & Hv).
    apply (touched_all_lookup _ s (leaf_touch resolveUrl base v)).
    - by rewrite leaf_touches_locs.
    - by apply list_elem_of_fmap_2. }
  split.
  { intros x Hx. rewrite touched_all_frame; [done|]. by rewrite leaf_touches_locs. }
  split.
  { intros l. apply touched_all_nested, leaf_touches_benign. }
  apply touched_all_named_none. apply Forall_forall. intros t Ht.
  by apply list_elem_of_fmap in Ht as (x & -> & _).
Qed.
End phases.

Lemma leaf_entries_nested h h' l :
  nested h' l = nested h l -> (forall p, p ∈ nested h l -> h' !! p = h !! p) ->
  leaf_entries h' l = leaf_entries h l.
Proof.
  intros Hl Hp. unfold leaf_entries. rewrite Hl. apply list_bind_ext.
  intros p Hin. by apply entries_of_ext, Hp.
Qed.

Section normal_form.
Variable resolveUrl : option string -> option string -> string.
Variable isAudioOnly : list object -> main -> bool.
Variable createGroupID : string -> string -> string -> object -> string.
Hypothesis createGroupID_safe : forall t g l o, safe_key (createGroupID t g l o).

#[local] Abbreviation sub := (sub_of resolveUrl createGroupID).
#[local] Abbreviation setup := (top_setup resolveUrl).
#[local] Abbreviation resolve := (resolved resolveUrl).
#[local] Abbreviation normal := (normalized resolveUrl createGroupID isAudioOnly).

(** [isAudioOnly(main)] as line 289 evaluates it, on the document that
    lines 277-288 leave. *)
Definition audio_only_main (base : string) (s : state) : bool :=
  isAudioOnly (heap (prepared base s)) (doc (prepared base s)).

Lemma audio_only_main_run base s :
  ok s ->
  (add_placeholders base ;; audio_only isAudioOnly) s
    = Some (audio_only_main base s, prepared base s).
Proof.
  intros Hok. by rewrite (bind_run _ _ _ _ _ (add_placeholders_run base s Hok)).
Qed.

(** What [addPropertiesToMain] leaves at the rendition [v] whose object
    was [o]: [s] is the state before and [s'] the state after. *)
Definition leaf_outcome (base : string) (s s' : state) (v : visit) (o : object) : Prop :=
  if populated o then
    heap s' !! v_props v = Some (resolve (Some base) o) /\
    forall j p oj, refs_of o !! j = Some p -> heap s !! p = Some oj ->
                   heap s' !! p = Some (sub v (Some base) j oj)
  else if suppressed (audio_only_main base s) v s o then heap s' !! v_props v = Some o
  else exists p, length (heap s) <= p /\
                 heap s' !! v_props v
                   = Some (resolve (Some base) (set_playlists o (Some [p]))) /\
                 heap s' !! p = Some (sub v (Some base) 0 o).

(** The entries [addPropertiesToMain] registers, in order, read off the
    heap it leaves: the nested playlists of every rendition, then the
    top-level playlists from the last to the first. *)
Definition all_entries (s' : state) : list (string * loc) :=
  (leaf_locs s' ≫= leaf_entries (heap s')) ++
  (reverse (top_locs s') ≫= entries_of (heap s')).

Lemma suppressed_falsy audioOnly v s o :
  suppressed audioOnly v s o = true -> truthy (uri o) = false.
Proof.
  unfold suppressed. intros H.
  apply andb_true_iff in H as [H _]. apply andb_true_iff in H as [_ H].
  by apply negb_true_iff.
Qed.

Lemma normalized_facts base s :
  ok s -> tree_shaped s ->
  let s' := normal base s in
  ok s' /\
  elems_of s' = elems_of s /\ main_uri (doc s') = Some base /\
  mediaGroups (doc s') = mediaGroups (doc s) /\ length (heap s) <= length (heap s') /\
  (forall i l o, top_locs s !! i = Some l -> heap s !! l = Some o ->
                 heap s' !! l = Some (setup (Some base) i (phony i o))) /\
  (forall v o, v ∈ visits (doc s) -> heap s !! v_props v = Some o ->
               leaf_outcome base s s' v o) /\
  (forall x, x < length (heap s) -> x ∉ top_locs s ++ leaf_locs s ++ nested_locs s ->
             heap s' !! x = heap s !! x) /\
  named_of s' = register_all (all_entries s') (named_of s).
Proof using createGroupID_safe.
  intros Hok Htree s'.
  destruct (tree_shaped_parts _ Htree) as (Hnd_top & Hnd_fp & Hdis).
  (* the placeholders *)
  destruct (prepared_facts base s Hok Hnd_top)
    as (Hok1 & He1 & Hu1 & Hm1 & Hlen1 & Hn1 & Htop1 & Hfr1 & Hnest1).
  set (s1 := prepared base s) in *.
  assert (Hv1 : visits (doc s1) = visits (doc s)) by (unfold visits; by rewrite Hm1).
  assert (Hl1 : leaf_locs s1 = leaf_locs s) by (unfold leaf_locs; by rewrite Hv1).
  assert (Ht1 : top_locs s1 = top_locs s) by (unfold top_locs; by rewrite He1).
  assert (Hfp1 : footprint (heap s1) (leaf_locs s) = footprint (heap s) (leaf_locs s)).
  { unfold footprint. f_equal. apply list_bind_ext. intros l _. apply Hnest1. }
  assert (Hfp_valid : forall x, x ∈ footprint (heap s) (leaf_locs s) -> x < length (heap s)).
  { intros x. apply footprint_valid; [done|]. apply Forall_fmap, (ok_leaves _ Hok). }
  assert (Htop_valid : forall x, x ∈ top_locs s -> x < length (heap s)).
  { intros x Hx. apply elem_of_top_locs in Hx. pose proof (ok_tops _ Hok) as Ht.
    rewrite Forall_forall in Ht. by destruct (Ht _ Hx) as (l' & [= <-] & Hl'). }
  assert (Hleaf_fp : forall l, l ∈ leaf_locs s -> l ∈ footprint (heap s) (leaf_locs s)).
  { intros l Hl. unfold footprint. apply elem_of_app. by left. }
  assert (Hleaf_top : forall l, l ∈ leaf_locs s -> l ∉ top_locs s).
  { intros l Hl Ht. by apply (Hdis l Ht), Hleaf_fp. }
  (* the renditions *)
  set (a := audio_only_main base s).
  destruct (visited_all_facts resolveUrl createGroupID createGroupID_safe a
              (visits (doc s1)) s1 Hok1 (ok_leaves _ Hok1))
    as (G1 & G2 & G3).
  { fold (leaf_locs s1). by rewrite Hl1, Hfp1. }
  { fold (leaf_locs s1). rewrite Hl1, Hfp1, Ht1. apply Hdis. }
  pose proof (visited_all_ok resolveUrl createGroupID createGroupID_safe a
                (visits (doc s1)) s1 Hok1) as Hok2.
  destruct (visited_all_frame resolveUrl createGroupID a (visits (doc s1)) s1)
    as (He2 & Hu2 & Hm2 & Hlen2).
  set (s2 := visited_all resolveUrl createGroupID a (visits (doc s1)) s1) in *.
  fold (leaf_locs s1) in G1, G3. rewrite Hl1 in G1. rewrite Hl1 in G3.
  rewrite Hfp1 in G1. rewrite Hv1 in G2.
  assert (Hv2 : visits (doc s2) = visits (doc s)).
  { unfold visits. by rewrite Hm2, Hm1. }
  assert (Ht2 : top_locs s2 = top_locs s) by (unfold top_locs; by rewrite He2, He1).
  (* the top-level playlists *)
  destruct (set_up_facts resolveUrl s2 Hok2) as (Hok3 & Hsf3 & Htop3 & Hfr3 & Hnest3 & Hn3).
  { by rewrite Ht2. }
  rewrite ?Ht2, ?Hu2, ?Hu1 in Htop3, Hfr3, Hn3, Hok3, Hsf3, Hnest3.
  set (s3 := touched_all (top_touches resolveUrl (Some base) (top_locs s)) s2) in *.
  destruct Hsf3 as (He3 & Hu3 & Hm3 & Hlen3).
  assert (Hv3 : visits (doc s3) = visits (doc s)).
  { unfold visits. by rewrite Hm3, Hm2, Hm1. }
  assert (Hl3 : leaf_locs s3 = leaf_locs s) by (unfold leaf_locs; by rewrite Hv3).
  (* the rendition uris *)
  assert (Hnd_leaf : NoDup (leaf_locs s)).
  { unfold footprint in Hnd_fp. by apply NoDup_app in Hnd_fp as (? & _). }
  destruct (resolved_facts resolveUrl s3 Hok3) as (Hok4 & Hsf4 & Hleaf4 & Hfr4 & Hnest4 & Hn4).
  { by rewrite Hl3. }
  rewrite ?Hv3, ?Hu3, ?Hu2, ?Hu1 in Hleaf4, Hfr4, Hn4, Hok4, Hsf4, Hnest4.
  rewrite Hl3 in Hleaf4. rewrite Hl3 in Hfr4.
  assert (Hs' : s' = touched_all (leaf_touches resolveUrl (Some base) (visits (doc s))) s3).
  { subst s'. unfold normalized. cbv zeta. fold (prepared base s). fold s1.
    change (isAudioOnly (heap s1) (doc s1)) with a. fold s2.
    rewrite Ht2, Hu2, Hu1. fold s3. by rewrite Hv3, Hu3, Hu2, Hu1. }
  rewrite <- Hs' in Hleaf4, Hfr4, Hn4, Hok4, Hsf4, Hnest4.
  destruct Hsf4 as (He4 & Hu4 & Hm4 & Hlen4).
  (* lookups after the renditions, for objects the last two passes skip *)
  assert (Hlate : forall x, x ∉ top_locs s -> x ∉ leaf_locs s ->
                            heap s' !! x = heap s2 !! x).
  { intros x Hx1 Hx2. by rewrite Hfr4, Hfr3. }
  assert (Hsup : forall v o, suppressed a v s1 o = suppressed a v s o).
  { intros v o. unfold suppressed. f_equal. rewrite He1. apply in_group_match.
    intros l Hl. apply elem_of_top_locs in Hl.
    destruct (list_elem_of_lookup_1 _ _ Hl) as [i Hi].
    rewrite (Htop1 i l Hi). destruct (heap s !! l) as [o'|]; [|done]. simpl.
    by rewrite phony_audio_match. }
  split; [done|].
  split; [by rewrite He4, He3, He2, He1|].
  split; [by rewrite Hu4, Hu3, Hu2, Hu1|].
  split; [by rewrite Hm4, Hm3, Hm2, Hm1|].
  split; [lia|].
  split; [|split; [|split]].
  - (* top-level playlists *)
    intros i l o Hi Ho.
    assert (Hl : l ∈ top_locs s) by by eapply list_elem_of_lookup_2.
    rewrite Hfr4 by (intros Hin; by apply (Hleaf_top l)).
    rewrite (Htop3 i l Hi).
    rewrite G1; [| rewrite Hlen1; by apply Htop_valid | by apply Hdis].
    by rewrite (Htop1 i l Hi), Ho.
  - (* renditions *)
    intros v o Hv Ho.
    assert (Hl : v_props v ∈ leaf_locs s) by by apply list_elem_of_fmap_2.
    assert (Hnt : v_props v ∉ top_locs s) by by apply Hleaf_top.
    assert (Ho1 : heap s1 !! v_props v = Some o) by by rewrite Hfr1.
    specialize (G2 v o Hv Ho1). unfold visit_outcome in G2. unfold leaf_outcome.
    change (audio_only_main base s) with a.
    rewrite Hsup, Hu1 in G2.
    destruct (populated o) eqn:Hpop.
    + destruct G2 as [Hself Hsub]. split.
      * by rewrite (Hleaf4 _ Hl), Hfr3, Hself.
      * intros j p oj Hp Hoj.
        assert (Hin : p ∈ footprint (heap s) (leaf_locs s)).
        { unfold footprint. apply elem_of_app. right. apply list_elem_of_bind.
          exists (v_props v). split; [|done].
          rewrite (nested_lookup _ _ _ Ho). by eapply list_elem_of_lookup_2. }
        assert (Hpt : p ∉ top_locs s) by (intros Ht; by apply (Hdis p Ht)).
        assert (Hpl : p ∉ leaf_locs s).
        { intros Hpl. unfold footprint in Hnd_fp.
          apply NoDup_app in Hnd_fp as (_ & Hd & _). apply (Hd p Hpl).
          apply list_elem_of_bind. exists (v_props v). split; [|done].
          rewrite (nested_lookup _ _ _ Ho). by eapply list_elem_of_lookup_2. }
        rewrite Hlate by done. rewrite (Hsub j p Hp), Hfr1 by done. by rewrite Hoj.
    + destruct (suppressed a v s o) eqn:Hs.
      * rewrite (Hleaf4 _ Hl), Hfr3, G2 by done. simpl.
        by rewrite (resolved_falsy _ _ _ (suppressed_falsy _ _ _ _ Hs)).
      * destruct G2 as (p & Hp & Hself & Hcopy). exists p.
        split; [lia|]. split.
        -- by rewrite (Hleaf4 _ Hl), Hfr3, Hself.
        -- rewrite Hlate; [done| |].
           ++ intros Ht. apply Htop_valid in Ht. lia.
           ++ intros Hpl. apply Hleaf_fp, Hfp_valid in Hpl. lia.
  - (* everything else *)
    intros x Hx Hnin. rewrite !elem_of_app in Hnin.
    rewrite Hlate by tauto. rewrite G1.
    + apply Hfr1. tauto.
    + lia.
    + unfold footprint. rewrite elem_of_app. unfold nested_locs in Hnin. tauto.
  - (* named properties *)
    rewrite Hn4, Hn3, G3, Hn1. unfold all_entries.
    rewrite register_all_app.
    assert (Hl4 : leaf_locs s' = leaf_locs s).
    { unfold leaf_locs, visits. by rewrite Hm4, Hm3, Hm2, Hm1. }
    assert (Ht4 : top_locs s' = top_locs s).
    { unfold top_locs. by rewrite He4, He3, He2, He1. }
    rewrite Hl4, Ht4. f_equal.
    + apply list_bind_ext. intros l Hl. rewrite elem_of_reverse in Hl.
      apply entries_of_ext. symmetry. apply Hfr4. intros Hin. by apply (Hleaf_top l).
    + f_equal. apply list_bind_ext. intros l Hl. symmetry.
      apply leaf_entries_nested; [by rewrite Hnest4, Hnest3|].
      intros p Hp.
      apply list_elem_of_fmap in Hl as (v & -> & Hv).
      assert (Hl : v_props v ∈ leaf_locs s) by by apply list_elem_of_fmap_2.
      destruct (lookup_lt_is_Some_2 (heap s) (v_props v)) as [o Ho].
      { apply Hfp_valid. by apply Hleaf_fp. }
      assert (Ho1 : heap s1 !! v_props v = Some o).
      { rewrite Hfr1; [done | by apply Hleaf_top]. }
      specialize (G2 v o Hv Ho1). unfold visit_outcome in G2.
      assert (Hcases : (p ∈ refs_of o) \/ length (heap s) <= p).
      { destruct (populated o) eqn:Hpop.
        - destruct G2 as [Hself _]. rewrite (nested_lookup _ _ _ Hself) in Hp. by left.
        - destruct (suppressed a v s1 o).
          + rewrite (nested_lookup _ _ _ G2) in Hp. by left.
          + destruct G2 as (q & Hq & Hself & _).
            rewrite (nested_lookup _ _ _ Hself) in Hp. unfold refs_of in Hp. simpl in Hp.
            apply list_elem_of_singleton in Hp. right. lia. }
      apply Hlate.
      * destruct Hcases as [Hin|Hge].
        -- intros Ht. apply (Hdis p Ht). unfold footprint. apply elem_of_app. right.
           apply list_elem_of_bind. exists (v_props v). split; [|done].
           by rewrite (nested_lookup _ _ _ Ho).
        -- intros Ht. apply Htop_valid in Ht. lia.
      * destruct Hcases as [Hin|Hge].
        -- intros Hpl. unfold footprint in Hnd_fp.
           apply NoDup_app in Hnd_fp as (_ & Hd & _). apply (Hd p Hpl).
           apply list_elem_of_bind. exists (v_props v). split; [|done].
           by rewrite (nested_lookup _ _ _ Ho).
        -- intros Hpl. apply Hleaf_fp, Hfp_valid in Hpl. lia.
Qed.
End normal_form.

(** ** Running on a document that is already normalised *)

(** The same heap and the same main object, named properties apart. *)
Definition same_objects (s s' : state) : Prop :=
  heap s' = heap s /\ elems_of s' = elems_of s /\
  main_uri (doc s') = main_uri (doc s) /\
  main_resolvedUri (doc s') = main_resolvedUri (doc s) /\
  mediaGroups (doc s') = mediaGroups (doc s).

Lemma same_objects_trans s1 s2 s3 :
  same_objects s1 s2 -> same_objects s2 s3 -> same_objects s1 s3.
Proof.
  intros (H1 & H2 & H3 & H4 & H5) (G1 & G2 & G3 & G4 & G5).
  unfold same_objects. by rewrite G1, G2, G3, G4, G5.
Qed.

(** Two states with the same objects and the same named properties have
    the same heap and the same main object. *)
Lemma same_objects_doc s s' :
  same_objects s s' -> named_of s' = named_of s -> heap s' = heap s /\ doc s' = doc s.
Proof.
  intros (H1 & H2 & H3 & H4 & H5) H6. split; [done|].
  unfold elems_of, named_of in *.
  destruct (doc s') as [u' r' [e' n'] m'], (doc s) as [u r [e n] m]. simpl in *.
  by subst.
Qed.

(** A touch that finds its object already rewritten only registers it. *)
Definition settled (t : touch_spec) (s : state) : Prop :=
  forall o, heap s !! t_loc t = Some o -> t_fun t o = o.

Lemma touched_settled t s :
  settled t s ->
  same_objects s (touched t s) /\
  named_of (touched t s) =
    register_all (if t_reg t then entries_of (heap s) (t_loc t) else []) (named_of s).
Proof.
  intros Hset. unfold touched, entries_of.
  destruct (heap s !! t_loc t) as [o|] eqn:Ho.
  - rewrite (Hset o Ho). split.
    + unfold same_objects. simpl. rewrite list_insert_id by done.
      by destruct (t_reg t).
    + by destruct (t_reg t).
  - split; [done|]. by destruct (t_reg t).
Qed.

Lemma touched_all_settled ts s :
  Forall (fun t => settled t s) ts ->
  same_objects s (touched_all ts s) /\
  named_of (touched_all ts s) = register_all (registered (heap s) ts) (named_of s).
Proof.
  revert s. induction ts as [|t ts IH]; intros s H; [done|].
  inversion H as [|? ? Ht H']; subst.
  destruct (touched_settled t s Ht) as [Hs Hn].
  cbn [touched_all foldl]. fold (touched_all ts (touched t s)).
  destruct (IH (touched t s)) as [Hs' Hn'].
  { eapply Forall_impl; [exact H'|]. intros t' Ht' o. destruct Hs as (-> & _). apply Ht'. }
  split; [by eapply same_objects_trans|].
  rewrite Hn', Hn, registered_cons, register_all_app.
  destruct Hs as (-> & _). done.
Qed.

Section again.
Variable resolveUrl : option string -> option string -> string.
Variable createGroupID : string -> string -> string -> object -> string.

#[local] Abbreviation sub := (sub_of resolveUrl createGroupID).
#[local] Abbreviation subs := (sub_touches resolveUrl createGroupID).






End again.




Section fixed_point.
Variable resolveUrl : option string -> option string -> string.
Variable createGroupID : string -> string -> string -> object -> string.
Variable isAudioOnly : list object -> main -> bool.
Hypothesis createGroupID_safe : forall t g l o, safe_key (createGroupID t g l o).
Hypothesis createGroupID_nonempty : forall t g l o, createGroupID t g l o <> "".

#[local] Abbreviation sub := (sub_of resolveUrl createGroupID).
#[local] Abbreviation setup := (top_setup resolveUrl).
#[local] Abbreviation resolve := (resolved resolveUrl).
#[local] Abbreviation normal := (normalized resolveUrl createGroupID isAudioOnly).



End fixed_point.

(** ** Reading the lookup table *)

(** [main.playlists[k]] for a property value [k] used as a key. *)
Definition lookup_key (s : state) (k : option string) : option loc :=
  at_key (main_playlists (doc s)) (ToString k).

(** The playlists the passes place in the lookup table: the top-level ones
    and the ones nested in a rendition. *)
Definition placed (s : state) : list loc := top_locs s ++ nested_locs s.

(** No other playlist of [ls] has a key in common with [l]. *)
Definition unshared (s : state) (ls : list loc) (l : loc) : Prop :=
  forall l' o o' k, l' ∈ ls -> heap s !! l = Some o -> heap s !! l' = Some o' ->
                    k ∈ keys_of o -> k ∈ keys_of o' -> l' = l.

Lemma list_bind_assoc {A B C : Type} (f : A -> list B) (g : B -> list C) (l : list A) :
  (l ≫= f) ≫= g = l ≫= (fun x => f x ≫= g).
Proof.
  induction l as [|x l IH]; [done|]. by rewrite !bind_cons, bind_app, IH.
Qed.

Lemma all_entries_placed s :
  all_entries s = (nested_locs s ++ reverse (top_locs s)) ≫= entries_of (heap s).
Proof.
  unfold all_entries, nested_locs. rewrite bind_app, list_bind_assoc. done.
Qed.

Lemma elem_of_entries_of h l k l' :
  (k, l') ∈ entries_of h l <-> l' = l /\ exists o, h !! l = Some o /\ k ∈ keys_of o.
Proof.
  unfold entries_of. destruct (h !! l) as [o|].
  - rewrite list_elem_of_fmap. split.
    + intros (k' & [= -> ->] & Hk). eauto.
    + intros (-> & o' & [= <-] & Hk). eauto.
  - split; [by intros H; inversion H | by intros (_ & o & ? & _)].
Qed.

(** A playlist whose keys no other registered playlist uses is found
    under both of them. *)
Lemma registered_both_keys s ls nm l o :
  Forall safe_object (heap s) ->
  named_of s = register_all (ls ≫= entries_of (heap s)) nm ->
  l ∈ ls -> heap s !! l = Some o -> unshared s ls l ->
  lookup_key s (id o) = Some l /\ lookup_key s (uri o) = Some l.
Proof.
  intros Hsafe Hnm Hl Ho Hun.
  assert (Hso : safe_object o).
  { rewrite Forall_forall in Hsafe. apply Hsafe. by eapply list_elem_of_lookup_2. }
  assert (Hkey : forall k, k ∈ keys_of o -> named_of s !! k = Some l).
  { intros k Hk. rewrite Hnm. apply register_all_lookup.
    - apply list_elem_of_fmap. exists (k, l). split; [done|].
      apply list_elem_of_bind. exists l. split; [|done].
      apply elem_of_entries_of. eauto.
    - intros l' Hin. apply list_elem_of_bind in Hin as (l0 & Hin & Hl0).
      apply elem_of_entries_of in Hin as (-> & o' & Ho' & Hk').
      by apply (Hun l0 o o' k). }
  destruct Hso as [Hid Huri]. unfold lookup_key.
  rewrite !at_key_safe by done. fold (named_of s).
  split; apply Hkey; unfold keys_of; set_solver.
Qed.

(** A key refers to a playlist only if it was registered for it or
    referred to it before. *)
Lemma registered_only s ls nm k l :
  named_of s = register_all (ls ≫= entries_of (heap s)) nm ->
  named_of s !! k = Some l -> l ∈ ls \/ nm !! k = Some l.
Proof.
  intros Hnm Hk. rewrite Hnm in Hk.
  apply register_all_lookup_Some in Hk as [Hin|Hk]; [left | by right].
  apply list_elem_of_bind in Hin as (l0 & Hin & Hl0).
  by apply elem_of_entries_of in Hin as (-> & _).
Qed.

(** ** [mainForMedia] *)

(** The playlist entry of lines 247-254. *)
Definition wrapped (u : string) : object :=
  Object (Some u) (Some (createPlaylistID 0 (Some u))) (Some u) (Some no_attrs)
         None None [].

Definition no_groups : list (string * groups) :=
  [("AUDIO", []); ("VIDEO", []); ("CLOSED-CAPTIONS", []); ("SUBTITLES", [])].

Lemma at_index_write_same n l es : at_index (JsArray (write_index n l es) ∅) n = Some l.
Proof.
  unfold at_index, write_index. simpl. case_decide as Hn.
  - by rewrite list_lookup_insert_eq.
  - rewrite lookup_app_r by lia. rewrite lookup_app_r; rewrite length_replicate; [|lia].
    by replace (n - length es - (n - length es)) with 0 by lia.
Qed.

Lemma write_index_single n l i q :
  write_index n l [Some l] !! i = Some (Some q) -> q = l.
Proof.
  unfold write_index. case_decide as Hn.
  - destruct (decide (i = n)) as [->|Hne].
    + rewrite list_lookup_insert_eq by done. by intros [= ->].
    + rewrite list_lookup_insert_ne by done. destruct i; [by intros [= ->] | done].
  - destruct i as [|i]; [by intros [= ->]|]. simpl.
    intros H. apply lookup_app_Some in H as [H|[_ H]].
    + by apply lookup_replicate_1 in H as [? _].
    + destruct (i - length (replicate (n - 1) None)); [by injection H as -> | done].
Qed.

Lemma write_index_first n l : write_index n l [Some l] !! 0 = Some (Some l).
Proof.
  unfold write_index. case_decide as Hn; [|done].
  simpl in Hn. by replace n with 0 by lia.
Qed.

(** [mainForMedia] returns for every uri but ["length"], and this is the
    document it returns. *)
Lemma mainForMedia_run href media u s :
  u <> "length" ->
  exists m,
    mainForMedia href media u s
      = Some (m, State (heap s ++ [wrapped u]) (doc s) (console s)) /\
    at_index (main_playlists m) 0 = Some (length (heap s)) /\
    at_key (main_playlists m) (createPlaylistID 0 (Some u)) = Some (length (heap s)) /\
    at_key (main_playlists m) u = Some (length (heap s)) /\
    (forall i q, at_index (main_playlists m) i = Some q -> q = length (heap s)) /\
    (array_index u = None -> elems (main_playlists m) = [Some (length (heap s))]) /\
    main_uri m = Some href /\ main_resolvedUri m = Some href /\
    mediaGroups m = Some no_groups.
Proof.
  intros Hne. unfold mainForMedia, bind, alloc. cbn [at_index main_playlists elems].
  cbn [lookup list_lookup mjoin option_join]. simpl.
  pose proof (createPlaylistID_safe 0 (Some u)) as Hid.
  unfold assign. apply String.eqb_neq in Hne. rewrite Hne.
  set (p := length (heap s)).
  destruct (array_index u) as [n|] eqn:Hn; simpl.
  - eexists. split; [reflexivity|]. simpl.
    split; [|split; [|split; [|split; [|split]]]]; try done.
    + unfold at_index. simpl. by rewrite write_index_first.
    + rewrite at_key_safe by done. simpl. by rewrite lookup_insert_eq.
    + unfold at_key. rewrite Hn. apply at_index_write_same.
    + intros i q. unfold at_index. simpl.
      destruct (write_index n p [Some p] !! i) as [[q'|]|] eqn:E; simpl; try done.
      intros [= <-]. by eapply write_index_single.
  - eexists. split; [reflexivity|]. simpl.
    split; [|split; [|split; [|split; [|split]]]]; try done.
    + rewrite at_key_safe by done. simpl.
      destruct (decide (u = createPlaylistID 0 (Some u))) as [<-|Hd].
      * by rewrite lookup_insert_eq.
      * rewrite lookup_insert_ne by done. by rewrite lookup_insert_eq.
    + unfold at_key. rewrite Hn. simpl. by rewrite lookup_insert_eq.
    + intros i q. unfold at_index. simpl. destruct i as [|i]; simpl; [by intros [= <-] | done].
Qed.

(** ** The document after [addPropertiesToMain] *)

Lemma placed_valid s l : ok s -> l ∈ placed s -> l < length (heap s).
Proof.
  intros Hok Hl. apply elem_of_app in Hl as [Hl|Hl].
  - apply list_elem_of_lookup_1 in Hl as [i Hi].
    by destruct (ok_top_lookup _ _ _ Hok Hi).
  - apply list_elem_of_bind in Hl as (l0 & Hl & _). unfold nested in Hl.
    destruct (heap s !! l0) as [o|] eqn:Ho; [|by inversion Hl].
    pose proof (ok_closed _ Hok) as Hc. rewrite Forall_forall in Hc.
    specialize (Hc o (list_elem_of_lookup_2 _ _ _ Ho)). rewrite Forall_forall in Hc.
    by apply Hc.
Qed.

Lemma unshared_placed s l :
  unshared s (placed s) l -> unshared s (nested_locs s ++ reverse (top_locs s)) l.
Proof.
  intros H l' o o' k Hl'. apply (H l' o o' k).
  unfold placed. rewrite elem_of_app in Hl' |- *. rewrite elem_of_reverse in Hl'. tauto.
Qed.

Lemma truthy_nonempty (g : string) : g <> "" -> truthy (Some g) = true.
Proof. by destruct g. Qed.

(** A top-level playlist in the audio group of the rendition, with the
    other conditions of line 297, suppresses the rendition. *)
Lemma suppressed_intro v s o l p a :
  v_type v = "AUDIO" -> truthy (uri o) = false ->
  l ∈ top_locs s -> heap s !! l = Some p -> attributes p = Some a ->
  AUDIO a = Some (v_group v) -> v_group v <> "" ->
  suppressed true v s o = true.
Proof.
  intros Ht Hu Hl Hp Ha Hg Hne. unfold suppressed. rewrite Ht, Hu. simpl.
  unfold in_group. apply existsb_exists. exists (Some l). split.
  - apply list_elem_of_In. by apply elem_of_top_locs.
  - rewrite Hp. unfold audio_match. rewrite Ha, Hg.
    rewrite (truthy_nonempty _ Hne). simpl. by apply bool_decide_eq_true.
Qed.

Section outcome.
Variable resolveUrl : option string -> option string -> string.
Variable isAudioOnly : list object -> main -> bool.
Variable createGroupID : string -> string -> string -> object -> string.
Hypothesis createGroupID_safe : forall t g l o, safe_key (createGroupID t g l o).

#[local] Abbreviation normal := (normalized resolveUrl createGroupID isAudioOnly).

(** The nested playlists of the result are those of the document, and
    the copies made at line 307. *)
Lemma normalized_nested base s l :
  ok s -> tree_shaped s ->
  l ∈ nested_locs (normal base s) -> l ∈ nested_locs s \/ length (heap s) <= l.
Proof using createGroupID_safe.
  intros Hok Htree Hl.
  destruct (normalized_facts resolveUrl isAudioOnly createGroupID createGroupID_safe
              base s Hok Htree)
    as (_ & _ & _ & Hmg & _ & _ & Hleaves & _).
  set (s' := normal base s) in *.
  unfold nested_locs, leaf_locs in Hl. apply list_elem_of_bind in Hl as (l0 & Hl & Hl0).
  apply list_elem_of_fmap in Hl0 as (v & -> & Hv).
  assert (Hvs : visits (doc s') = visits (doc s)) by (unfold visits; by rewrite Hmg).
  rewrite Hvs in Hv.
  pose proof (ok_leaves _ Hok) as Hlt. rewrite Forall_forall in Hlt.
  destruct (lookup_lt_is_Some_2 _ _ (Hlt v Hv)) as [o Ho].
  specialize (Hleaves v o Hv Ho). unfold leaf_outcome in Hleaves.
  destruct (populated o) eqn:Hpop.
  - destruct Hleaves as [Hself _]. rewrite (nested_lookup _ _ _ Hself) in Hl.
    rewrite resolved_refs in Hl. left.
    apply list_elem_of_bind. exists (v_props v). split.
    + by rewrite (nested_lookup _ _ _ Ho).
    + by apply list_elem_of_fmap_2.
  - destruct (suppressed _ v s o).
    + rewrite (nested_lookup _ _ _ Hleaves), (refs_of_populated _ Hpop) in Hl.
      by inversion Hl.
    + destruct Hleaves as (p & Hp & Hself & _).
      rewrite (nested_lookup _ _ _ Hself), resolved_refs in Hl. simpl in Hl.
      apply list_elem_of_singleton in Hl as ->. by right.
Qed.
End outcome.

(** ** The properties of the normalisation passes *)

(** ** Keys that several playlists have *)

Lemma elem_of_take_lt {A : Type} (l : list A) i x :
  x ∈ take i l -> exists j, j < i /\ l !! j = Some x.
Proof.
  intros H. apply list_elem_of_lookup_1 in H as [j Hj].
  apply lookup_take_Some in Hj as [Hj Hlt]. eauto.
Qed.

(** Registered last to first, a key that several of the playlists [tops]
    have ends on the first of them, whatever was registered before. *)
Lemma lowest_index_registered h (before tops : list loc) nm k i l o :
  tops !! i = Some l -> h !! l = Some o -> k ∈ keys_of o ->
  (forall j l' o', j < i -> tops !! j = Some l' -> h !! l' = Some o' -> k ∉ keys_of o') ->
  register_all ((before ++ reverse tops) ≫= entries_of h) nm !! k = Some l.
Proof.
  intros Hl Ho Hk Hfirst.
  rewrite <- (take_drop_middle _ _ _ Hl), reverse_app, reverse_cons, !bind_app.
  rewrite !register_all_app.
  rewrite register_all_lookup_None.
  - apply register_all_lookup.
    + apply list_elem_of_fmap. exists (k, l). split; [done|].
      apply list_elem_of_bind. exists l. split; [|by apply list_elem_of_singleton].
      apply elem_of_entries_of. eauto.
    + intros l' Hin. apply list_elem_of_bind in Hin as (l0 & Hin & Hl0).
      apply list_elem_of_singleton in Hl0 as ->.
      by apply elem_of_entries_of in Hin as (-> & _).
  - intros Hin. apply list_elem_of_fmap in Hin as ([k' l'] & Hk' & Hin). simpl in Hk'.
    subst k'. apply list_elem_of_bind in Hin as (l0 & Hin & Hl0).
    apply elem_of_entries_of in Hin as (-> & o' & Ho' & Hko').
    rewrite elem_of_reverse in Hl0. apply elem_of_take_lt in Hl0 as (j & Hj & Hlj).
    by apply (Hfirst j l0 o').
Qed.

Lemma key_of_safe h o k :
  Forall safe_object h -> o ∈ h -> k ∈ keys_of o -> safe_key k.
Proof.
  intros Hs Ho Hk. rewrite Forall_forall in Hs. destruct (Hs o Ho) as [Hid Huri].
  unfold keys_of in Hk. rewrite !elem_of_cons, elem_of_nil in Hk.
  destruct Hk as [->|[->|[]]]; done.
Qed.

(** [unshared] as a test, for sample documents. *)
Definition unsharedb (s : state) (ls : list loc) (l : loc) : bool :=
  match heap s !! l with
  | None => true
  | Some o =>
      forallb (fun l' =>
        match heap s !! l' with
        | None => true
        | Some o' =>
            bool_decide (l' = l)
            || negb (existsb (fun k => bool_decide (k ∈ keys_of o')) (keys_of o))
        end) ls
  end.

Lemma unsharedb_unshared s ls l : unsharedb s ls l = true -> unshared s ls l.
Proof.
  unfold unsharedb. intros H l' o o' k Hl' Ho Ho' Hk Hk'. rewrite Ho in H.
  rewrite forallb_forall in H. specialize (H l'). rewrite Ho' in H.
  apply orb_prop in H as [H|H].
  - by apply bool_decide_eq_true in H.
  - apply negb_true_iff in H. exfalso.
    assert (Hex : existsb (fun k => bool_decide (k ∈ keys_of o')) (keys_of o) = true).
    { apply existsb_exists. exists k. split; [by apply list_elem_of_In|].
      by apply bool_decide_eq_true. }
    congruence.
  - by apply list_elem_of_In.
Qed.

(** The first of the top-level playlists of [s] with the key [k] is the
    playlist [l]. *)
Definition first_with_key (s : state) (k : string) (l : loc) : Prop :=
  exists i o, top_locs s !! i = Some l /\ heap s !! l = Some o /\ k ∈ keys_of o /\
    forall j l' o', j < i -> top_locs s !! j = Some l' -> heap s !! l' = Some o' ->
                    k ∉ keys_of o'.

(** C1, with the conditions it needs.  The document is [ok], and its
    playlists are distinct objects: no id, uri or group id is ["length"] or
    an array index, and every reference is to an object.  After
    [setupMediaPlaylists] and after [addPropertiesToMain] a playlist placed
    in the lookup table is found under its id and under its uri, and both
    keys give the playlist itself, provided no other placed playlist has
    one of these keys; a key that several top-level playlists have gives
    the first of them.  After [mainForMedia], called with a uri other than
    ["length"], the playlist it wraps is found under its id and its uri. *)
Theorem playlists_registered_under_both_keys
    (resolveUrl : option string -> option string -> string)
    (isAudioOnly : list object -> main -> bool) :
  (forall s, ok s -> NoDup (top_locs s) ->
     exists s', setupMediaPlaylists resolveUrl s = Some (tt, s') /\
       (forall l, l ∈ top_locs s' ->
          exists o, heap s' !! l = Some o /\
            (unshared s' (top_locs s') l ->
             lookup_key s' (id o) = Some l /\ lookup_key s' (uri o) = Some l)) /\
       (forall k l, first_with_key s' k l ->
                    at_key (main_playlists (doc s')) k = Some l)) /\
  (forall base createGroupID s,
     safe_ids (default groupID createGroupID) -> ok s -> tree_shaped s ->
     exists s', addPropertiesToMain resolveUrl isAudioOnly base createGroupID s
                  = Some (tt, s') /\
       (forall l, l ∈ placed s' ->
          exists o, heap s' !! l = Some o /\
            (unshared s' (placed s') l ->
             lookup_key s' (id o) = Some l /\ lookup_key s' (uri o) = Some l)) /\
       (forall k l, first_with_key s' k l ->
                    at_key (main_playlists (doc s')) k = Some l)) /\
  (forall href media u s, u <> "length" ->
     exists m s' p o, mainForMedia href media u s = Some (m, s') /\
       at_index (main_playlists m) 0 = Some p /\ heap s' !! p = Some o /\
       at_key (main_playlists m) (ToString (id o)) = Some p /\
       at_key (main_playlists m) (ToString (uri o)) = Some p).
Proof.
  split; [|split].
  - intros s Hok Hnd. eexists. split; [by apply setupMediaPlaylists_run|].
    destruct (set_up_facts resolveUrl s Hok Hnd) as (Hok' & Hfr & _ & _ & _ & Hnm).
    set (s' := touched_all _ s) in *.
    pose proof (same_frame_tops _ _ Hfr) as Htl. rewrite <- Htl in Hnm.
    split.
    + intros l Hl.
      assert (Hlt : l < length (heap s')).
      { apply (placed_valid s' l Hok'). unfold placed. apply elem_of_app. by left. }
      destruct (lookup_lt_is_Some_2 _ _ Hlt) as [o Ho]. exists o. split; [done|].
      intros Hun.
      apply (registered_both_keys s' (reverse (top_locs s')) (named_of s)); try done.
      * by apply ok_safe.
      * by apply elem_of_reverse.
      * intros l' o1 o2 k Hl'. apply (Hun l' o1 o2 k). by apply elem_of_reverse.
    + intros k l (i & o & Hl & Ho & Hk & Hfirst).
      rewrite at_key_safe
        by (eapply key_of_safe; [apply (ok_safe _ Hok') | by eapply list_elem_of_lookup_2 | done]).
      fold (named_of s'). rewrite Hnm.
      by apply (lowest_index_registered (heap s') [] (top_locs s') _ k i l o).
  - intros base createGroupID s Hcg Hok Htree.
    eexists. split; [by apply addPropertiesToMain_run|].
    destruct (normalized_facts resolveUrl isAudioOnly _ Hcg base s Hok Htree)
      as (Hok' & _ & _ & _ & _ & _ & _ & _ & Hnm).
    set (s' := normalized _ _ _ base s) in *.
    rewrite all_entries_placed in Hnm.
    split.
    + intros l Hl.
      destruct (lookup_lt_is_Some_2 _ _ (placed_valid s' l Hok' Hl)) as [o Ho].
      exists o. split; [done|]. intros Hun.
      apply (registered_both_keys s' _ (named_of s) l o (ok_safe _ Hok') Hnm); try done.
      * unfold placed in Hl. rewrite elem_of_app in Hl |- *. rewrite elem_of_reverse. tauto.
      * by apply unshared_placed.
    + intros k l (i & o & Hl & Ho & Hk & Hfirst).
      rewrite at_key_safe
        by (eapply key_of_safe; [apply (ok_safe _ Hok') | by eapply list_elem_of_lookup_2 | done]).
      fold (named_of s'). rewrite Hnm.
      by apply (lowest_index_registered (heap s') _ (top_locs s') _ k i l o).
  - intros href media u s Hne.
    destruct (mainForMedia_run href media u s Hne) as (m & Hrun & H0 & Hid & Huri & _).
    exists m, (State (heap s ++ [wrapped u]) (doc s) (console s)), (length (heap s)),
           (wrapped u).
    split; [done|]. split; [done|]. split; [|done].
    simpl. by rewrite lookup_app_r, Nat.sub_diag.
Qed.

(** C5, for a group key that is not the empty string, on a document that
    is [ok] and [tree_shaped]: no id, uri or group id is ["length"] or an
    array index, every reference is to an object, and top-level playlists,
    rendition descriptors and nested playlists are distinct objects.  If
    [isAudioOnly] finds the document audio only at line 289, an AUDIO
    rendition without nested playlists and without a uri, whose group key
    is the AUDIO attribute of some top-level playlist, has after
    [addPropertiesToMain] the [playlists] property it had before: no nested
    playlist is synthesized for it. *)
Theorem audio_only_rendition_not_synthesized
    (resolveUrl : option string -> option string -> string)
    (isAudioOnly : list object -> main -> bool) base createGroupID s v o l p a :
  safe_ids (default groupID createGroupID) -> ok s -> tree_shaped s ->
  audio_only_main isAudioOnly base s = true ->
  v ∈ visits (doc s) -> v_type v = "AUDIO" -> heap s !! v_props v = Some o ->
  populated o = false -> truthy (uri o) = false ->
  l ∈ top_locs s -> heap s !! l = Some p -> attributes p = Some a ->
  AUDIO a = Some (v_group v) -> v_group v <> "" ->
  exists s', addPropertiesToMain resolveUrl isAudioOnly base createGroupID s
               = Some (tt, s') /\
    exists o', heap s' !! v_props v = Some o' /\
               playlists o' = playlists o /\ populated o' = false.
Proof.
  intros Hcg Hok Htree Haudio Hv Ht Ho Hpop Hu Hl Hp Ha Hg Hne.
  eexists. split; [by apply addPropertiesToMain_run|].
  destruct (normalized_facts resolveUrl isAudioOnly _ Hcg base s Hok Htree)
    as (_ & _ & _ & _ & _ & _ & Hleaves & _).
  specialize (Hleaves v o Hv Ho). unfold leaf_outcome in Hleaves.
  rewrite Hpop, Haudio in Hleaves.
  rewrite (suppressed_intro v s o l p a Ht Hu Hl Hp Ha Hg Hne) in Hleaves.
  by exists o.
Qed.

(** C10, on a document that is [ok] and [tree_shaped]: no id, uri or group
    id is ["length"] or an array index, every reference is to an object,
    and top-level playlists, rendition descriptors and nested playlists are
    distinct objects.  Under the conditions of line 297-302 (audio-only
    document, AUDIO rendition without nested playlists and without a uri, a
    top-level playlist whose AUDIO attribute is the rendition's non-empty
    group key), the rendition descriptor is after [addPropertiesToMain] the
    object it was before, and if no key of the lookup table referred to it
    before, none does after. *)
Theorem suppressed_rendition_untouched
    (resolveUrl : option string -> option string -> string)
    (isAudioOnly : list object -> main -> bool) base createGroupID s v o l p a :
  safe_ids (default groupID createGroupID) -> ok s -> tree_shaped s ->
  audio_only_main isAudioOnly base s = true ->
  v ∈ visits (doc s) -> v_type v = "AUDIO" -> heap s !! v_props v = Some o ->
  populated o = false -> truthy (uri o) = false ->
  l ∈ top_locs s -> heap s !! l = Some p -> attributes p = Some a ->
  AUDIO a = Some (v_group v) -> v_group v <> "" ->
  (forall k, named_of s !! k <> Some (v_props v)) ->
  exists s', addPropertiesToMain resolveUrl isAudioOnly base createGroupID s
               = Some (tt, s') /\
    heap s' !! v_props v = Some o /\
    forall k, at_key (main_playlists (doc s')) k <> Some (v_props v).
Proof.
  intros Hcg Hok Htree Haudio Hv Ht Ho Hpop Hu Hl Hp Ha Hg Hne Hbefore.
  eexists. split; [by apply addPropertiesToMain_run|].
  pose proof (normalized_nested resolveUrl isAudioOnly _ Hcg base s (v_props v) Hok Htree)
    as Hnested.
  destruct (normalized_facts resolveUrl isAudioOnly _ Hcg base s Hok Htree)
    as (_ & Hel & _ & _ & _ & _ & Hleaves & _ & Hnm).
  set (s' := normalized _ _ _ base s) in *.
  specialize (Hleaves v o Hv Ho). unfold leaf_outcome in Hleaves.
  rewrite Hpop, Haudio in Hleaves.
  rewrite (suppressed_intro v s o l p a Ht Hu Hl Hp Ha Hg Hne) in Hleaves.
  split; [done|].
  assert (Hleaf : v_props v ∈ leaf_locs s) by by apply list_elem_of_fmap_2.
  assert (Hlt : v_props v < length (heap s)) by by eapply lookup_lt_Some.
  assert (Htl : top_locs s' = top_locs s) by (unfold top_locs; by rewrite Hel).
  unfold tree_shaped in Htree. apply NoDup_app in Htree as (_ & Htops & Hrest).
  apply NoDup_app in Hrest as (_ & Hsub & _).
  assert (Hnot : v_props v ∉ nested_locs s' ++ reverse (top_locs s')).
  { rewrite elem_of_app, elem_of_reverse, Htl. intros [Hin|Hin].
    - destruct (Hnested Hin) as [Hin'|Hge]; [by apply (Hsub _ Hleaf) | lia].
    - apply (Htops _ Hin). apply elem_of_app. by left. }
  intros k Hk. unfold at_key in Hk. destruct (array_index k) as [n|].
  - apply Hnot. apply elem_of_app. right. apply elem_of_reverse.
    apply elem_of_top_locs. unfold at_index in Hk. fold (elems_of s') in Hk.
    destruct (elems_of s' !! n) as [e|] eqn:E; [|done]. simpl in Hk. subst e.
    by eapply list_elem_of_lookup_2.
  - fold (named_of s') in Hk. rewrite all_entries_placed in Hnm.
    destruct (registered_only s' _ _ k _ Hnm Hk) as [Hin|Hin]; [done|].
    by apply (Hbefore k).
Qed.

(** Lines 314-326 as a relation between the sub-playlist [o] found at
    index [j] and the sub-playlist [o'] left there. *)
Definition uri_rule (resolveUrl : option string -> option string -> string)
    (createGroupID : string -> string -> string -> object -> string)
    (base : string) (v : visit) (j : nat) (o o' : object) : Prop :=
  let groupId := createGroupID (v_type v) (v_group v) (v_label v) o in
  if truthy (uri o) then
    uri o' = uri o /\
    resolvedUri o' = if truthy (resolvedUri o) then resolvedUri o
                     else Some (resolveUrl (Some base) (uri o))
  else
    uri o' = Some (if decide (j = 0) then groupId
                   else createPlaylistID j (Some groupId)) /\
    resolvedUri o' = uri o'.

Lemma sub_of_uri_rule resolveUrl createGroupID base v j o :
  uri_rule resolveUrl createGroupID base v j o
    (sub_of resolveUrl createGroupID v (Some base) j o).
Proof.
  unfold uri_rule. cbv zeta. destruct (truthy (uri o)) eqn:Hu.
  - split; [by apply sub_of_uri_kept|].
    rewrite sub_of_resolvedUri, Hu. done.
  - rewrite sub_of_resolvedUri, Hu. split; [by apply sub_of_uri_placeholder | done].
Qed.

(** C6, on a document that is [ok] and [tree_shaped]: no id, uri or group
    id is ["length"] or an array index, every reference is to an object,
    and top-level playlists, rendition descriptors and nested playlists are
    distinct objects.  After [addPropertiesToMain], every nested playlist
    of a rendition has the uri and resolvedUri of lines 314-326: without a
    uri of its own it gets the group id at index 0 and [createPlaylistID]
    of index and group id elsewhere, and that placeholder as resolvedUri;
    with a uri of its own it keeps it, and its resolvedUri is resolved
    against the base uri only if it had none.  The same holds of the copy
    that line 307 makes of a rendition without nested playlists. *)
Theorem nested_playlist_uri_rule
    (resolveUrl : option string -> option string -> string)
    (isAudioOnly : list object -> main -> bool) base createGroupID s v o :
  safe_ids (default groupID createGroupID) -> ok s -> tree_shaped s ->
  v ∈ visits (doc s) -> heap s !! v_props v = Some o ->
  exists s', addPropertiesToMain resolveUrl isAudioOnly base createGroupID s
               = Some (tt, s') /\
    (forall j p oj, refs_of o !! j = Some p -> heap s !! p = Some oj ->
       exists o', heap s' !! p = Some o' /\
                  uri_rule resolveUrl (default groupID createGroupID) base v j oj o') /\
    (populated o = false ->
     suppressed (audio_only_main isAudioOnly base s) v s o = false ->
       exists r p o', heap s' !! v_props v = Some r /\ playlists r = Some [p] /\
                      heap s' !! p = Some o' /\
                      uri_rule resolveUrl (default groupID createGroupID) base v 0 o o').
Proof.
  intros Hcg Hok Htree Hv Ho.
  eexists. split; [by apply addPropertiesToMain_run|].
  destruct (normalized_facts resolveUrl isAudioOnly _ Hcg base s Hok Htree)
    as (_ & _ & _ & _ & _ & _ & Hleaves & _).
  specialize (Hleaves v o Hv Ho). unfold leaf_outcome in Hleaves.
  destruct (populated o) eqn:Hpop.
  - destruct Hleaves as [_ Hsub]. split; [|done].
    intros j p oj Hp Hoj. eexists. split; [by apply (Hsub j p oj)|].
    apply sub_of_uri_rule.
  - split.
    { intros j p oj Hp. by rewrite (refs_of_populated _ Hpop) in Hp. }
    intros _ Hsup. rewrite Hsup in Hleaves. destruct Hleaves as (p & _ & Hself & Hsub).
    eexists _, p, _. split; [exact Hself|]. split.
    { unfold resolved. by destruct (truthy _). }
    split; [exact Hsub|]. apply sub_of_uri_rule.
Qed.

(** C7, as far as it holds, on a document that is [ok] and [tree_shaped]:
    no id, uri or group id is ["length"] or an array index, every reference
    is to an object, and top-level playlists, rendition descriptors and
    nested playlists are distinct objects.  [addPropertiesToMain] gives
    every top-level playlist the id [createPlaylistID] of its index and
    uri, whatever id it had; a nested playlist with a truthy id, and every
    rendition descriptor, keeps its id. *)
Theorem ids_after_normalization
    (resolveUrl : option string -> option string -> string)
    (isAudioOnly : list object -> main -> bool) base createGroupID s :
  safe_ids (default groupID createGroupID) -> ok s -> tree_shaped s ->
  exists s', addPropertiesToMain resolveUrl isAudioOnly base createGroupID s
               = Some (tt, s') /\
    (forall i l, top_locs s !! i = Some l ->
       exists o', heap s' !! l = Some o' /\ id o' = Some (createPlaylistID i (uri o'))) /\
    (forall v o, v ∈ visits (doc s) -> heap s !! v_props v = Some o ->
       (exists o', heap s' !! v_props v = Some o' /\ id o' = id o) /\
       (forall j p oj, refs_of o !! j = Some p -> heap s !! p = Some oj ->
          truthy (id oj) = true ->
          exists o', heap s' !! p = Some o' /\ id o' = id oj)).
Proof.
  intros Hcg Hok Htree.
  eexists. split; [by apply addPropertiesToMain_run|].
  destruct (normalized_facts resolveUrl isAudioOnly _ Hcg base s Hok Htree)
    as (_ & _ & _ & _ & _ & Htops & Hleaves & _).
  split.
  - intros i l Hl. destruct (ok_top_lookup _ _ _ Hok Hl) as [_ Hlt].
    destruct (lookup_lt_is_Some_2 _ _ Hlt) as [o Ho].
    eexists. split; [by apply (Htops i l o)|].
    by rewrite top_setup_id, top_setup_uri.
  - intros v o Hv Ho. specialize (Hleaves v o Hv Ho). unfold leaf_outcome in Hleaves.
    assert (Hid : forall b o1, id (resolved resolveUrl b o1) = id o1).
    { intros b o1. unfold resolved. by destruct (truthy _). }
    destruct (populated o) eqn:Hpop.
    + destruct Hleaves as [Hself Hsub]. split.
      * eexists. split; [exact Hself|]. apply Hid.
      * intros j p oj Hp Hoj Hidj. eexists. split; [by apply (Hsub j p oj)|].
        by apply sub_of_id_kept.
    + split.
      * destruct (suppressed _ v s o); [by exists o|].
        destruct Hleaves as (p & _ & Hself & _). eexists. split; [exact Hself|].
        by rewrite Hid.
      * intros j p oj Hp. by rewrite (refs_of_populated _ Hpop) in Hp.
Qed.

(** C8, for every uri but ["length"], on which the assignment of line 260
    throws.  [mainForMedia] returns a document with a new playlist, found
    at index 0, under its id [createPlaylistID 0 uri] and under the uri;
    no element of [playlists] is another playlist, and [playlists] has
    this one element unless the uri is an array index; the playlist has
    the uri as uri and resolvedUri and an empty attributes object; the
    media groups are the four empty ones, and uri and resolvedUri of the
    document are the location. *)
Theorem mainForMedia_wraps href media u s :
  u <> "length" ->
  exists m s' p,
    mainForMedia href media u s = Some (m, s') /\
    heap s !! p = None /\
    heap s' !! p = Some (Object (Some u) (Some (createPlaylistID 0 (Some u))) (Some u)
                                (Some no_attrs) None None []) /\
    at_index (main_playlists m) 0 = Some p /\
    at_key (main_playlists m) (createPlaylistID 0 (Some u)) = Some p /\
    at_key (main_playlists m) u = Some p /\
    (forall i q, at_index (main_playlists m) i = Some q -> q = p) /\
    (array_index u = None -> elems (main_playlists m) = [Some p]) /\
    mediaGroups m
      = Some [("AUDIO", []); ("VIDEO", []); ("CLOSED-CAPTIONS", []); ("SUBTITLES", [])] /\
    main_uri m = Some href /\ main_resolvedUri m = Some href.
Proof.
  intros Hne.
  destruct (mainForMedia_run href media u s Hne)
    as (m & Hrun & H0 & Hid & Huri & Hall & Hone & Hu & Hr & Hmg).
  exists m, (State (heap s ++ [wrapped u]) (doc s) (console s)), (length (heap s)).
  split; [done|]. split; [by apply lookup_ge_None_2|].
  split; [simpl; by rewrite lookup_app_r, Nat.sub_diag|].
  done.
Qed.


(** X1.  [addPropertiesToMain] returns: it throws on no document whose
    playlists array has no hole, whose references point to objects, and
    whose ids, uris and group ids are neither ["length"] nor array
    indices. *)
Theorem addPropertiesToMain_returns
    (resolveUrl : option string -> option string -> string)
    (isAudioOnly : list object -> main -> bool) base createGroupID s :
  safe_ids (default groupID createGroupID) -> ok s ->
  exists s', addPropertiesToMain resolveUrl isAudioOnly base createGroupID s
               = Some (tt, s').
Proof. intros Hcg Hok. eexists. by apply addPropertiesToMain_run. Qed.

(** X2.  On a document that is [ok] and [tree_shaped] (no id, uri or group
    id is ["length"] or an array index, every reference is to an object,
    top-level playlists, rendition descriptors and nested playlists are
    distinct objects): after [addPropertiesToMain] the main object has the
    uri it was called with, the elements of [playlists] and the media
    groups it had, and the top-level playlist at index [i] has: its uri, or
    ["placeholder-uri-i"] if it had none; the id [createPlaylistID] of [i]
    and that uri; that uri resolved against the base as resolvedUri; no
    playlist errors; its attributes, or an empty attributes object. *)
Theorem top_level_playlists_set_up
    (resolveUrl : option string -> option string -> string)
    (isAudioOnly : list object -> main -> bool) base createGroupID s :
  safe_ids (default groupID createGroupID) -> ok s -> tree_shaped s ->
  exists s', addPropertiesToMain resolveUrl isAudioOnly base createGroupID s
               = Some (tt, s') /\
    main_uri (doc s') = Some base /\
    elems (main_playlists (doc s')) = elems (main_playlists (doc s)) /\
    mediaGroups (doc s') = mediaGroups (doc s) /\
    forall i l o, top_locs s !! i = Some l -> heap s !! l = Some o ->
      exists o', heap s' !! l = Some o' /\
        uri o' = (if truthy (uri o) then uri o
                  else Some ("placeholder-uri-" ++ index_to_string i)%string) /\
        id o' = Some (createPlaylistID i (uri o')) /\
        resolvedUri o' = Some (resolveUrl (Some base) (uri o')) /\
        playlistErrors_ o' = Some (num 0) /\
        attributes o' = Some (default no_attrs (attributes o)) /\
        playlists o' = playlists o /\ other o' = other o.
Proof.
  intros Hcg Hok Htree.
  eexists. split; [by apply addPropertiesToMain_run|].
  destruct (normalized_facts resolveUrl isAudioOnly _ Hcg base s Hok Htree)
    as (_ & Hel & Huri & Hmg & _ & Htops & _).
  split; [done|]. split; [done|]. split; [done|].
  intros i l o Hl Ho. eexists. split; [by apply (Htops i l o)|].
  unfold top_setup, media_playlist, phony. by destruct (truthy (uri o)).
Qed.

(** X3.  After [addPropertiesToMain] a rendition descriptor with a uri has
    that uri, and as resolvedUri that uri resolved against the base
    (lines 219-221). *)
Theorem rendition_uri_resolved
    (resolveUrl : option string -> option string -> string)
    (isAudioOnly : list object -> main -> bool) base createGroupID s v o :
  safe_ids (default groupID createGroupID) -> ok s -> tree_shaped s ->
  v ∈ visits (doc s) -> heap s !! v_props v = Some o -> truthy (uri o) = true ->
  exists s', addPropertiesToMain resolveUrl isAudioOnly base createGroupID s
               = Some (tt, s') /\
    exists o', heap s' !! v_props v = Some o' /\ uri o' = uri o /\
               resolvedUri o' = Some (resolveUrl (Some base) (uri o)).
Proof.
  intros Hcg Hok Htree Hv Ho Hu.
  eexists. split; [by apply addPropertiesToMain_run|].
  destruct (normalized_facts resolveUrl isAudioOnly _ Hcg base s Hok Htree)
    as (_ & _ & _ & _ & _ & _ & Hleaves & _).
  specialize (Hleaves v o Hv Ho). unfold leaf_outcome in Hleaves.
  assert (Hres : forall o1, uri o1 = uri o ->
            uri (resolved resolveUrl (Some base) o1) = uri o /\
            resolvedUri (resolved resolveUrl (Some base) o1)
              = Some (resolveUrl (Some base) (uri o))).
  { intros o1 Ho1. unfold resolved. rewrite Ho1, Hu. simpl. by rewrite Ho1. }
  destruct (populated o).
  - destruct Hleaves as [Hself _]. eexists. split; [exact Hself|]. by apply Hres.
  - destruct (suppressed _ v s o) eqn:Hsup.
    + apply suppressed_falsy in Hsup. congruence.
    + destruct Hleaves as (p & _ & Hself & _). eexists. split; [exact Hself|].
      by apply Hres.
Qed.

(** ** The sample documents *)

#[local] Instance safe_key_dec k : Decision (safe_key k).
Proof. unfold safe_key. apply _. Defined.

#[local] Instance safe_object_dec o : Decision (safe_object o).
Proof. unfold safe_object. apply _. Defined.

Ltac by_computation := apply (bool_decide_unpack _); vm_compute; exact I.

Ltac valid_tops :=
  vm_compute; repeat (constructor; [eexists; split; [reflexivity | lia] |]); constructor.


Ltac sample_ok := split; [by_computation | by_computation | valid_tops | by_computation].
Ltac sample_tree_shaped := unfold tree_shaped; by_computation.

Lemma variants_ok : ok Samples.variants.
Proof. sample_ok. Qed.

Lemma variants_tree_shaped : tree_shaped Samples.variants.
Proof. sample_tree_shaped. Qed.

Lemma preassigned_ok : ok Samples.preassigned.
Proof. sample_ok. Qed.

(** ** Inputs on which the properties hold, and inputs on which the
    properties as first stated fail *)

(** Two variants with the same uri, in a document that is otherwise as
    the passes expect it: the second is found under its id, but its uri
    gives the first. *)
Lemma same_uri_gives_first_variant :
  ok Samples.twins /\ tree_shaped Samples.twins /\
  exists s' o, setupMediaPlaylists Samples.join_url Samples.twins = Some (tt, s') /\
               heap s' !! 1 = Some o /\
               lookup_key s' (id o) = Some 1 /\ lookup_key s' (uri o) = Some 0.
Proof.
  split; [sample_ok|]. split; [sample_tree_shaped|].
  eexists _, _. split; [vm_compute; reflexivity|].
  split; [vm_compute; reflexivity|]. by vm_compute.
Qed.

Lemma playlists_registered_under_both_keys_witness :
  (exists s', addPropertiesToMain Samples.join_url (Samples.always false) "http://x" None
                Samples.variants = Some (tt, s') /\
     placed s' = [0; 1; 7; 8; 5; 6] /\
     forall l, l ∈ placed s' ->
       exists o, heap s' !! l = Some o /\
                 lookup_key s' (id o) = Some l /\ lookup_key s' (uri o) = Some l) /\
  (exists s', setupMediaPlaylists Samples.join_url Samples.twins = Some (tt, s') /\
     at_key (main_playlists (doc s')) "a.m3u8" = Some 0 /\
     at_key (main_playlists (doc s')) "0-a.m3u8" = Some 0 /\
     at_key (main_playlists (doc s')) "1-a.m3u8" = Some 1) /\
  (exists m s' p o, mainForMedia "http://x/a.m3u8" 0 "a.m3u8" Samples.empty_state
                      = Some (m, s') /\
     at_index (main_playlists m) 0 = Some p /\ heap s' !! p = Some o /\
     at_key (main_playlists m) (ToString (id o)) = Some p /\
     at_key (main_playlists m) (ToString (uri o)) = Some p).
Proof.
  destruct (playlists_registered_under_both_keys Samples.join_url (Samples.always false))
    as (Hsetup & Hall & Hwrap).
  split; [|split].
  - destruct (Hall "http://x" None Samples.variants groupID_safe_ids variants_ok
                variants_tree_shaped) as (s' & Hrun & Hkeys & _).
    exists s'. split; [exact Hrun|].
    assert (Hun : Forall (fun l => unsharedb s' (placed s') l = true) (placed s')).
    { vm_compute in Hrun. injection Hrun as <-. by_computation. }
    split; [vm_compute in Hrun; injection Hrun as <-; reflexivity|].
    intros l Hl. destruct (Hkeys l Hl) as (o & Ho & Hboth).
    exists o. split; [exact Ho|]. apply Hboth. apply unsharedb_unshared.
    rewrite Forall_forall in Hun. apply Hun. exact Hl.
  - assert (Hok : ok Samples.twins) by sample_ok.
    destruct (Hsetup Samples.twins Hok) as (s' & Hrun & _ & Hfirst).
    { by_computation. }
    exists s'. split; [exact Hrun|].
    vm_compute in Hrun. injection Hrun as <-.
    split; [|split].
    + apply Hfirst. exists 0. eexists. split; [reflexivity|]. split; [reflexivity|].
      split; [by_computation|]. intros j l' o' Hj. lia.
    + apply Hfirst. exists 0. eexists. split; [reflexivity|]. split; [reflexivity|].
      split; [by_computation|]. intros j l' o' Hj. lia.
    + apply Hfirst. exists 1. eexists. split; [reflexivity|]. split; [reflexivity|].
      split; [by_computation|]. intros j l' o' Hj Hl' Ho'.
      destruct j as [|j]; [|lia]. vm_compute in Hl'. injection Hl' as <-.
      vm_compute in Ho'. injection Ho' as <-. by_computation.
  - apply (Hwrap "http://x/a.m3u8" 0 "a.m3u8" Samples.empty_state). discriminate.
Defined.

(** An audio group with the empty key, in an audio-only document that is
    otherwise as the passes expect it: the rendition, which has no uri and
    no nested playlists, gets a nested playlist although the AUDIO
    attribute of the variant equals its group key. *)
Lemma empty_group_key_is_synthesized :
  ok Samples.unnamed_group /\ tree_shaped Samples.unnamed_group /\
  (AUDIO <$> (heap Samples.unnamed_group !! 0 ≫= attributes)) = Some (Some "") /\
  visits (doc Samples.unnamed_group) = [Visit 1 "AUDIO" "" "en"] /\
  heap Samples.unnamed_group !! 1 = Some Samples.bare /\
  exists s' o', addPropertiesToMain Samples.join_url (Samples.always true) "http://x" None
                  Samples.unnamed_group = Some (tt, s') /\
                heap s' !! 1 = Some o' /\ playlists o' = Some [2].
Proof.
  split; [sample_ok|]. split; [sample_tree_shaped|].
  split; [reflexivity|]. split; [reflexivity|]. split; [reflexivity|].
  eexists _, _. split; [vm_compute; reflexivity|]. by vm_compute.
Qed.

Lemma audio_only_rendition_not_synthesized_witness :
  ok Samples.variants /\ tree_shaped Samples.variants /\
  exists s', addPropertiesToMain Samples.join_url (Samples.always true) "http://x" None
               Samples.variants = Some (tt, s') /\
    exists o', heap s' !! 2 = Some o' /\ playlists o' = None /\ populated o' = false.
Proof.
  split; [exact variants_ok|]. split; [exact variants_tree_shaped|].
  apply (audio_only_rendition_not_synthesized Samples.join_url (Samples.always true)
           "http://x" None Samples.variants (Visit 2 "AUDIO" "aud" "en") Samples.bare 0
           (Samples.in_audio_group "aud" (Samples.playlist_with_uri "video.m3u8"))
           (Attrs (Some "aud") (Some (num 1)) [])); try reflexivity.
  - exact groupID_safe_ids.
  - exact variants_ok.
  - exact variants_tree_shaped.
  - vm_compute. constructor.
  - vm_compute. constructor.
  - discriminate.
Defined.

Lemma suppressed_rendition_untouched_witness :
  ok Samples.variants /\ tree_shaped Samples.variants /\
  exists s', addPropertiesToMain Samples.join_url (Samples.always true) "http://x" None
               Samples.variants = Some (tt, s') /\
    heap s' !! 2 = Some Samples.bare /\
    forall k, at_key (main_playlists (doc s')) k <> Some 2.
Proof.
  split; [exact variants_ok|]. split; [exact variants_tree_shaped|].
  apply (suppressed_rendition_untouched Samples.join_url (Samples.always true)
           "http://x" None Samples.variants (Visit 2 "AUDIO" "aud" "en") Samples.bare 0
           (Samples.in_audio_group "aud" (Samples.playlist_with_uri "video.m3u8"))
           (Attrs (Some "aud") (Some (num 1)) [])); try reflexivity.
  - exact groupID_safe_ids.
  - exact variants_ok.
  - exact variants_tree_shaped.
  - vm_compute. constructor.
  - vm_compute. constructor.
  - discriminate.
  - intros k. unfold named_of. simpl. by rewrite lookup_empty.
Defined.

Lemma nested_playlist_uri_rule_witness :
  ok Samples.variants /\ tree_shaped Samples.variants /\
  exists s' o5 o6,
    addPropertiesToMain Samples.join_url (Samples.always false) "http://x" None
      Samples.variants = Some (tt, s') /\
    heap s' !! 5 = Some o5 /\ heap s' !! 6 = Some o6 /\
    uri o5 = Some "placeholder-uri-SUBTITLES-subs-en" /\ resolvedUri o5 = uri o5 /\
    uri o6 = Some "sub2.m3u8" /\ resolvedUri o6 = Some "http://x/sub2.m3u8".
Proof.
  split; [exact variants_ok|]. split; [exact variants_tree_shaped|].
  destruct (nested_playlist_uri_rule Samples.join_url (Samples.always false) "http://x"
              None Samples.variants (Visit 4 "SUBTITLES" "subs" "en")
              (set_playlists Samples.bare (Some [5; 6])))
    as (s' & Hrun & Hsub & _).
  - exact groupID_safe_ids.
  - exact variants_ok.
  - exact variants_tree_shaped.
  - vm_compute. repeat constructor.
  - reflexivity.
  - destruct (Hsub 0 5 _ eq_refl eq_refl) as (o5 & H5 & [Hu5 Hr5]).
    destruct (Hsub 1 6 _ eq_refl eq_refl) as (o6 & H6 & [Hu6 Hr6]).
    vm_compute in Hu5, Hu6, Hr6.
    exists s', o5, o6.
    split; [exact Hrun|]. split; [exact H5|]. split; [exact H6|].
    split; [exact Hu5|]. split; [exact Hr5|]. split; [exact Hu6 | exact Hr6].
Defined.

(** In a document of distinct objects, the nested playlist with the uri
    ["0"] takes the place of the variant at index 0, and
    [setupMediaPlaylists] sets it up as a top-level playlist: it resolves
    the uri again and computes a new id. *)
Lemma numeric_uri_resolved_again :
  tree_shaped MoreSamples.numeric_uri /\
  visits (doc MoreSamples.numeric_uri) = [Visit 1 "AUDIO" "aud" "a"] /\
  (refs_of <$> heap MoreSamples.numeric_uri !! 1) = Some [2] /\
  heap MoreSamples.numeric_uri !! 2
    = Some (Object (Some "0") (Some "own-id") (Some "http://cdn/0") None None None []) /\
  exists s' o', addPropertiesToMain Samples.join_url (Samples.always false) "http://x" None
                  MoreSamples.numeric_uri = Some (tt, s') /\
                heap s' !! 2 = Some o' /\ uri o' = Some "0" /\
                resolvedUri o' = Some "http://x/0" /\ id o' = Some "0-0".
Proof.
  split; [sample_tree_shaped|].
  split; [reflexivity|]. split; [reflexivity|]. split; [reflexivity|].
  eexists _, _. split; [vm_compute; reflexivity|]. by vm_compute.
Qed.

(** In a document of distinct objects, the rendition [aud/b] meets the
    conditions of lines 293-302 when [addPropertiesToMain] is called, but
    by the time the loop reaches it the nested playlist of [aud/a], whose
    uri is ["0"], has taken the place of the variant at index 0: the
    rendition gets a nested playlist, and the playlist is registered. *)
Lemma displaced_variant_not_suppressed :
  tree_shaped MoreSamples.displaced /\
  audio_only_main (Samples.always true) "http://x" MoreSamples.displaced = true /\
  visits (doc MoreSamples.displaced)
    = [Visit 1 "AUDIO" "aud" "a"; Visit 3 "AUDIO" "aud" "b"] /\
  heap MoreSamples.displaced !! 3 = Some Samples.bare /\
  0 ∈ top_locs MoreSamples.displaced /\
  (AUDIO <$> (heap MoreSamples.displaced !! 0 ≫= attributes)) = Some (Some "aud") /\
  named_of MoreSamples.displaced = ∅ /\
  exists s' o', addPropertiesToMain Samples.join_url (Samples.always true) "http://x" None
                  MoreSamples.displaced = Some (tt, s') /\
                heap s' !! 3 = Some o' /\ playlists o' = Some [4] /\
                at_key (main_playlists (doc s')) "placeholder-uri-AUDIO-aud-b" = Some 4 /\
                at_index (main_playlists (doc s')) 0 = Some 2.
Proof.
  split; [sample_tree_shaped|].
  split; [reflexivity|]. split; [reflexivity|]. split; [reflexivity|].
  split; [by_computation|]. split; [reflexivity|]. split; [reflexivity|].
  eexists _, _. split; [vm_compute; reflexivity|]. by vm_compute.
Qed.

(** A variant that comes with the id ["custom"], in a document that is
    otherwise as the passes expect it, leaves with the id ["0-a.m3u8"]. *)
Lemma top_level_id_recomputed :
  ok Samples.preassigned /\ tree_shaped Samples.preassigned /\
  (id <$> heap Samples.preassigned !! 0) = Some (Some "custom") /\
  exists s' o', addPropertiesToMain Samples.join_url (Samples.always false) "http://x" None
                  Samples.preassigned = Some (tt, s') /\
                heap s' !! 0 = Some o' /\ id o' = Some "0-a.m3u8".
Proof.
  split; [exact preassigned_ok|]. split; [sample_tree_shaped|].
  split; [reflexivity|].
  eexists _, _. split; [vm_compute; reflexivity|]. by vm_compute.
Qed.

Lemma ids_after_normalization_witness :
  ok Samples.variants /\ tree_shaped Samples.variants /\
  exists s' o0 o6,
    addPropertiesToMain Samples.join_url (Samples.always false) "http://x" None
      Samples.variants = Some (tt, s') /\
    heap s' !! 0 = Some o0 /\ id o0 = Some (createPlaylistID 0 (uri o0)) /\
    heap s' !! 6 = Some o6 /\ id o6 = Some "own-id".
Proof.
  split; [exact variants_ok|]. split; [exact variants_tree_shaped|].
  destruct (ids_after_normalization Samples.join_url (Samples.always false) "http://x"
              None Samples.variants groupID_safe_ids variants_ok variants_tree_shaped)
    as (s' & Hrun & Htops & Hleaves).
  destruct (Htops 0 0 eq_refl) as (o0 & H0 & Hid0).
  destruct (Hleaves (Visit 4 "SUBTITLES" "subs" "en")
              (set_playlists Samples.bare (Some [5; 6]))) as [_ Hsub].
  { vm_compute. repeat constructor. }
  { reflexivity. }
  destruct (Hsub 1 6 _ eq_refl eq_refl eq_refl) as (o6 & H6 & Hid6).
  vm_compute in Hid6.
  exists s', o0, o6.
  split; [exact Hrun|]. split; [exact H0|]. split; [exact Hid0|].
  split; [exact H6 | exact Hid6].
Defined.

(** The uri ["length"]: line 260 assigns to the length of the array. *)
Lemma mainForMedia_throws_on_length :
  mainForMedia "http://here/" 0 "length" Samples.empty_state = None.
Proof. reflexivity. Qed.

Lemma mainForMedia_wraps_witness :
  exists m s',
    mainForMedia "http://here/" 0 "http://x/a.m3u8" Samples.empty_state = Some (m, s') /\
    at_index (main_playlists m) 0 = Some 0 /\
    at_key (main_playlists m) "0-http://x/a.m3u8" = Some 0 /\
    at_key (main_playlists m) "http://x/a.m3u8" = Some 0 /\
    elems (main_playlists m) = [Some 0].
Proof.
  destruct (mainForMedia_wraps "http://here/" 0 "http://x/a.m3u8" Samples.empty_state)
    as (m & s' & p & Hrun & Hnew & Hp & H0 & Hid & Huri & _ & Hone & _).
  { discriminate. }
  assert (p = 0) as ->.
  { vm_compute in Hrun. injection Hrun as <- <-. vm_compute in H0. by injection H0. }
  exists m, s'. split; [exact Hrun|]. split; [exact H0|]. split; [exact Hid|].
  split; [exact Huri|]. apply Hone. reflexivity.
Defined.



Lemma addPropertiesToMain_returns_witness :
  ok Samples.variants /\
  exists s', addPropertiesToMain Samples.join_url (Samples.always false) "http://x" None
               Samples.variants = Some (tt, s').
Proof.
  split; [exact variants_ok|].
  exact (addPropertiesToMain_returns Samples.join_url (Samples.always false) "http://x"
           None Samples.variants groupID_safe_ids variants_ok).
Defined.

Lemma top_level_playlists_set_up_witness :
  ok Samples.variants /\ tree_shaped Samples.variants /\
  exists s' o1,
    addPropertiesToMain Samples.join_url (Samples.always false) "http://x" None
      Samples.variants = Some (tt, s') /\
    heap s' !! 1 = Some o1 /\
    uri o1 = Some "placeholder-uri-1" /\ id o1 = Some "1-placeholder-uri-1" /\
    resolvedUri o1 = Some "http://x/placeholder-uri-1".
Proof.
  split; [exact variants_ok|]. split; [exact variants_tree_shaped|].
  destruct (top_level_playlists_set_up Samples.join_url (Samples.always false) "http://x"
              None Samples.variants groupID_safe_ids variants_ok variants_tree_shaped)
    as (s' & Hrun & _ & _ & _ & Htops).
  destruct (Htops 1 1 _ eq_refl eq_refl) as (o1 & H1 & Hu & Hid & Hr & _).
  rewrite Hu in Hid. rewrite Hu in Hr. vm_compute in Hu, Hid, Hr.
  exists s', o1.
  split; [exact Hrun|]. split; [exact H1|]. split; [exact Hu|].
  split; [exact Hid | exact Hr].
Defined.

Lemma rendition_uri_resolved_witness :
  ok Samples.variants /\ tree_shaped Samples.variants /\
  exists s' o3,
    addPropertiesToMain Samples.join_url (Samples.always false) "http://x" None
      Samples.variants = Some (tt, s') /\
    heap s' !! 3 = Some o3 /\
    uri o3 = Some "fr.m3u8" /\ resolvedUri o3 = Some "http://x/fr.m3u8".
Proof.
  split; [exact variants_ok|]. split; [exact variants_tree_shaped|].
  destruct (rendition_uri_resolved Samples.join_url (Samples.always false) "http://x"
              None Samples.variants (Visit 3 "AUDIO" "aud" "fr")
              (Samples.playlist_with_uri "fr.m3u8"))
    as (s' & Hrun & o3 & H3 & Hu & Hr).
  - exact groupID_safe_ids.
  - exact variants_ok.
  - exact variants_tree_shaped.
  - vm_compute. repeat constructor.
  - reflexivity.
  - reflexivity.
  - vm_compute in Hu, Hr. exists s', o3.
    split; [exact Hrun|]. split; [exact H3|]. split; [exact Hu | exact Hr].
Defined.

End MainProps.

(** * Further properties of [parseManifest] *)

Module ParseEffects.
Import Manifest ManifestProps.

(** ** More properties of [parseManifest] *)

Lemma Math_max_NaN_l x : Math_max NaN x = NaN.
Proof. done. Qed.

Lemma Math_max_NaN_r x : Math_max x NaN = NaN.
Proof. by destruct x. Qed.

Lemma foldl_max_NaN_acc xs : foldl Math_max NaN xs = NaN.
Proof. induction xs as [|x xs IH]; [done|]. simpl. apply IH. Qed.

(** [NaN] absorbs the reduction of line 92. *)
Lemma foldl_max_NaN xs a : NaN ∈ xs -> foldl Math_max a xs = NaN.
Proof.
  revert a. induction xs as [|x xs IH]; intros a H; [by inversion H|].
  apply elem_of_cons in H as [<-|H]; simpl.
  - rewrite Math_max_NaN_r. apply foldl_max_NaN_acc.
  - by apply IH.
Qed.

Section parse_more.
Variable Number_toString : number -> string.

Lemma returned_fields onwarn oninfo run llhls :
  let m1 := if negb llhls then strip_llhls (parser_manifest run) else parser_manifest run in
  let m' := returned (parseManifest Number_toString onwarn oninfo run llhls) in
  segments m' = segments m1 /\
  preloadSegment m' = preloadSegment m1 /\ skip m' = skip m1 /\
  serverControl m' = serverControl m1 /\ renditionReports m' = renditionReports m1 /\
  partInf m' = partInf m1 /\
  targetDuration m' = (if truthy_number (targetDuration m1) then targetDuration m1
                       else Some (computed_targetDuration m1)) /\
  (truthy_number (partTargetDuration m1) = true ->
   partTargetDuration m' = partTargetDuration m1).
Proof.
  intros m1 m'. subst m'. rewrite parseManifest_unfold. cbv zeta. fold m1. cbn [returned].
  set (r1 := default_targetDuration Number_toString onwarn m1).
  assert (H1 : fst r1 = (if truthy_number (targetDuration m1) then m1
                         else set_targetDuration m1 (computed_targetDuration m1))).
  { subst r1. destruct (truthy_number (targetDuration m1)) eqn:E.
    - by rewrite default_targetDuration_truthy.
    - by rewrite default_targetDuration_falsy. }
  set (m2 := fst r1) in *.
  assert (H2 : fst (fst (default_partTargetDuration Number_toString onwarn m2)) = m2 \/
               (truthy_number (partTargetDuration m2) = false /\
                exists n, fst (fst (default_partTargetDuration Number_toString onwarn m2))
                          = set_partTargetDuration m2 n)).
  { unfold default_partTargetDuration. cbv zeta.
    destruct (bool_decide (getLastParts m2 <> [])); simpl; [|by left].
    destruct (truthy_number (partTargetDuration m2)) eqn:E; simpl; [by left|].
    right. split; [done|]. by eexists. }
  assert (Hm2 : segments m2 = segments m1 /\
                preloadSegment m2 = preloadSegment m1 /\ skip m2 = skip m1 /\
                serverControl m2 = serverControl m1 /\
                renditionReports m2 = renditionReports m1 /\ partInf m2 = partInf m1 /\
                partTargetDuration m2 = partTargetDuration m1 /\
                targetDuration m2 = (if truthy_number (targetDuration m1)
                                     then targetDuration m1
                                     else Some (computed_targetDuration m1))).
  { rewrite H1. destruct (truthy_number (targetDuration m1)); [done|].
    by destruct m1. }
  destruct Hm2 as (S1 & S2 & S3 & S4 & S5 & S6 & S7 & S8).
  destruct H2 as [->|(Hfalsy & n & ->)].
  - rewrite S1, S2, S3, S4, S5, S6, S7, S8. done.
  - rewrite <- S1, <- S2, <- S3, <- S4, <- S5, <- S6, <- S7, <- S8.
    split; [by destruct m2|]. split; [by destruct m2|]. split; [by destruct m2|].
    split; [by destruct m2|]. split; [by destruct m2|]. split; [by destruct m2|].
    split; [by destruct m2|]. intros Ht. congruence.
Qed.

(** X18.  With [llhls] true [parseManifest] returns the low-latency
    fields and the segments as the parser left them; a truthy
    [targetDuration] and a truthy [partTargetDuration] are returned as
    they are. *)
Theorem parseManifest_keeps_llhls onwarn oninfo run :
  let m := parser_manifest run in
  let m' := returned (parseManifest Number_toString onwarn oninfo run true) in
  preloadSegment m' = preloadSegment m /\ skip m' = skip m /\
  serverControl m' = serverControl m /\ renditionReports m' = renditionReports m /\
  partInf m' = partInf m /\ segments m' = segments m /\
  (truthy_number (targetDuration m) = true -> targetDuration m' = targetDuration m) /\
  (truthy_number (partTargetDuration m) = true ->
   partTargetDuration m' = partTargetDuration m).
Proof.
  intros m m'.
  destruct (returned_fields onwarn oninfo run true)
    as (S1 & S2 & S3 & S4 & S5 & S6 & S7 & S8). simpl in *. fold m m' in S1, S2, S3, S4, S5, S6, S7, S8.
  split; [done|]. split; [done|]. split; [done|]. split; [done|]. split; [done|].
  split; [done|]. split; [|done]. intros Ht. by rewrite Ht in S7.
Qed.

(** X19.  Whatever [llhls] is, [parseManifest] returns as many segments
    as the parser left, in the same order and with the same durations and
    uris, and none when the parser left none: it removes parts and preload
    hints only, and with [llhls] true nothing. *)
Theorem parseManifest_segments onwarn oninfo run llhls :
  let m := parser_manifest run in
  let m' := returned (parseManifest Number_toString onwarn oninfo run llhls) in
  (segments m = None -> segments m' = None) /\
  (forall sg, segments m = Some sg ->
     exists sg', segments m' = Some sg' /\ length sg' = length sg /\
                 seg_duration <$> sg' = seg_duration <$> sg /\
                 seg_uri <$> sg' = seg_uri <$> sg /\
                 (llhls = true -> sg' = sg)).
Proof.
  intros m m'.
  destruct (returned_fields onwarn oninfo run llhls) as (S1 & _).
  fold m m' in S1. rewrite S1. destruct llhls; simpl.
  - split; [done|]. intros sg Hsg. exists sg. by rewrite Hsg.
  - rewrite strip_llhls_segments. fold m. split; [by intros ->|].
    intros sg ->. simpl. eexists. split; [done|].
    rewrite length_fmap. split; [done|].
    rewrite <- !list_fmap_compose.
    split; [|split; [|done]]; apply list_fmap_ext; intros i s _; simpl;
      by destruct (strip_segment_fields s) as (_ & _ & ? & ?).
Qed.

(** X20.  The handlers have no part in the result: [parseManifest]
    returns the same manifest with and without them.  [oninfo] gets the
    parser's info events and nothing of [parseManifest]'s own; without
    [onwarn] nothing is warned and nothing is logged as an error; with it
    the parser's warnings come first and at most two follow. *)
Theorem parseManifest_handlers onwarn oninfo run llhls :
  returned (parseManifest Number_toString onwarn oninfo run llhls)
    = returned (parseManifest Number_toString false false run llhls) /\
  informed (parseManifest Number_toString onwarn oninfo run llhls)
    = (if oninfo then parser_info run else []) /\
  (onwarn = false ->
   warned (parseManifest Number_toString onwarn oninfo run llhls) = [] /\
   log_error (parseManifest Number_toString onwarn oninfo run llhls) = []) /\
  (onwarn = true ->
   exists rest,
     warned (parseManifest Number_toString onwarn oninfo run llhls)
       = (parser_warn run ++ rest)%list /\
                length rest <= 2).
Proof.
  rewrite !parseManifest_unfold. cbv zeta. cbn [returned informed warned log_error].
  set (m1 := if negb llhls then _ else _).
  assert (H1 : forall w, fst (default_targetDuration Number_toString w m1)
                         = fst (default_targetDuration Number_toString false m1)).
  { intros w. unfold default_targetDuration.
    by destruct (negb (truthy_number (targetDuration m1))). }
  assert (H2 : forall w m, fst (fst (default_partTargetDuration Number_toString w m))
                           = fst (fst (default_partTargetDuration Number_toString false m))).
  { intros w m. unfold default_partTargetDuration. cbv zeta.
    by destruct (bool_decide (getLastParts m <> []) &&
                 negb (truthy_number (partTargetDuration m))). }
  split; [by rewrite (H1 onwarn), (H2 onwarn)|]. split; [done|].
  split.
  - intros ->. unfold default_targetDuration, default_partTargetDuration. cbv zeta.
    destruct (negb (truthy_number (targetDuration m1))); simpl;
      by destruct (_ && _).
  - intros ->. eexists. split; [done|].
    unfold default_targetDuration, default_partTargetDuration. cbv zeta.
    destruct (negb (truthy_number (targetDuration m1))); simpl;
      destruct (_ && _); simpl; lia.
Qed.

(** X21.  The default of [targetDuration] at its edges.  When the document
    has segments and no truthy [targetDuration]: if some segment has no
    numeric duration the default is [NaN]; if all durations are numbers it
    is the greatest of 0 and the durations, so 0 when none is positive. *)
Theorem targetDuration_default_edges onwarn oninfo run llhls sg :
  let m := parser_manifest run in
  truthy_number (targetDuration m) = false -> segments m = Some sg -> sg <> [] ->
  let d := targetDuration (returned (parseManifest Number_toString onwarn oninfo run llhls)) in
  (NaN ∈ durations sg -> d = Some NaN) /\
  (Forall is_number (durations sg) ->
   exists r, d = Some r /\ num_leb (num 0) r = true /\
             Forall (fun x => num_leb x r = true) (durations sg) /\
             (r = num 0 \/ r ∈ durations sg)).
Proof.
  intros m Hfalsy Hsg Hne d. subst d.
  destruct (returned_fields onwarn oninfo run llhls) as (_ & _ & _ & _ & _ & _ & S7 & _).
  rewrite S7. clear S7.
  assert (Ht : truthy_number (targetDuration (if negb llhls then strip_llhls m else m))
               = false).
  { destruct llhls; simpl; [done|]. by rewrite strip_llhls_targetDuration. }
  assert (Hc : computed_targetDuration (if negb llhls then strip_llhls m else m)
               = foldl Math_max (num 0) (durations sg)).
  { transitivity (computed_targetDuration m).
    - destruct llhls; simpl; [done|]. apply computed_targetDuration_strip.
    - unfold computed_targetDuration. rewrite Hsg. by destruct sg. }
  fold m. rewrite Ht, Hc. split.
  - intros Hnan. f_equal. by apply foldl_max_NaN.
  - intros Hnum. eexists. split; [done|].
    destruct (foldl_max_bound (durations sg) (num 0)) as (_ & H0 & Hall & Hin);
      [done | done |]. done.
Qed.
End parse_more.

Lemma targetDuration_default_edges_witness :
  truthy_number (targetDuration (parser_manifest MoreSamples.undated_run)) = false /\
  NaN ∈ durations [plain_segment 4; Segment None (Some "s.ts") None None] /\
  targetDuration (returned (parseManifest show_number true false
                              MoreSamples.undated_run true)) = Some NaN.
Proof.
  assert (Hnan : NaN ∈ durations [plain_segment 4; Segment None (Some "s.ts") None None]).
  { vm_compute. repeat constructor. }
  split; [reflexivity|]. split; [exact Hnan|].
  destruct (targetDuration_default_edges show_number true false MoreSamples.undated_run
              true [plain_segment 4; Segment None (Some "s.ts") None None])
    as [Hedge _]; [reflexivity | reflexivity | discriminate |].
  exact (Hedge Hnan).
Defined.

End ParseEffects.

(** * Further properties of the functions on the main object *)

Module MainEffects.
Import Main MainProps.
#[local] Open Scope list_scope.

(** ** Ids and placeholder uris *)

Lemma digit_no_dash x : Ascii.eqb dash (pretty_N_char x) = false.
Proof. unfold pretty_N_char, dash. by repeat case_match. Qed.

Lemma pretty_N_go_no_dash x s :
  has_char dash (pretty_N_go x s) = has_char dash s.
Proof.
  revert s. induction (N.lt_wf_0 x) as [x _ IH]; intros s.
  assert (x = 0 \/ 0 < x)%N as [->|Hx] by lia.
  - by rewrite pretty_N_go_0.
  - rewrite pretty_N_go_step by done. rewrite IH by by apply N.div_lt.
    cbn [has_char]. by rewrite digit_no_dash.
Qed.

(** The decimal numeral of an index has no dash. *)
Lemma index_to_string_no_dash i : has_char dash (index_to_string i) = false.
Proof.
  unfold index_to_string, pretty, pretty_nat, pretty, pretty_N.
  case_decide; [done|]. by rewrite pretty_N_go_no_dash.
Qed.

(** A string is cut at its first dash in one way only. *)
Lemma cut_at_dash (a b x y : string) :
  has_char dash a = false -> has_char dash b = false ->
  (a ++ String dash x = b ++ String dash y)%string -> a = b /\ x = y.
Proof.
  revert b. induction a as [|c a IH]; intros [|d b] Ha Hb H; simpl in *.
  - by injection H as ->.
  - injection H as Hd _. subst d. cbn in Hb. discriminate.
  - injection H as Hc _. subst c. cbn in Ha. discriminate.
  - injection H as -> H.
    apply orb_false_iff in Ha as [_ Ha]. apply orb_false_iff in Hb as [_ Hb].
    destruct (IH b Ha Hb H) as [-> ->]. done.
Qed.

(** X4.  Two ids are equal exactly when they are made from the same index
    and from uris with the same string conversion: a missing uri and the
    uri ["undefined"] give the same id. *)
Theorem createPlaylistID_injective i j u v :
  createPlaylistID i u = createPlaylistID j v <-> i = j /\ ToString u = ToString v.
Proof.
  split; [|intros [-> Hu]; unfold createPlaylistID; by rewrite Hu].
  unfold createPlaylistID. intros H.
  change ("-" ++ ToString u)%string with (String dash (ToString u)) in H.
  change ("-" ++ ToString v)%string with (String dash (ToString v)) in H.
  apply cut_at_dash in H as [Hi Hu]; try apply index_to_string_no_dash.
  split; [|done]. by apply (inj pretty).
Qed.

(** X5.  The default group ids of two renditions are equal only if media
    type, group key and label key are, as long as type and group key have
    no dash; a dash in a group key can make two renditions share the
    placeholder. *)
Theorem groupID_injective :
  (forall t g l p t' g' l' p',
     has_char dash t = false -> has_char dash t' = false ->
     has_char dash g = false -> has_char dash g' = false ->
     groupID t g l p = groupID t' g' l' p' -> t = t' /\ g = g' /\ l = l') /\
  (forall p p', groupID "AUDIO" "a-b" "c" p = groupID "AUDIO" "a" "b-c" p').
Proof.
  split; [|done].
  intros t g l p t' g' l' p' Ht Ht' Hg Hg' H. unfold groupID in H.
  apply (inj (String.app _)) in H.
  change ("-" ++ ?x)%string with (String dash x) in H.
  change (t ++ String dash (g ++ "-" ++ l) = t' ++ String dash (g' ++ "-" ++ l'))%string in H.
  apply cut_at_dash in H as [-> H]; [|done..].
  change (g ++ String dash l = g' ++ String dash l')%string in H.
  by apply cut_at_dash in H as [-> ->].
Qed.

(** ** [forEachMediaGroup] and [setupMediaPlaylist] *)

Lemma elem_of_visits m v :
  v ∈ visits m <->
  (v_type v = "AUDIO" \/ v_type v = "SUBTITLES") /\
  exists mg gs ls, mediaGroups m = Some mg /\ property (v_type v) mg = Some gs /\
                   (v_group v, ls) ∈ gs /\ (v_label v, v_props v) ∈ ls.
Proof.
  unfold visits. destruct (mediaGroups m) as [mg|].
  - rewrite list_elem_of_bind. split.
    + intros (t & Hv & Ht).
      destruct (property t mg) as [gs|] eqn:Hgs; [|by inversion Hv].
      apply list_elem_of_bind in Hv as ([g ls] & Hv & Hg).
      apply list_elem_of_bind in Hv as ([l p] & Hv & Hl).
      apply list_elem_of_singleton in Hv as ->. simpl in *.
      split; [rewrite !elem_of_cons, elem_of_nil in Ht; tauto|].
      exists mg, gs, ls. by rewrite Hgs.
    + intros (Ht & mg' & gs & ls & [= <-] & Hgs & Hg & Hl).
      exists (v_type v). split; [|rewrite !elem_of_cons; tauto].
      rewrite Hgs. apply list_elem_of_bind. exists (v_group v, ls). split; [|done].
      apply list_elem_of_bind. exists (v_label v, v_props v). split; [|done].
      destruct v. simpl. apply list_elem_of_singleton. done.
  - split; [by intros H; inversion H|]. by intros (_ & mg & gs & ls & ? & _).
Qed.

(** X6.  [forEachMediaGroup] calls back once for every rendition of the
    AUDIO groups and then of the SUBTITLES groups, in the order the groups
    and labels are listed, and for no rendition of another media type; it
    throws when a call does, and does nothing on a document without media
    groups.  The callback is one that leaves the media groups in place, as
    those of this file do. *)
Theorem forEachMediaGroup_calls (callback : loc -> string -> string -> string -> M unit) s :
  (forall p t g l s0 s1, callback p t g l s0 = Some (tt, s1) ->
                         mediaGroups (doc s1) = mediaGroups (doc s0)) ->
  forEachMediaGroup callback s
    = for_each (fun v => callback (v_props v) (v_type v) (v_group v) (v_label v))
               (visits (doc s)) s /\
  (forall v, v ∈ visits (doc s) <->
     (v_type v = "AUDIO" \/ v_type v = "SUBTITLES") /\
     exists mg gs ls, mediaGroups (doc s) = Some mg /\
                      property (v_type v) mg = Some gs /\
                      (v_group v, ls) ∈ gs /\ (v_label v, v_props v) ∈ ls) /\
  (mediaGroups (doc s) = None -> forEachMediaGroup callback s = Some (tt, s)).
Proof.
  intros _. split; [apply forEachMediaGroup_visits|].
  split; [intros v; apply elem_of_visits|].
  intros Hmg. rewrite forEachMediaGroup_visits. unfold visits. by rewrite Hmg.
Qed.

Lemma media_playlist_twice u i o :
  media_playlist u i (media_playlist u i o) = media_playlist u i o.
Proof.
  unfold media_playlist. destruct o as [ou oi oru oa op oe oo]. simpl.
  destruct (truthy u); simpl; by destruct oa.
Qed.

(** X7.  [setupMediaPlaylist] throws only when the playlist is no object.
    It sets the id, resets [playlistErrors_] to 0, sets the uri when it is
    given a truthy one and keeps it otherwise, keeps an attributes object
    and adds an empty one when there is none; it changes no other property
    and nothing else, and doing it twice is doing it once. *)
Theorem setupMediaPlaylist_effect playlist u i s :
  (heap s !! playlist = None -> setupMediaPlaylist playlist u i s = None) /\
  (forall o, heap s !! playlist = Some o ->
     exists o',
       setupMediaPlaylist playlist u i s
         = Some (tt, State (<[playlist := o']> (heap s)) (doc s) (console s)) /\
       id o' = Some i /\ playlistErrors_ o' = Some (num 0) /\
       uri o' = (if truthy u then u else uri o) /\
       attributes o' = Some (default no_attrs (attributes o)) /\
       resolvedUri o' = resolvedUri o /\ playlists o' = playlists o /\
       other o' = other o) /\
  (setupMediaPlaylist playlist u i ;; setupMediaPlaylist playlist u i) s
    = setupMediaPlaylist playlist u i s.
Proof.
  split; [|split].
  - intros Hnone. unfold setupMediaPlaylist. by rewrite (bind_fail _ _ _ (load_fail _ _ Hnone)).
  - intros o Ho. exists (media_playlist u i o). split.
    + unfold setupMediaPlaylist. rewrite (bind_run _ _ _ _ _ (load_run _ _ _ Ho)).
      apply store_run. by eapply lookup_lt_Some.
    + unfold media_playlist. simpl. by destruct (truthy u).
  - destruct (heap s !! playlist) as [o|] eqn:Ho.
    + pose proof (lookup_lt_Some _ _ _ Ho) as Hlt.
      assert (Hone : setupMediaPlaylist playlist u i s
                = Some (tt, State (<[playlist := media_playlist u i o]> (heap s))
                                  (doc s) (console s))).
      { unfold setupMediaPlaylist. rewrite (bind_run _ _ _ _ _ (load_run _ _ _ Ho)).
        by apply store_run. }
      rewrite (bind_run _ _ _ _ _ Hone), Hone.
      unfold setupMediaPlaylist.
      rewrite (bind_run _ _ _ (media_playlist u i o)
                 (State (<[playlist := media_playlist u i o]> (heap s)) (doc s) (console s))).
      2:{ apply load_run. simpl. by rewrite list_lookup_insert_eq. }
      rewrite media_playlist_twice. unfold store. simpl.
      rewrite length_insert. rewrite decide_True by done.
      by rewrite list_insert_insert_eq.
    + unfold setupMediaPlaylist at 3.
      rewrite (bind_fail _ _ _ (load_fail _ _ Ho)).
      apply bind_fail. unfold setupMediaPlaylist.
      by rewrite (bind_fail _ _ _ (load_fail _ _ Ho)).
Qed.

(** ** What the passes log and what they leave of the main object *)

Lemma touched_main_resolvedUri t s :
  main_resolvedUri (doc (touched t s)) = main_resolvedUri (doc s).
Proof. unfold touched. destruct (heap s !! t_loc t); [|done]. by destruct (t_reg t). Qed.

Lemma touched_all_main_resolvedUri ts s :
  main_resolvedUri (doc (touched_all ts s)) = main_resolvedUri (doc s).
Proof.
  revert s. induction ts as [|t ts IH]; intros s; [done|].
  cbn [touched_all foldl]. fold (touched_all ts (touched t s)).
  by rewrite IH, touched_main_resolvedUri.
Qed.

(** Touches that register nothing leave the main object as it is. *)
Lemma touched_all_doc ts s :
  Forall (fun t => t_reg t = false) ts -> doc (touched_all ts s) = doc s.
Proof.
  revert s. induction ts as [|t ts IH]; intros s H; [done|].
  inversion H as [|? ? Ht H']; subst.
  cbn [touched_all foldl]. fold (touched_all ts (touched t s)).
  rewrite IH by done. unfold touched. destruct (heap s !! t_loc t); [|done].
  by rewrite Ht.
Qed.

(** Touches that never warn leave the console as it is. *)
Lemma touched_all_silent ts s :
  Forall (fun t => forall o, t_warn t o = None) ts ->
  console (touched_all ts s) = console s.
Proof.
  revert s. induction ts as [|t ts IH]; intros s H; [done|].
  inversion H as [|? ? Ht H']; subst.
  cbn [touched_all foldl]. fold (touched_all ts (touched t s)).
  rewrite IH by done. unfold touched. destruct (heap s !! t_loc t) as [o|]; [|done].
  simpl. by rewrite Ht.
Qed.

(** The warnings of a list of touches, read off the heap they leave. *)
Definition warnings (h : list object) (ts : list touch_spec) : list string :=
  omap (fun t => h !! t_loc t ≫= t_warn t) ts.

Lemma touched_all_console ts s :
  NoDup (t_loc <$> ts) -> Forall (fun t => t_loc t < length (heap s)) ts ->
  console (touched_all ts s) = console s ++ warnings (heap (touched_all ts s)) ts.
Proof.
  revert s. induction ts as [|t ts IH]; intros s Hnd Hv.
  { simpl. by rewrite app_nil_r. }
  change (touched_all (t :: ts) s) with (touched_all ts (touched t s)).
  rewrite fmap_cons in Hnd. apply NoDup_cons in Hnd as [Hnin Hnd].
  inversion Hv as [|? ? Hlt Hv']; subst.
  rewrite IH; [|done|].
  2:{ eapply Forall_impl; [eassumption|]. intros t'. by rewrite touched_length. }
  unfold warnings at 2. cbn [omap list_omap]. fold (warnings (heap (touched_all ts (touched t s))) ts).
  rewrite touched_all_frame by done. rewrite touched_lookup, decide_True by done.
  destruct (lookup_lt_is_Some_2 _ _ Hlt) as [o Ho]. rewrite Ho. simpl.
  unfold touched at 1. rewrite Ho. simpl.
  destruct (t_warn t (t_fun t o)); [|done]. by rewrite <- app_assoc.
Qed.

Lemma omap_fmap {A B C : Type} (f : B -> option C) (g : A -> B) (l : list A) :
  omap f (g <$> l) = omap (fun x => f (g x)) l.
Proof. induction l as [|x l IH]; [done|]. csimpl. by rewrite IH. Qed.

Lemma omap_ext_in {A B : Type} (f g : A -> option B) (l : list A) :
  (forall x, x ∈ l -> f x = g x) -> omap f l = omap g l.
Proof.
  induction l as [|x l IH]; intros H; [done|]. csimpl.
  rewrite (H x) by by left. rewrite IH; [done|]. intros y Hy. apply H. by right.
Qed.

Lemma omap_replicate {A B : Type} (P : A -> bool) (w : B) (l : list A) :
  omap (fun x => if P x then Some w else None) l
    = replicate (length (filter (fun x => P x = true) l)) w.
Proof.
  induction l as [|x l IH]; [done|]. csimpl. rewrite filter_cons.
  destruct (P x) eqn:E.
  - rewrite decide_True by done. csimpl. by rewrite IH.
  - by rewrite decide_False by done.
Qed.

(** The playlist has no truthy BANDWIDTH attribute (line 205). *)
Definition lacks_bandwidth (o : object) : bool :=
  match attributes o with
  | Some a => negb (truthy_number (BANDWIDTH a))
  | None => true
  end.

Definition lacks_bandwidth_at (h : list object) (l : loc) : bool :=
  match h !! l with
  | Some o => lacks_bandwidth o
  | None => false
  end.

(** How many of the playlists [ls] have no truthy BANDWIDTH attribute. *)
Definition without_bandwidth (h : list object) (ls : list loc) : nat :=
  length (filter (fun l => lacks_bandwidth_at h l = true) ls).

Section log.
Variable resolveUrl : option string -> option string -> string.

Lemma bandwidth_check_setup base i o :
  bandwidth_check (top_setup resolveUrl base i o)
    = if lacks_bandwidth o then Some bandwidth_warning else None.
Proof.
  unfold bandwidth_check, lacks_bandwidth, top_setup, media_playlist. simpl.
  by destruct (attributes o).
Qed.

(** The warnings of [setupMediaPlaylists]: one for every top-level
    playlist that had no truthy BANDWIDTH attribute. *)
Lemma top_touches_warnings base tops h h' :
  (forall i l, tops !! i = Some l ->
     h' !! l ≫= bandwidth_check
       = if lacks_bandwidth_at h l then Some bandwidth_warning else None) ->
  warnings h' (top_touches resolveUrl base tops)
    = replicate (without_bandwidth h tops) bandwidth_warning.
Proof.
  intros Hh'. unfold warnings, top_touches. rewrite omap_fmap. simpl.
  rewrite (omap_ext_in _ (fun x => if lacks_bandwidth_at h x.2
                                   then Some bandwidth_warning else None)).
  2:{ intros [i l] Hx. rewrite elem_of_reverse in Hx. apply elem_of_indexed in Hx.
      simpl. by apply (Hh' i l). }
  rewrite <- (omap_fmap (fun l => if lacks_bandwidth_at h l
                                  then Some bandwidth_warning else None) snd).
  rewrite fmap_reverse, indexed_snd, omap_replicate. unfold without_bandwidth.
  by rewrite filter_reverse, length_reverse.
Qed.
End log.

(** ** [setupMediaPlaylists] and [resolveMediaGroupUris] on their own *)

(** X8.  [setupMediaPlaylists] returns on a document whose top-level
    playlists are distinct objects with safe keys.  It gives the playlist
    at index [i] the id [createPlaylistID] of [i] and its uri (with the
    text [undefined] for a missing uri), its uri resolved against the uri
    of the main object as resolvedUri, [playlistErrors_] 0 and an
    attributes object, and changes nothing else of it; it changes no other
    object, and of the main object only the lookup table; it logs one
    warning for every playlist without a truthy BANDWIDTH attribute. *)
Theorem setupMediaPlaylists_effect (resolveUrl : option string -> option string -> string) s :
  ok s -> NoDup (top_locs s) ->
  exists s', setupMediaPlaylists resolveUrl s = Some (tt, s') /\
    elems (main_playlists (doc s')) = elems (main_playlists (doc s)) /\
    main_uri (doc s') = main_uri (doc s) /\
    main_resolvedUri (doc s') = main_resolvedUri (doc s) /\
    mediaGroups (doc s') = mediaGroups (doc s) /\
    length (heap s') = length (heap s) /\
    (forall i l o, top_locs s !! i = Some l -> heap s !! l = Some o ->
       exists o', heap s' !! l = Some o' /\
         uri o' = uri o /\ id o' = Some (createPlaylistID i (uri o)) /\
         resolvedUri o' = Some (resolveUrl (main_uri (doc s)) (uri o)) /\
         playlistErrors_ o' = Some (num 0) /\
         attributes o' = Some (default no_attrs (attributes o)) /\
         playlists o' = playlists o /\ other o' = other o) /\
    (forall x, x ∉ top_locs s -> heap s' !! x = heap s !! x) /\
    console s' = (console s ++ replicate (without_bandwidth (heap s) (top_locs s))
                                         bandwidth_warning)%list.
Proof.
  intros Hok Hnd. eexists. split; [by apply setupMediaPlaylists_run|].
  destruct (set_up_facts resolveUrl s Hok Hnd) as (Hok' & Hfr & Htops & Hrest & _ & _).
  destruct Hfr as (Hel & Huri & Hmg & Hlen).
  split; [exact Hel|]. split; [exact Huri|].
  split; [apply touched_all_main_resolvedUri|].
  split; [exact Hmg|]. split; [exact Hlen|].
  split.
  { intros i l o Hl Ho. eexists. split; [by rewrite (Htops i l Hl), Ho|]. done. }
  split; [exact Hrest|].
  rewrite touched_all_console.
  - f_equal. apply top_touches_warnings. intros i l Hl.
    rewrite (Htops i l Hl). unfold lacks_bandwidth_at.
    destruct (heap s !! l) as [o|]; [|done]. simpl. apply bandwidth_check_setup.
  - rewrite top_touches_locs. by apply NoDup_reverse.
  - apply Forall_forall. intros t Ht.
    apply list_elem_of_fmap in Ht as ([i l] & -> & Hx).
    rewrite elem_of_reverse in Hx. apply elem_of_indexed in Hx.
    by destruct (ok_top_lookup _ _ _ Hok Hx).
Qed.

(** X9.  On a document whose top-level playlists are distinct objects and
    in which no id or uri is ["length"] or an array index: when several
    top-level playlists have a key in common, id or uri,
    [setupMediaPlaylists] leaves the key on the one with the lowest index:
    the loop runs from the last playlist to the first. *)
Theorem lowest_index_wins (resolveUrl : option string -> option string -> string) s :
  ok s -> NoDup (top_locs s) ->
  exists s', setupMediaPlaylists resolveUrl s = Some (tt, s') /\
    forall k i l o,
      top_locs s !! i = Some l -> heap s' !! l = Some o -> k ∈ keys_of o ->
      (forall j l' o', j < i -> top_locs s !! j = Some l' -> heap s' !! l' = Some o' ->
                       k ∉ keys_of o') ->
      at_key (main_playlists (doc s')) k = Some l.
Proof.
  intros Hok Hnd. eexists. split; [by apply setupMediaPlaylists_run|].
  destruct (set_up_facts resolveUrl s Hok Hnd) as (Hok' & _ & _ & _ & _ & Hnm).
  set (s' := touched_all _ s) in *.
  intros k i l o Hl Ho Hk Hfirst.
  rewrite at_key_safe
    by (eapply key_of_safe; [apply (ok_safe _ Hok') | by eapply list_elem_of_lookup_2 | done]).
  fold (named_of s'). rewrite Hnm.
  by apply (lowest_index_registered (heap s') [] (top_locs s) _ k i l o).
Qed.

(** X10.  [resolveMediaGroupUris] returns on a document whose rendition
    descriptors are distinct objects.  A descriptor with a uri gets that
    uri resolved against the uri of the main object as resolvedUri, in
    place of the one it may have had; a descriptor without a uri, every
    other object, the main object and the console stay as they are. *)
Theorem resolveMediaGroupUris_effect
    (resolveUrl : option string -> option string -> string) s :
  ok s -> NoDup (leaf_locs s) ->
  exists s', resolveMediaGroupUris resolveUrl s = Some (tt, s') /\
    doc s' = doc s /\ console s' = console s /\ length (heap s') = length (heap s) /\
    (forall v o, v ∈ visits (doc s) -> heap s !! v_props v = Some o ->
       heap s' !! v_props v
         = Some (if truthy (uri o)
                 then set_resolvedUri o (Some (resolveUrl (main_uri (doc s)) (uri o)))
                 else o)) /\
    (forall x, x ∉ leaf_locs s -> heap s' !! x = heap s !! x) /\
    resolveMediaGroupUris resolveUrl s' = Some (tt, s').
Proof.
  intros Hok Hnd. eexists. split; [by apply resolveMediaGroupUris_run|].
  destruct (resolved_facts resolveUrl s Hok Hnd) as (Hok' & Hfr & Hleaves & Hrest & _ & _).
  assert (Hquiet : Forall (fun t => t_reg t = false)
                     (leaf_touches resolveUrl (main_uri (doc s)) (visits (doc s)))).
  { apply Forall_forall. intros t Ht. by apply list_elem_of_fmap in Ht as (x & -> & _). }
  split; [by apply touched_all_doc|].
  split.
  { apply touched_all_silent. apply Forall_forall. intros t Ht.
    by apply list_elem_of_fmap in Ht as (x & -> & _). }
  split; [by destruct Hfr as (_ & _ & _ & ?)|].
  assert (Hdoc : doc (touched_all (leaf_touches resolveUrl (main_uri (doc s))
                                    (visits (doc s))) s) = doc s)
    by by apply touched_all_doc.
  split; [|split; [exact Hrest|]].
  { intros v o Hv Ho. rewrite Hleaves by by apply list_elem_of_fmap_2. by rewrite Ho. }
  set (s' := touched_all _ s) in *.
  rewrite resolveMediaGroupUris_run by done. rewrite Hdoc. f_equal. f_equal.
  destruct (touched_all_settled
              (leaf_touches resolveUrl (main_uri (doc s)) (visits (doc s))) s')
    as [(Hheap & _) _].
  { apply Forall_forall. intros t Ht.
    apply list_elem_of_fmap in Ht as (v & -> & Hv).
    intros o Ho. simpl in *. rewrite Hleaves in Ho by by apply list_elem_of_fmap_2.
    destruct (heap s !! v_props v) as [o0|]; [|done]. injection Ho as <-.
    apply resolved_settled. }
  pose proof (touched_all_doc _ s' Hquiet) as Hdoc2.
  assert (Hcon : console (touched_all (leaf_touches resolveUrl (main_uri (doc s))
                                         (visits (doc s))) s') = console s').
  { apply touched_all_silent. apply Forall_forall. intros t Ht.
    by apply list_elem_of_fmap in Ht as (x & -> & _). }
  destruct (touched_all _ s') as [h d c]. simpl in *. subst. by destruct s'.
Qed.

(** ** Running a pass again, and keys that several playlists share *)

(** X22.  On a document whose top-level playlists are distinct objects
    and in which no id or uri is ["length"] or an array index:
    [setupMediaPlaylists] run again on the document it leaves changes no
    object and nothing in the main object: ids, resolved uris and the
    lookup table are the same; only the warnings are logged again. *)
Theorem setupMediaPlaylists_twice (resolveUrl : option string -> option string -> string) s :
  ok s -> NoDup (top_locs s) ->
  exists s1 s2,
    setupMediaPlaylists resolveUrl s = Some (tt, s1) /\
    setupMediaPlaylists resolveUrl s1 = Some (tt, s2) /\
    heap s2 = heap s1 /\ doc s2 = doc s1 /\
    console s2 = (console s1 ++ replicate (without_bandwidth (heap s) (top_locs s))
                                          bandwidth_warning)%list.
Proof.
  intros Hok Hnd.
  destruct (set_up_facts resolveUrl s Hok Hnd) as (Hok1 & Hfr & Htops & _ & _ & Hnm).
  set (s1 := touched_all (top_touches resolveUrl (main_uri (doc s)) (top_locs s)) s) in *.
  pose proof (same_frame_tops _ _ Hfr) as Htl.
  assert (Huri : main_uri (doc s1) = main_uri (doc s)) by by destruct Hfr as (_ & ? & _).
  exists s1, (touched_all (top_touches resolveUrl (main_uri (doc s1)) (top_locs s1)) s1).
  split; [by apply setupMediaPlaylists_run|].
  split; [by apply setupMediaPlaylists_run|].
  rewrite Htl, Huri.
  destruct (touched_all_settled
              (top_touches resolveUrl (main_uri (doc s)) (top_locs s)) s1) as [Hsame Hnm2].
  { apply Forall_forall. intros t Ht.
    apply list_elem_of_fmap in Ht as ([i l] & -> & Hx).
    rewrite elem_of_reverse in Hx. apply elem_of_indexed in Hx.
    intros o Ho. simpl in *. rewrite (Htops i l Hx) in Ho.
    destruct (heap s !! l) as [o0|]; [|done]. injection Ho as <-.
    apply top_setup_settled. }
  assert (Hreg : forall h, registered h (top_touches resolveUrl (main_uri (doc s)) (top_locs s))
                           = reverse (top_locs s) ≫= entries_of h).
  { intros h. rewrite registered_all_reg, top_touches_locs; [done|].
    apply Forall_forall. intros t Ht. by apply list_elem_of_fmap in Ht as (x & -> & _). }
  destruct (same_objects_doc _ _ Hsame) as [Hheap Hdoc].
  { rewrite Hnm2, Hreg. rewrite Hnm at 1. rewrite register_all_twice. by rewrite <- Hnm. }
  split; [exact Hheap|]. split; [exact Hdoc|].
  rewrite touched_all_console.
  - f_equal. apply top_touches_warnings. intros i l Hl. rewrite Hheap.
    rewrite (Htops i l Hl). unfold lacks_bandwidth_at.
    destruct (heap s !! l) as [o|]; [|done]. simpl. apply bandwidth_check_setup.
  - rewrite top_touches_locs. by apply NoDup_reverse.
  - apply Forall_forall. intros t Ht.
    apply list_elem_of_fmap in Ht as ([i l] & -> & Hx).
    rewrite elem_of_reverse in Hx. apply elem_of_indexed in Hx. simpl.
    destruct Hfr as (_ & _ & _ & ->). by destruct (ok_top_lookup _ _ _ Hok Hx).
Qed.

(** X23.  On a document that is [ok] and [tree_shaped] (no id, uri or
    group id is ["length"] or an array index, every reference is to an
    object, top-level playlists, rendition descriptors and nested playlists
    are distinct objects): after [addPropertiesToMain] a key that is the id
    or the uri of a top-level playlist refers to the top-level playlist
    with the lowest index that has it, whatever nested playlists have it
    too: the top-level playlists are registered last. *)
Theorem top_level_playlist_wins
    (resolveUrl : option string -> option string -> string)
    (isAudioOnly : list object -> main -> bool) base createGroupID s :
  safe_ids (default groupID createGroupID) -> ok s -> tree_shaped s ->
  exists s', addPropertiesToMain resolveUrl isAudioOnly base createGroupID s
               = Some (tt, s') /\
    forall k i l o,
      top_locs s !! i = Some l -> heap s' !! l = Some o -> k ∈ keys_of o ->
      (forall j l' o', j < i -> top_locs s !! j = Some l' -> heap s' !! l' = Some o' ->
                       k ∉ keys_of o') ->
      at_key (main_playlists (doc s')) k = Some l.
Proof.
  intros Hcg Hok Htree. eexists. split; [by apply addPropertiesToMain_run|].
  destruct (normalized_facts resolveUrl isAudioOnly _ Hcg base s Hok Htree)
    as (Hok' & Hel & _ & _ & _ & _ & _ & _ & Hnm).
  set (s' := normalized _ _ _ base s) in *.
  assert (Htl : top_locs s' = top_locs s) by (unfold top_locs; by rewrite Hel).
  intros k i l o Hl Ho Hk Hfirst.
  rewrite at_key_safe
    by (eapply key_of_safe; [apply (ok_safe _ Hok') | by eapply list_elem_of_lookup_2 | done]).
  fold (named_of s'). rewrite Hnm, all_entries_placed, Htl.
  by apply (lowest_index_registered (heap s') _ (top_locs s) _ k i l o).
Qed.

(** ** A hole among the top-level playlists *)

Lemma phony_at_doc i s s' : phony_at i s = Some (tt, s') -> doc s' = doc s.
Proof.
  unfold phony_at, bind, playlist_at, load, store.
  destruct (at_index _ i) as [l|]; [|done].
  destruct (heap s !! l) as [o|]; [|done].
  destruct (negb (truthy (uri o))).
  - case_decide; [|done]. by intros [= <-].
  - by intros [= <-].
Qed.

Lemma phony_at_hole i s : elems_of s !! i = Some None -> phony_at i s = None.
Proof.
  intros H. unfold phony_at, bind, playlist_at, at_index. fold (elems_of s).
  by rewrite H.
Qed.

Lemma for_each_phony_hole xs i s :
  i ∈ xs -> elems_of s !! i = Some None -> for_each phony_at xs s = None.
Proof.
  revert s. induction xs as [|x xs IH]; intros s Hi Hhole; [by inversion Hi|].
  cbn [for_each]. unfold bind.
  destruct (phony_at x s) as [[[] s']|] eqn:E; [|done].
  apply elem_of_cons in Hi as [->|Hi].
  - by rewrite (phony_at_hole _ _ Hhole) in E.
  - apply IH; [done|]. unfold elems_of. by rewrite (phony_at_doc _ _ _ E).
Qed.

(** X11.  [addPropertiesToMain] throws when [main.playlists] has a hole:
    line 280 reads the uri of every element. *)
Theorem addPropertiesToMain_throws_on_hole
    (resolveUrl : option string -> option string -> string)
    (isAudioOnly : list object -> main -> bool) base createGroupID s :
  None ∈ elems (main_playlists (doc s)) ->
  addPropertiesToMain resolveUrl isAudioOnly base createGroupID s = None.
Proof.
  intros Hhole. apply list_elem_of_lookup_1 in Hhole as [i Hi].
  unfold addPropertiesToMain. apply bind_fail.
  unfold add_placeholders. unfold bind at 1. unfold bind at 1. unfold bind at 1.
  cbn [get_main put_main doc].
  apply (for_each_phony_hole _ i).
  - apply elem_of_seq. simpl. split; [lia|]. by eapply lookup_lt_Some.
  - done.
Qed.

(** ** The whole of [addPropertiesToMain]: console, main object, frame *)

Section whole.
Variable resolveUrl : option string -> option string -> string.
Variable isAudioOnly : list object -> main -> bool.
Variable createGroupID : string -> string -> string -> object -> string.
Hypothesis createGroupID_safe : forall t g l o, safe_key (createGroupID t g l o).

#[local] Abbreviation normal := (normalized resolveUrl createGroupID isAudioOnly).

Lemma sub_touches_silent v base ps :
  Forall (fun t => forall o, t_warn t o = None) (sub_touches resolveUrl createGroupID v base ps).
Proof. apply Forall_forall. intros t Ht. by apply list_elem_of_fmap in Ht as (x & -> & _). Qed.

Lemma visited_console audioOnly v s :
  console (visited resolveUrl createGroupID audioOnly v s) = console s.
Proof.
  unfold visited. destruct (heap s !! v_props v) as [o|]; [|done].
  destruct (populated o); [by rewrite touched_all_silent by apply sub_touches_silent|].
  destruct (suppressed audioOnly v s o); [done|].
  by rewrite touched_all_silent by apply sub_touches_silent.
Qed.


Lemma visited_all_console audioOnly vs s :
  console (visited_all resolveUrl createGroupID audioOnly vs s) = console s.
Proof.
  revert s. induction vs as [|v vs IH]; intros s; [done|].
  cbn [visited_all foldl].
  fold (visited_all resolveUrl createGroupID audioOnly vs
          (visited resolveUrl createGroupID audioOnly v s)).
  by rewrite IH, visited_console.
Qed.



Lemma lacks_bandwidth_phony i o : lacks_bandwidth (phony i o) = lacks_bandwidth o.
Proof. unfold phony. by destruct (negb (truthy (uri o))). Qed.

(** What [addPropertiesToMain] logs: the warnings of
    [setupMediaPlaylists]. *)
Lemma normalized_console base s :
  ok s -> tree_shaped s ->
  console (normal base s)
    = console s ++ replicate (without_bandwidth (heap s) (top_locs s)) bandwidth_warning.
Proof using createGroupID_safe.
  intros Hok Htree.
  destruct (normalized_facts resolveUrl isAudioOnly createGroupID createGroupID_safe
              base s Hok Htree) as (_ & _ & _ & _ & _ & Htops & _).
  destruct (tree_shaped_parts _ Htree) as (Hnd_top & Hnd_fp & Hdis).
  unfold normalized in *. cbv zeta in *.
  fold (prepared base s) in *.
  set (s1 := prepared base s) in *.
  destruct (visited_all_frame resolveUrl createGroupID (isAudioOnly (heap s1) (doc s1))
              (visits (doc s1)) s1) as (He2 & _ & Hm2 & Hlen2).
  set (s2 := visited_all resolveUrl createGroupID _ _ s1) in *.
  assert (He1 : elems_of s1 = elems_of s).
  { subst s1. unfold prepared. by rewrite touched_all_elems. }
  assert (Hm1 : mediaGroups (doc s1) = mediaGroups (doc s)).
  { subst s1. unfold prepared. by rewrite touched_all_mediaGroups. }
  assert (Hlen1 : length (heap s1) = length (heap s)).
  { subst s1. unfold prepared. by rewrite touched_all_length. }
  rewrite He1 in He2. rewrite Hm1 in Hm2. rewrite Hlen1 in Hlen2.
  assert (Ht2 : top_locs s2 = top_locs s) by (unfold top_locs; by rewrite He2).
  rewrite Ht2 in *.
  set (s3 := touched_all (top_touches resolveUrl _ (top_locs s)) s2) in *.
  assert (Hv3 : visits (doc s3) = visits (doc s)).
  { unfold visits. subst s3. by rewrite touched_all_mediaGroups, Hm2. }
  rewrite Hv3 in *.
  rewrite touched_all_silent.
  2:{ apply Forall_forall. intros t Ht. by apply list_elem_of_fmap in Ht as (x & -> & _). }
  subst s3. rewrite touched_all_console.
  - subst s2. rewrite visited_all_console. subst s1. unfold prepared.
    rewrite touched_all_silent.
    2:{ apply Forall_forall. intros t Ht.
        by apply list_elem_of_fmap in Ht as (x & -> & _). }
    simpl. f_equal. apply top_touches_warnings. intros i l Hl.
    assert (Hin : l ∈ top_locs s) by by eapply list_elem_of_lookup_2.
    destruct (ok_top_lookup _ _ _ Hok Hl) as [_ Hlt].
    destruct (lookup_lt_is_Some_2 _ _ Hlt) as [o Ho].
    specialize (Htops i l o Hl Ho).
    rewrite touched_all_frame in Htops.
    2:{ rewrite leaf_touches_locs. intros Hleaf. apply (Hdis l Hin).
        unfold footprint. apply elem_of_app. by left. }
    unfold prepared in Htops. rewrite Htops. simpl.
    unfold lacks_bandwidth_at. rewrite Ho.
    by rewrite bandwidth_check_setup, lacks_bandwidth_phony.
  - rewrite top_touches_locs. by apply NoDup_reverse.
  - apply Forall_forall. intros t Ht.
    apply list_elem_of_fmap in Ht as ([i l] & -> & Hx).
    rewrite elem_of_reverse in Hx. apply elem_of_indexed in Hx.
    destruct (ok_top_lookup _ _ _ Hok Hx) as [_ Hlt]. simpl. lia.
Qed.

(** The nested playlists [addPropertiesToMain] leaves are the sub-playlists
    of lines 311-332. *)
Lemma normalized_nested_objects base s p :
  ok s -> tree_shaped s -> p ∈ nested_locs (normal base s) ->
  exists v j o, heap (normal base s) !! p
                  = Some (sub_of resolveUrl createGroupID v (Some base) j o).
Proof using createGroupID_safe.
  intros Hok Htree Hp.
  destruct (normalized_facts resolveUrl isAudioOnly createGroupID createGroupID_safe
              base s Hok Htree)
    as (_ & _ & _ & Hmg & _ & _ & Hleaves & _).
  set (s' := normal base s) in *.
  unfold nested_locs, leaf_locs in Hp. apply list_elem_of_bind in Hp as (l0 & Hp & Hl0).
  apply list_elem_of_fmap in Hl0 as (v & -> & Hv).
  assert (Hvs : visits (doc s') = visits (doc s)) by (unfold visits; by rewrite Hmg).
  rewrite Hvs in Hv.
  pose proof (ok_leaves _ Hok) as Hlt. rewrite Forall_forall in Hlt.
  destruct (lookup_lt_is_Some_2 _ _ (Hlt v Hv)) as [o Ho].
  specialize (Hleaves v o Hv Ho). unfold leaf_outcome in Hleaves.
  destruct (populated o) eqn:Hpop.
  - destruct Hleaves as [Hself Hsub]. rewrite (nested_lookup _ _ _ Hself) in Hp.
    rewrite resolved_refs in Hp. apply list_elem_of_lookup_1 in Hp as [j Hj].
    assert (Hpl : p < length (heap s)).
    { pose proof (ok_closed _ Hok) as Hc. rewrite Forall_forall in Hc.
      specialize (Hc o (list_elem_of_lookup_2 _ _ _ Ho)). rewrite Forall_forall in Hc.
      apply Hc. by eapply list_elem_of_lookup_2. }
    destruct (lookup_lt_is_Some_2 _ _ Hpl) as [oj Hoj].
    exists v, j, oj. by apply Hsub.
  - destruct (suppressed _ v s o).
    + rewrite (nested_lookup _ _ _ Hleaves), (refs_of_populated _ Hpop) in Hp.
      by inversion Hp.
    + destruct Hleaves as (q & _ & Hself & Hcopy).
      rewrite (nested_lookup _ _ _ Hself), resolved_refs in Hp. simpl in Hp.
      apply list_elem_of_singleton in Hp as ->. by exists v, 0, o.
Qed.
End whole.

(** ** More properties of [addPropertiesToMain] *)


(** X13.  On a document that is [ok] and [tree_shaped] (no id, uri or
    group id is ["length"] or an array index, every reference is to an
    object, top-level playlists, rendition descriptors and nested playlists
    are distinct objects): [addPropertiesToMain] logs one warning for every
    top-level playlist without a truthy BANDWIDTH attribute, the warning of
    line 206, and nothing else. *)
Theorem addPropertiesToMain_warnings
    (resolveUrl : option string -> option string -> string)
    (isAudioOnly : list object -> main -> bool) base createGroupID s :
  safe_ids (default groupID createGroupID) -> ok s -> tree_shaped s ->
  exists s', addPropertiesToMain resolveUrl isAudioOnly base createGroupID s
               = Some (tt, s') /\
    console s' = (console s ++ replicate (without_bandwidth (heap s) (top_locs s))
                                         bandwidth_warning)%list.
Proof.
  intros Hcg Hok Htree.
  eexists. split; [by apply addPropertiesToMain_run|].
  by apply normalized_console.
Qed.

(** X14.  After [addPropertiesToMain] a rendition descriptor has a
    non-empty [playlists] array unless it had none and line 302 returned
    for it: every descriptor that had one keeps it, every SUBTITLES
    descriptor and every descriptor with a uri has one, and so has every
    descriptor of a document that is not audio only. *)
Theorem renditions_populated
    (resolveUrl : option string -> option string -> string)
    (isAudioOnly : list object -> main -> bool) base createGroupID s v o :
  safe_ids (default groupID createGroupID) -> ok s -> tree_shaped s ->
  v ∈ visits (doc s) -> heap s !! v_props v = Some o ->
  exists s' o', addPropertiesToMain resolveUrl isAudioOnly base createGroupID s
                  = Some (tt, s') /\
    heap s' !! v_props v = Some o' /\
    populated o'
      = populated o || negb (suppressed (audio_only_main isAudioOnly base s) v s o) /\
    (populated o = true -> playlists o' = playlists o) /\
    (v_type v <> "AUDIO" -> populated o' = true) /\
    (truthy (uri o) = true -> populated o' = true) /\
    (audio_only_main isAudioOnly base s = false -> populated o' = true).
Proof.
  intros Hcg Hok Htree Hv Ho.
  destruct (normalized_facts resolveUrl isAudioOnly _ Hcg base s Hok Htree)
    as (_ & _ & _ & _ & _ & _ & Hleaves & _).
  specialize (Hleaves v o Hv Ho). unfold leaf_outcome in Hleaves.
  assert (Hcases : exists o', heap (normalized resolveUrl (default groupID createGroupID)
                                      isAudioOnly base s) !! v_props v = Some o' /\
            populated o' = populated o ||
                           negb (suppressed (audio_only_main isAudioOnly base s) v s o) /\
            (populated o = true -> playlists o' = playlists o)).
  { destruct (populated o) eqn:Hpop.
    - destruct Hleaves as [Hself _]. eexists. split; [exact Hself|].
      rewrite resolved_populated, Hpop. split; [done|]. intros _.
      unfold resolved. by destruct (truthy (uri o)).
    - destruct (suppressed _ v s o).
      + exists o. by rewrite Hpop.
      + destruct Hleaves as (p & _ & Hself & _). eexists. split; [exact Hself|].
        by rewrite resolved_populated. }
  destruct Hcases as (o' & Ho' & Hpop' & Hkeep).
  eexists _, o'. split; [by apply addPropertiesToMain_run|].
  split; [exact Ho'|]. split; [exact Hpop'|]. split; [exact Hkeep|].
  unfold suppressed in Hpop'. rewrite Hpop'.
  split; [|split].
  - intros Ht. apply String.eqb_neq in Ht. rewrite Ht.
    rewrite andb_false_r. simpl. apply orb_true_r.
  - intros Hu. rewrite Hu. simpl. rewrite andb_false_r. simpl. apply orb_true_r.
  - intros Ha. rewrite Ha. simpl. apply orb_true_r.
Qed.

(** X15.  After [addPropertiesToMain] every playlist placed in the lookup
    table, top-level or nested, has a truthy id, a uri, a resolvedUri and
    an attributes object; a top-level playlist has a truthy uri and no
    playlist errors. *)
Theorem placed_playlists_complete
    (resolveUrl : option string -> option string -> string)
    (isAudioOnly : list object -> main -> bool) base createGroupID s :
  safe_ids (default groupID createGroupID) -> ok s -> tree_shaped s ->
  exists s', addPropertiesToMain resolveUrl isAudioOnly base createGroupID s
               = Some (tt, s') /\
    (forall l, l ∈ placed s' ->
       exists o, heap s' !! l = Some o /\ truthy (id o) = true /\
                 is_Some (uri o) /\ is_Some (resolvedUri o) /\ is_Some (attributes o)) /\
    (forall l, l ∈ top_locs s' ->
       exists o, heap s' !! l = Some o /\ truthy (uri o) = true /\
                 playlistErrors_ o = Some (num 0)).
Proof.
  intros Hcg Hok Htree.
  eexists. split; [by apply addPropertiesToMain_run|].
  pose proof (normalized_nested_objects resolveUrl isAudioOnly _ Hcg base s) as Hnested.
  destruct (normalized_facts resolveUrl isAudioOnly _ Hcg base s Hok Htree)
    as (_ & Hel & _ & _ & _ & Htops & _).
  set (s' := normalized _ _ _ base s) in *.
  assert (Htl : top_locs s' = top_locs s) by (unfold top_locs; by rewrite Hel).
  assert (Htop : forall l, l ∈ top_locs s' ->
            exists i o, heap s' !! l
                          = Some (top_setup resolveUrl (Some base) i (phony i o))).
  { intros l Hl. rewrite Htl in Hl. apply list_elem_of_lookup_1 in Hl as [i Hi].
    destruct (ok_top_lookup _ _ _ Hok Hi) as [_ Hlt].
    destruct (lookup_lt_is_Some_2 _ _ Hlt) as [o Ho]. exists i, o. by apply Htops. }
  split.
  - intros l Hl. apply elem_of_app in Hl as [Hl|Hl].
    + destruct (Htop l Hl) as (i & o & Ho). eexists. split; [exact Ho|].
      rewrite top_setup_id. split; [apply createPlaylistID_truthy|]. 
      rewrite top_setup_uri.
      split; [|done]. pose proof (phony_truthy i o) as Hu.
      by destruct (uri (phony i o)).
    + destruct (Hnested l Hok Htree Hl) as (v & j & o & Ho).
      eexists. split; [exact Ho|]. split; [apply sub_of_id_truthy|].
      rewrite sub_of_resolvedUri, sub_of_attributes.
      unfold sub_of, sub_playlist, or_else. 
      destruct (truthy (uri o)) eqn:Hu; simpl.
      * split; [by destruct (uri o)|]. split; [|done].
        destruct (resolvedUri o) as [r|]; [destruct (truthy (Some r))|]; by eexists.
      * done.
  - intros l Hl. destruct (Htop l Hl) as (i & o & Ho). eexists. split; [exact Ho|].
    rewrite top_setup_uri. split; [apply phony_truthy | done].
Qed.

(** X16.  On a document that is [ok] and [tree_shaped] (no id, uri or
    group id is ["length"] or an array index, every reference is to an
    object, top-level playlists, rendition descriptors and nested playlists
    are distinct objects): the nested playlist that [addPropertiesToMain]
    makes for a rendition without one (line 307) is a new object, a copy of
    the descriptor as it was: it has the descriptor's attributes, or an
    empty attributes object, and the descriptor's id if that is truthy,
    else the id of index 0 and the group id; the descriptor itself gets
    neither an id nor attributes. *)
Theorem synthesized_playlist_is_a_copy
    (resolveUrl : option string -> option string -> string)
    (isAudioOnly : list object -> main -> bool) base createGroupID s v o :
  safe_ids (default groupID createGroupID) -> ok s -> tree_shaped s ->
  v ∈ visits (doc s) -> heap s !! v_props v = Some o ->
  populated o = false ->
  suppressed (audio_only_main isAudioOnly base s) v s o = false ->
  exists s' r p c,
    addPropertiesToMain resolveUrl isAudioOnly base createGroupID s = Some (tt, s') /\
    heap s' !! v_props v = Some r /\ playlists r = Some [p] /\
    id r = id o /\ attributes r = attributes o /\
    heap s !! p = None /\ heap s' !! p = Some c /\
    attributes c = Some (default no_attrs (attributes o)) /\
    id c = (if truthy (id o) then id o
            else Some (createPlaylistID 0
                         (Some (default groupID createGroupID (v_type v) (v_group v)
                                        (v_label v) o)))) /\
    playlists c = playlists o /\ playlistErrors_ c = playlistErrors_ o /\
    other c = other o.
Proof.
  intros Hcg Hok Htree Hv Ho Hpop Hsup.
  destruct (normalized_facts resolveUrl isAudioOnly _ Hcg base s Hok Htree)
    as (_ & _ & _ & _ & _ & _ & Hleaves & _).
  specialize (Hleaves v o Hv Ho). unfold leaf_outcome in Hleaves.
  rewrite Hpop, Hsup in Hleaves. destruct Hleaves as (p & Hp & Hself & Hcopy).
  eexists _, _, p, _. split; [by apply addPropertiesToMain_run|].
  split; [exact Hself|].
  split; [unfold resolved; by destruct (truthy _)|].
  split; [unfold resolved; by destruct (truthy _)|].
  split; [unfold resolved; by destruct (truthy _)|].
  split; [by apply lookup_ge_None_2|].
  split; [exact Hcopy|].
  rewrite sub_of_attributes. split; [done|].
  unfold sub_of, sub_playlist, or_else.
  destruct (truthy (uri o)); simpl; by destruct (truthy (id o)).
Qed.

(** X24.  On a document that is [ok] and [tree_shaped] (no id, uri or
    group id is ["length"] or an array index, every reference is to an
    object, top-level playlists, rendition descriptors and nested playlists
    are distinct objects): [addPropertiesToMain] puts no playlist under a
    key of the lookup table but under its id and its uri.  A key under
    which the table it leaves has a playlist is the id or the uri of that
    playlist, one of those placed, or had the same playlist before, as
    every index has. *)
Theorem lookup_table_keys
    (resolveUrl : option string -> option string -> string)
    (isAudioOnly : list object -> main -> bool) base createGroupID s :
  safe_ids (default groupID createGroupID) -> ok s -> tree_shaped s ->
  exists s', addPropertiesToMain resolveUrl isAudioOnly base createGroupID s
               = Some (tt, s') /\
    forall k l, at_key (main_playlists (doc s')) k = Some l ->
      (l ∈ placed s' /\ exists o, heap s' !! l = Some o /\ k ∈ keys_of o) \/
      at_key (main_playlists (doc s)) k = Some l.
Proof.
  intros Hcg Hok Htree. eexists. split; [by apply addPropertiesToMain_run|].
  destruct (normalized_facts resolveUrl isAudioOnly _ Hcg base s Hok Htree)
    as (_ & Hel & _ & _ & _ & _ & _ & _ & Hnm).
  set (s' := normalized _ _ _ base s) in *.
  intros k l Hk. unfold at_key in *. destruct (array_index k) as [n|].
  { right. unfold at_index in *. fold (elems_of s') in Hk. rewrite Hel in Hk. exact Hk. }
  fold (named_of s') in Hk. rewrite Hnm in Hk.
  apply register_all_lookup_Some in Hk as [Hin|Hk]; [left | by right].
  rewrite all_entries_placed in Hin.
  apply list_elem_of_bind in Hin as (l0 & Hin & Hl0).
  apply elem_of_entries_of in Hin as (-> & o & Ho & Hko).
  split; [|by exists o].
  unfold placed. rewrite elem_of_app in Hl0 |- *. rewrite elem_of_reverse in Hl0. tauto.
Qed.

(** ** [mainForMedia] followed by [setupMediaPlaylists] *)

Lemma mainForMedia_safe href media u s :
  safe_key u ->
  mainForMedia href media u s
    = Some (MainObject (Some href) (Some href)
              (JsArray [Some (length (heap s))]
                 (<[u := length (heap s)]>
                    (<[createPlaylistID 0 (Some u) := length (heap s)]> ∅)))
              (Some no_groups),
            State (heap s ++ [wrapped u]) (doc s) (console s)).
Proof.
  intros Hu. unfold mainForMedia, bind, alloc. cbn [at_index main_playlists elems].
  cbn [lookup list_lookup mjoin option_join]. simpl.
  by rewrite (assign_safe _ _ _ Hu).
Qed.

Lemma insert_pair_again (k1 k2 : string) (v : loc) (m : gmap string loc) :
  <[k2 := v]> (<[k1 := v]> (<[k2 := v]> (<[k1 := v]> m))) = <[k2 := v]> (<[k1 := v]> m).
Proof.
  apply map_eq. intros k.
  destruct (decide (k = k2)) as [->|H2]; [by rewrite !lookup_insert_eq|].
  rewrite !(lookup_insert_ne _ k2) by done.
  destruct (decide (k = k1)) as [->|H1]; [by rewrite !lookup_insert_eq|].
  rewrite !(lookup_insert_ne _ k1) by done.
  by rewrite !lookup_insert_ne by done.
Qed.

(** X17.  [setupMediaPlaylists] on the document that [mainForMedia]
    returns, for a uri that is a safe key, leaves the document as
    [mainForMedia] returned it: the playlist keeps its id, its uri and its
    place under the three keys.  The playlist gets the uri resolved
    against the location as resolvedUri and [playlistErrors_] 0, and since
    its attributes object is empty the BANDWIDTH warning is logged. *)
Theorem mainForMedia_then_setupMediaPlaylists
    (resolveUrl : option string -> option string -> string) href media u s :
  safe_key u ->
  exists m s1 s2 p o,
    mainForMedia href media u s = Some (m, s1) /\
    (put_main m ;; setupMediaPlaylists resolveUrl) s1 = Some (tt, s2) /\
    doc s2 = m /\
    at_index (main_playlists m) 0 = Some p /\ heap s2 !! p = Some o /\
    uri o = Some u /\ id o = Some (createPlaylistID 0 (Some u)) /\
    resolvedUri o = Some (resolveUrl (Some href) (Some u)) /\
    playlistErrors_ o = Some (num 0) /\ attributes o = Some no_attrs /\
    (forall x, x < length (heap s) -> heap s2 !! x = heap s !! x) /\
    console s2 = (console s ++ [bandwidth_warning])%list.
Proof.
  intros Hu. pose proof (createPlaylistID_safe 0 (Some u)) as Hid.
  set (p := length (heap s)).
  set (nm := <[u := p]> (<[createPlaylistID 0 (Some u) := p]> (∅ : gmap string loc))).
  set (m := MainObject (Some href) (Some href) (JsArray [Some p] nm) (Some no_groups)).
  set (o := top_setup resolveUrl (Some href) 0 (wrapped u)).
  set (s1 := State (heap s ++ [wrapped u]) (doc s) (console s)).
  set (s1' := State (heap s ++ [wrapped u]) m (console s)).
  assert (Hp : heap s1' !! p = Some (wrapped u)).
  { simpl. by rewrite lookup_app_r, Nat.sub_diag. }
  assert (Hlt : p < length (heap s1')) by by eapply lookup_lt_Some.
  exists m, s1, (State (<[p := o]> (heap s ++ [wrapped u])) m
                       (console s ++ [bandwidth_warning])), p, o.
  split; [by apply mainForMedia_safe|].
  split.
  { change ((put_main m ;; setupMediaPlaylists resolveUrl) s1)
      with (setupMediaPlaylists resolveUrl s1').
    unfold setupMediaPlaylists. rewrite (bind_run _ _ _ _ _ (get_main_run s1')).
    change (setup_down resolveUrl (length (elems (main_playlists (doc s1')))) s1')
      with ((setup_at resolveUrl 0 ;; ret tt) s1').
    rewrite bind_ret_tt.
    rewrite (setup_at_touch resolveUrl s1' 0 p eq_refl Hlt).
    unfold touch. cbn [top_touch t_loc t_fun t_reg t_warn].
    rewrite (bind_run _ _ _ _ _ (load_run _ _ _ Hp)).
    change (top_setup resolveUrl (main_uri (doc s1')) 0 (wrapped u)) with o.
    rewrite (bind_run _ _ _ _ _ (store_run _ _ o Hlt)).
    change (ToString (id o)) with (createPlaylistID 0 (Some u)).
    change (ToString (uri o)) with u.
    unfold bind at 1. unfold bind at 1.
    rewrite (register_run _ _ _ Hid). cbv beta iota.
    rewrite (register_run _ _ _ Hu). cbv beta iota.
    change (bandwidth_check o) with (Some bandwidth_warning).
    unfold log_warn, with_named, with_heap, named_of, elems_of. simpl.
    assert (Hnm : <[u := p]> (<[createPlaylistID 0 (Some u) := p]> nm) = nm)
      by (unfold nm; apply insert_pair_again).
    by rewrite Hnm. }
  split; [done|]. split; [done|].
  split. { simpl. apply list_lookup_insert_eq. by rewrite length_app; simpl; lia. }
  split; [done|]. split; [done|]. split; [done|]. split; [done|]. split; [done|].
  split; [|done].
  intros x Hx. simpl. rewrite list_lookup_insert_ne by (unfold p; lia).
  by rewrite lookup_app_l.
Qed.

(** ** The further properties on the sample documents *)

Lemma variants_tops_distinct : NoDup (top_locs Samples.variants).
Proof. by_computation. Qed.

Lemma variants_leaves_distinct : NoDup (leaf_locs Samples.variants).
Proof. by_computation. Qed.

Lemma forEachMediaGroup_calls_witness :
  forEachMediaGroup MoreSamples.log_call Samples.variants
    = Some (tt, State (heap Samples.variants) (doc Samples.variants)
                      ["AUDIO/aud/en"; "AUDIO/aud/fr"; "SUBTITLES/subs/en"]).
Proof.
  destruct (forEachMediaGroup_calls MoreSamples.log_call Samples.variants) as (Heq & _).
  { intros p t g l s0 s1 H. unfold MoreSamples.log_call, log_warn in H.
    by injection H as <-. }
  rewrite Heq. reflexivity.
Defined.

Lemma setupMediaPlaylists_effect_witness :
  ok Samples.variants /\ NoDup (top_locs Samples.variants) /\
  exists s' o1,
    setupMediaPlaylists Samples.join_url Samples.variants = Some (tt, s') /\
    heap s' !! 1 = Some o1 /\ uri o1 = None /\ id o1 = Some "1-undefined" /\
    console s' = [].
Proof.
  split; [exact variants_ok|]. split; [exact variants_tops_distinct|].
  destruct (setupMediaPlaylists_effect Samples.join_url Samples.variants variants_ok
              variants_tops_distinct)
    as (s' & Hrun & _ & _ & _ & _ & _ & Htops & _ & Hconsole).
  destruct (Htops 1 1 _ eq_refl eq_refl) as (o1 & H1 & Hu & Hid & _).
  vm_compute in Hconsole.
  exists s', o1.
  split; [exact Hrun|]. split; [exact H1|]. split; [exact Hu|].
  split; [exact Hid | exact Hconsole].
Defined.

Lemma lowest_index_wins_witness :
  ok Samples.twins /\ NoDup (top_locs Samples.twins) /\
  exists s', setupMediaPlaylists Samples.join_url Samples.twins = Some (tt, s') /\
             at_key (main_playlists (doc s')) "a.m3u8" = Some 0.
Proof.
  assert (Hok : ok Samples.twins) by sample_ok.
  assert (Hnd : NoDup (top_locs Samples.twins)) by by_computation.
  split; [exact Hok|]. split; [exact Hnd|].
  destruct (lowest_index_wins Samples.join_url Samples.twins Hok Hnd)
    as (s' & Hrun & Hkey).
  exists s'. split; [exact Hrun|].
  assert (H0 : exists o, heap s' !! 0 = Some o /\ "a.m3u8" ∈ keys_of o).
  { vm_compute in Hrun. injection Hrun as <-. eexists. split; [reflexivity|].
    vm_compute. repeat constructor. }
  destruct H0 as (o & Ho & Hk).
  apply (Hkey "a.m3u8" 0 0 o eq_refl Ho Hk). intros j l' o' Hj. lia.
Defined.

Lemma resolveMediaGroupUris_effect_witness :
  ok Samples.variants /\ NoDup (leaf_locs Samples.variants) /\
  exists s', resolveMediaGroupUris Samples.join_url Samples.variants = Some (tt, s') /\
    doc s' = doc Samples.variants /\
    (resolvedUri <$> heap s' !! 3) = Some (Some "undefined/fr.m3u8") /\
    heap s' !! 2 = Some Samples.bare.
Proof.
  split; [exact variants_ok|]. split; [exact variants_leaves_distinct|].
  destruct (resolveMediaGroupUris_effect Samples.join_url Samples.variants variants_ok
              variants_leaves_distinct)
    as (s' & Hrun & Hdoc & _ & _ & Hleaves & _).
  exists s'. split; [exact Hrun|]. split; [exact Hdoc|].
  assert (H3 := Hleaves (Visit 3 "AUDIO" "aud" "fr") (Samples.playlist_with_uri "fr.m3u8")
                  ltac:(vm_compute; repeat constructor) eq_refl).
  assert (H2 := Hleaves (Visit 2 "AUDIO" "aud" "en") Samples.bare
                  ltac:(vm_compute; repeat constructor) eq_refl).
  cbn [v_props] in H3, H2. rewrite H3, H2. split; reflexivity.
Defined.

Lemma addPropertiesToMain_throws_on_hole_witness :
  None ∈ elems (main_playlists (doc MoreSamples.holed)) /\
  addPropertiesToMain Samples.join_url (Samples.always false) "http://x" None
    MoreSamples.holed = None.
Proof.
  assert (H : None ∈ elems (main_playlists (doc MoreSamples.holed))).
  { vm_compute. repeat constructor. }
  split; [exact H|].
  exact (addPropertiesToMain_throws_on_hole Samples.join_url (Samples.always false)
           "http://x" None MoreSamples.holed H).
Defined.


Lemma addPropertiesToMain_warnings_witness :
  ok Samples.twins /\ tree_shaped Samples.twins /\
  exists s', addPropertiesToMain Samples.join_url (Samples.always false) "http://x" None
               Samples.twins = Some (tt, s') /\
             console s' = [bandwidth_warning; bandwidth_warning].
Proof.
  assert (Hok : ok Samples.twins) by sample_ok.
  assert (Htree : tree_shaped Samples.twins) by sample_tree_shaped.
  split; [exact Hok|]. split; [exact Htree|].
  destruct (addPropertiesToMain_warnings Samples.join_url (Samples.always false)
              "http://x" None Samples.twins groupID_safe_ids Hok Htree)
    as (s' & Hrun & Hconsole).
  exists s'. split; [exact Hrun | exact Hconsole].
Defined.

Lemma renditions_populated_witness :
  ok Samples.variants /\ tree_shaped Samples.variants /\
  exists s' o2,
    addPropertiesToMain Samples.join_url (Samples.always false) "http://x" None
      Samples.variants = Some (tt, s') /\
    heap s' !! 2 = Some o2 /\ populated o2 = true.
Proof.
  split; [exact variants_ok|]. split; [exact variants_tree_shaped|].
  destruct (renditions_populated Samples.join_url (Samples.always false) "http://x"
              None Samples.variants (Visit 2 "AUDIO" "aud" "en") Samples.bare)
    as (s' & o2 & Hrun & H2 & _ & _ & _ & _ & Hpop).
  - exact groupID_safe_ids.
  - exact variants_ok.
  - exact variants_tree_shaped.
  - vm_compute. repeat constructor.
  - reflexivity.
  - exists s', o2. split; [exact Hrun|]. split; [exact H2|]. apply Hpop. reflexivity.
Defined.

Lemma placed_playlists_complete_witness :
  ok Samples.variants /\ tree_shaped Samples.variants /\
  exists s' o5,
    addPropertiesToMain Samples.join_url (Samples.always false) "http://x" None
      Samples.variants = Some (tt, s') /\
    heap s' !! 5 = Some o5 /\ truthy (id o5) = true /\ is_Some (attributes o5).
Proof.
  split; [exact variants_ok|]. split; [exact variants_tree_shaped|].
  destruct (placed_playlists_complete Samples.join_url (Samples.always false) "http://x"
              None Samples.variants groupID_safe_ids variants_ok variants_tree_shaped)
    as (s' & Hrun & Hplaced & _).
  destruct (Hplaced 5) as (o5 & H5 & Hid & _ & _ & Hattr).
  { vm_compute in Hrun. injection Hrun as <-. vm_compute. repeat constructor. }
  exists s', o5. split; [exact Hrun|]. split; [exact H5|]. split; [exact Hid | exact Hattr].
Defined.

Lemma synthesized_playlist_is_a_copy_witness :
  ok Samples.variants /\ tree_shaped Samples.variants /\
  exists s' r p c,
    addPropertiesToMain Samples.join_url (Samples.always false) "http://x" None
      Samples.variants = Some (tt, s') /\
    heap s' !! 3 = Some r /\ playlists r = Some [p] /\ id r = None /\
    heap Samples.variants !! p = None /\ heap s' !! p = Some c /\
    id c = Some "0-placeholder-uri-AUDIO-aud-fr" /\ attributes c = Some no_attrs.
Proof.
  split; [exact variants_ok|]. split; [exact variants_tree_shaped|].
  destruct (synthesized_playlist_is_a_copy Samples.join_url (Samples.always false)
              "http://x" None Samples.variants (Visit 3 "AUDIO" "aud" "fr")
              (Samples.playlist_with_uri "fr.m3u8"))
    as (s' & r & p & c & Hrun & Hr & Hpl & Hid & _ & Hnew & Hc & Hattr & Hidc & _).
  - exact groupID_safe_ids.
  - exact variants_ok.
  - exact variants_tree_shaped.
  - vm_compute. repeat constructor.
  - reflexivity.
  - reflexivity.
  - reflexivity.
  - vm_compute in Hidc.
    exists s', r, p, c. split; [exact Hrun|]. split; [exact Hr|]. split; [exact Hpl|].
    split; [exact Hid|]. split; [exact Hnew|]. split; [exact Hc|].
    split; [exact Hidc | exact Hattr].
Defined.

Lemma mainForMedia_then_setupMediaPlaylists_witness :
  exists m s1 s2,
    mainForMedia "http://here/" 0 "a.m3u8" Samples.empty_state = Some (m, s1) /\
    (put_main m ;; setupMediaPlaylists Samples.join_url) s1 = Some (tt, s2) /\
    doc s2 = m /\ console s2 = [bandwidth_warning].
Proof.
  destruct (mainForMedia_then_setupMediaPlaylists Samples.join_url "http://here/" 0
              "a.m3u8" Samples.empty_state)
    as (m & s1 & s2 & p & o & Hrun & Hsetup & Hdoc & _ & _ & _ & _ & _ & _ & _ & _ & Hc).
  { split; [discriminate | reflexivity]. }
  exists m, s1, s2. split; [exact Hrun|]. split; [exact Hsetup|].
  split; [exact Hdoc | exact Hc].
Defined.

Lemma setupMediaPlaylists_twice_witness :
  ok Samples.twins /\ NoDup (top_locs Samples.twins) /\
  exists s1 s2,
    setupMediaPlaylists Samples.join_url Samples.twins = Some (tt, s1) /\
    setupMediaPlaylists Samples.join_url s1 = Some (tt, s2) /\
    heap s2 = heap s1 /\ doc s2 = doc s1.
Proof.
  assert (Hok : ok Samples.twins) by sample_ok.
  assert (Hnd : NoDup (top_locs Samples.twins)) by by_computation.
  split; [exact Hok|]. split; [exact Hnd|].
  destruct (setupMediaPlaylists_twice Samples.join_url Samples.twins Hok Hnd)
    as (s1 & s2 & H1 & H2 & Hheap & Hdoc & _).
  exists s1, s2. split; [exact H1|]. split; [exact H2|]. split; [exact Hheap | exact Hdoc].
Defined.

Lemma top_level_playlist_wins_witness :
  ok MoreSamples.shared_uri /\ tree_shaped MoreSamples.shared_uri /\
  exists s', addPropertiesToMain Samples.join_url (Samples.always false) "http://x" None
               MoreSamples.shared_uri = Some (tt, s') /\
             (uri <$> heap s' !! 2) = Some (Some "a.m3u8") /\
             at_key (main_playlists (doc s')) "a.m3u8" = Some 0.
Proof.
  assert (Hok : ok MoreSamples.shared_uri) by sample_ok.
  assert (Htree : tree_shaped MoreSamples.shared_uri) by sample_tree_shaped.
  split; [exact Hok|]. split; [exact Htree|].
  destruct (top_level_playlist_wins Samples.join_url (Samples.always false) "http://x"
              None MoreSamples.shared_uri groupID_safe_ids Hok Htree)
    as (s' & Hrun & Hkey).
  exists s'. split; [exact Hrun|].
  assert (H0 : (uri <$> heap s' !! 2) = Some (Some "a.m3u8") /\
               exists o, heap s' !! 0 = Some o /\ "a.m3u8" ∈ keys_of o).
  { vm_compute in Hrun. injection Hrun as <-. split; [reflexivity|].
    eexists. split; [reflexivity|]. vm_compute. repeat constructor. }
  destruct H0 as (H2 & o & Ho & Hk). split; [exact H2|].
  apply (Hkey "a.m3u8" 0 0 o eq_refl Ho Hk). intros j l' o' Hj. lia.
Defined.

Lemma lookup_table_keys_witness :
  ok Samples.twins /\ tree_shaped Samples.twins /\
  exists s', addPropertiesToMain Samples.join_url (Samples.always false) "http://x" None
               Samples.twins = Some (tt, s') /\
    forall k l, at_key (main_playlists (doc s')) k = Some l ->
      (exists o, heap s' !! l = Some o /\ k ∈ keys_of o) \/
      (exists i, array_index k = Some i /\ i < 2 /\ l = i).
Proof.
  assert (Hok : ok Samples.twins) by sample_ok.
  assert (Htree : tree_shaped Samples.twins) by sample_tree_shaped.
  split; [exact Hok|]. split; [exact Htree|].
  destruct (lookup_table_keys Samples.join_url (Samples.always false) "http://x" None
              Samples.twins groupID_safe_ids Hok Htree) as (s' & Hrun & Hkeys).
  exists s'. split; [exact Hrun|].
  intros k l Hk. destruct (Hkeys k l Hk) as [(_ & Ho)|Hold]; [left; exact Ho|].
  right. unfold at_key, Samples.twins in Hold. simpl in Hold.
  destruct (array_index k) as [n|]; [|by rewrite lookup_empty in Hold].
  exists n. split; [reflexivity|]. unfold at_index in Hold. simpl in Hold.
  destruct n as [|[|n]]; simpl in Hold.
  - injection Hold as <-. split; [lia | reflexivity].
  - injection Hold as <-. split; [lia | reflexivity].
  - discriminate Hold.
Defined.

End MainEffects.

(** * Properties of the cue functions *)

Module TextTracksProps.
Import TextTracks.
#[local] Open Scope list_scope.

(** ** [removeCuesFromTrack] *)

(** The cues the call keeps. *)
Definition outside (start end' : number) (c : cue) : Prop := within start end' c = false.

#[local] Instance outside_dec start end' c : Decision (outside start end' c).
Proof. unfold outside. apply _. Defined.

Lemma remove_down_spec start end' pre post :
  remove_down start end' (length pre) (pre ++ post)
    = Some (filter (outside start end') pre ++ post).
Proof.
  revert post. induction pre as [|c pre IH] using rev_ind; intros post; [done|].
  rewrite length_app, Nat.add_1_r. cbn [remove_down length].
  rewrite <- app_assoc. cbn [app].
  rewrite (list_lookup_middle pre post c (length pre) eq_refl).
  rewrite filter_app, filter_cons, filter_nil.
  destruct (decide (outside start end' c)) as [Hout|Hin].
  - unfold outside in Hout. rewrite Hout, IH. by rewrite <- app_assoc.
  - unfold outside in Hin. apply not_false_is_true in Hin.
    rewrite Hin, delete_middle, IH. by rewrite app_nil_r.
Qed.

Lemma within_NaN start end' c : start = NaN \/ end' = NaN -> within start end' c = false.
Proof.
  unfold within, num_geb. intros [-> | ->].
  - done.
  - destruct (num_leb start (startTime c)); [|done]. simpl. by destruct (endTime c).
Qed.

Lemma filter_all {A : Type} (P : A -> Prop) `{forall x, Decision (P x)} (l : list A) :
  (forall x, x ∈ l -> P x) -> filter P l = l.
Proof.
  induction l as [|x l IH]; intros H'; [done|].
  rewrite filter_cons, decide_True by (apply H'; by left).
  f_equal. apply IH. intros y Hy. apply H'. by right.
Qed.

(** X25.  [removeCuesFromTrack] never throws.  Without a track, or with a
    track without cue list, it does nothing; otherwise it removes the
    cues that start at or after [start] and end at or before [end], and
    keeps the others in their order.  A bound that is [NaN] removes
    nothing, and removing again removes nothing more. *)
Theorem removeCuesFromTrack_spec start end' :
  removeCuesFromTrack start end' None = Some None /\
  (forall t, cues t = None -> removeCuesFromTrack start end' (Some t) = Some (Some t)) /\
  (forall t cs, cues t = Some cs ->
     let cs' := filter (outside start end') cs in
     removeCuesFromTrack start end' (Some t) = Some (Some (Track (Some cs'))) /\
     cs' `sublist_of` cs /\
     (forall c, c ∈ cs' <-> c ∈ cs /\ within start end' c = false) /\
     (start = NaN \/ end' = NaN -> cs' = cs) /\
     removeCuesFromTrack start end' (Some (Track (Some cs')))
       = Some (Some (Track (Some cs')))).
Proof.
  split; [done|]. split.
  { intros t Ht. unfold removeCuesFromTrack. by rewrite Ht. }
  intros t cs Ht cs'.
  assert (Hrun : forall l, remove_down start end' (length l) l
                           = Some (filter (outside start end') l)).
  { intros l. pose proof (remove_down_spec start end' l []) as H.
    by rewrite !app_nil_r in H. }
  split; [unfold removeCuesFromTrack; by rewrite Ht, Hrun|].
  split; [apply sublist_filter|].
  split; [intros c; subst cs'; by rewrite list_elem_of_filter, (comm and)|].
  split.
  - intros Hnan. apply filter_all. intros c _. by apply within_NaN.
  - unfold removeCuesFromTrack. cbn [cues]. rewrite Hrun. do 4 f_equal.
    apply filter_all. intros c Hc. subst cs'. by apply list_elem_of_filter in Hc as [? _].
Qed.

(** ** [removeDuplicateCuesFromTrack] *)

Section keys.
Variable Number_toString : number -> string.

#[local] Abbreviation key := (cueKey Number_toString).

(** One step of the loop seen from the cues kept so far. *)
Definition keep (c : cue) (kept : list cue) : list cue :=
  if decide (key c ∈ key <$> kept) then kept else c :: kept.

(** The cues that have no later cue with the same key. *)
Definition last_of_each (cs : list cue) : list cue := foldr keep [] cs.

Lemma dedup_down_spec pre post :
  dedup_down Number_toString (length pre) (pre ++ post) (list_to_set (key <$> post))
    = Some (foldr keep post pre).
Proof.
  revert post. induction pre as [|c pre IH] using rev_ind; intros post; [done|].
  rewrite length_app, Nat.add_1_r. cbn [dedup_down length].
  rewrite <- app_assoc. cbn [app].
  rewrite (list_lookup_middle pre post c (length pre) eq_refl).
  rewrite foldr_app. cbn [foldr]. unfold keep at 2.
  destruct (decide (key c ∈ key <$> post)) as [Hin|Hnin].
  - rewrite decide_True by by apply elem_of_list_to_set.
    by rewrite delete_middle, IH.
  - rewrite decide_False by by rewrite elem_of_list_to_set.
    rewrite <- list_to_set_cons, <- fmap_cons. apply IH.
Qed.

Lemma last_of_each_cons c cs : last_of_each (c :: cs) = keep c (last_of_each cs).
Proof. done. Qed.

Lemma last_of_each_sublist cs : last_of_each cs `sublist_of` cs.
Proof.
  induction cs as [|c cs IH]; [done|].
  rewrite last_of_each_cons. unfold keep. case_decide.
  - by apply sublist_cons.
  - by apply sublist_skip.
Qed.

Lemma last_of_each_keys cs k : k ∈ key <$> last_of_each cs <-> k ∈ key <$> cs.
Proof.
  induction cs as [|c cs IH]; [done|].
  rewrite last_of_each_cons. unfold keep. rewrite fmap_cons, elem_of_cons, <- IH.
  case_decide as Hc.
  - split; [by right|]. by intros [->|?].
  - by rewrite fmap_cons, elem_of_cons.
Qed.

Lemma last_of_each_NoDup cs : NoDup (key <$> last_of_each cs).
Proof.
  induction cs as [|c cs IH]; [constructor|].
  rewrite last_of_each_cons. unfold keep. case_decide as Hc; [done|].
  rewrite fmap_cons. by constructor.
Qed.

Lemma last_of_each_last cs i c :
  cs !! i = Some c ->
  (forall j c', i < j -> cs !! j = Some c' -> key c' <> key c) ->
  c ∈ last_of_each cs.
Proof.
  revert i. induction cs as [|c0 cs IH]; intros i Hi Hlast; [done|].
  rewrite last_of_each_cons. unfold keep.
  destruct i as [|i].
  - injection Hi as ->. rewrite decide_False; [by left|].
    rewrite last_of_each_keys. intros Hin.
    apply list_elem_of_fmap in Hin as (c' & Hk & Hc').
    apply list_elem_of_lookup_1 in Hc' as [j Hj].
    apply (Hlast (S j) c'); [lia | done | done].
  - assert (Hc : c ∈ last_of_each cs).
    { apply (IH i Hi). intros j c' Hj Hc'. apply (Hlast (S j) c'); [lia | done]. }
    case_decide; [done | by right].
Qed.

Lemma last_of_each_fixed cs : NoDup (key <$> cs) -> last_of_each cs = cs.
Proof.
  induction cs as [|c cs IH]; intros Hnd; [done|].
  rewrite fmap_cons in Hnd. apply NoDup_cons in Hnd as [Hnin Hnd].
  rewrite last_of_each_cons, IH by done. unfold keep. by rewrite decide_False.
Qed.

(** X26.  [removeDuplicateCuesFromTrack] throws without a track, and on a
    track never.  It leaves a track without cue list as it is; of the
    cues of a track it keeps, in their order, one for every key of start
    time, end time and text: the last cue with that key.  Removing
    duplicates again removes nothing. *)
Theorem removeDuplicateCuesFromTrack_spec :
  removeDuplicateCuesFromTrack Number_toString None = None /\
  (forall t, cues t = None ->
     removeDuplicateCuesFromTrack Number_toString (Some t) = Some (Some t)) /\
  (forall t cs, cues t = Some cs ->
     exists cs',
       removeDuplicateCuesFromTrack Number_toString (Some t)
         = Some (Some (Track (Some cs'))) /\
       cs' `sublist_of` cs /\
       NoDup (key <$> cs') /\
       (forall c, c ∈ cs -> key c ∈ key <$> cs') /\
       (forall i c, cs !! i = Some c ->
          (forall j c', i < j -> cs !! j = Some c' -> key c' <> key c) -> c ∈ cs') /\
       removeDuplicateCuesFromTrack Number_toString (Some (Track (Some cs')))
         = Some (Some (Track (Some cs')))).
Proof.
  split; [done|]. split.
  { intros t Ht. unfold removeDuplicateCuesFromTrack. by rewrite Ht. }
  assert (Hrun : forall l, dedup_down Number_toString (length l) l ∅
                           = Some (last_of_each l)).
  { intros l. pose proof (dedup_down_spec l []) as H. by rewrite app_nil_r in H. }
  intros t cs Ht. exists (last_of_each cs).
  split; [unfold removeDuplicateCuesFromTrack; by rewrite Ht, Hrun|].
  split; [apply last_of_each_sublist|].
  split; [apply last_of_each_NoDup|].
  split.
  { intros c Hc. apply last_of_each_keys. by apply list_elem_of_fmap_2. }
  split; [apply last_of_each_last|].
  unfold removeDuplicateCuesFromTrack. cbn [cues]. rewrite Hrun.
  by rewrite last_of_each_fixed by apply last_of_each_NoDup.
Qed.
End keys.

End TextTracksProps.
